(** * AgentBox core: scheduler, claim graph, registry, budget tracker,
    message router, the run pipeline, working memory and conversation
    history, embedded from the TypeScript sources.

    Conventions of the embedding.
    - A JavaScript [Map] whose iteration order is observable is an
      association list in insertion order ([JsMap]); a [Map] that is only
      looked up is a [gmap].
    - Objects that are mutated in place and shared by reference (the [Job]
      of a scheduler entry) live in a store and are named by their index in
      it.
    - [randomUUID()], [Date.now()] and [new Date().toISOString()] are inputs
      of the operation that calls them.
    - A JavaScript [number] that counts ([maxParallel],
      [maxMessagesPerSecond], a clock reading in milliseconds) is an integer
      ([Z]); any other is an exact rational ([Q]): no rounding, no NaN.
    - [eventBus.emit] appends to a log of emitted events; listeners are
      outside the model.
    - The handlers chained on a promise run as steps of their own, and any
      calls may come between two of them.
    - Code from outside these files that a call runs before it returns (a
      job body up to its first [await], a message handler) is an input of
      the operation: a function on the state of the services it holds. *)

From Stdlib Require Import ZArith QArith Qminmax Lia Lqa.
From stdpp Require Import base option list strings gmap sorting.

Local Open Scope Z_scope.
Local Open Scope nat_scope.

(** ** JavaScript [Map] with insertion order *)

Module JsMap.
Section JsMap.
Context {V : Type}.

Definition t := list (string * V).

Definition empty : t := [].

Fixpoint get (k : string) (m : t) : option V :=
  match m with
  | [] => None
  | (k', v) :: m' => if String.eqb k' k then Some v else get k m'
  end.

Definition has (k : string) (m : t) : bool :=
  match get k m with Some _ => true | None => false end.

(** [Map.prototype.set]: an existing key keeps its position. *)
Fixpoint set (k : string) (v : V) (m : t) : t :=
  match m with
  | [] => [(k, v)]
  | (k', v') :: m' =>
      if String.eqb k' k then (k, v) :: m' else (k', v') :: set k v m'
  end.

Fixpoint delete (k : string) (m : t) : t :=
  match m with
  | [] => []
  | (k', v') :: m' =>
      if String.eqb k' k then delete k m' else (k', v') :: delete k m'
  end.

Definition keys (m : t) : list string := m.*1.
Definition values (m : t) : list V := m.*2.
Definition size (m : t) : nat := length m.

Lemma get_elem_of k v (m : t) : get k m = Some v → (k, v) ∈ m.
Proof.
  induction m as [|[k' v'] m IH]; simpl; [done|].
  destruct (String.eqb_spec k' k) as [->|Hne].
  - intros [= ->]. left.
  - intros H. right. by apply IH.
Qed.

Lemma get_None k (m : t) : k ∉ keys m → get k m = None.
Proof.
  unfold keys. induction m as [|[k' v'] m IH]; csimpl; [done|].
  intros Hn. destruct (String.eqb_spec k' k) as [->|Hne].
  - exfalso. apply Hn. left.
  - apply IH. intros Hin. apply Hn. by right.
Qed.

Lemma size_set k v (m : t) : size (set k v m) ≤ S (size m).
Proof.
  unfold size. induction m as [|[k' v'] m IH]; csimpl; [lia|].
  destruct (String.eqb k' k); csimpl; lia.
Qed.

Lemma elem_of_set k v e (m : t) : e ∈ set k v m → e = (k, v) ∨ e ∈ m.
Proof.
  induction m as [|[k0 v0] m IH]; csimpl.
  - intros ->%list_elem_of_singleton. by left.
  - destruct (String.eqb k0 k).
    + intros [->|Hin]%elem_of_cons; [by left|]. right. by right.
    + intros [->|Hin]%elem_of_cons; [right; left|].
      destruct (IH Hin) as [?|?]; [by left|]. right. by right.
Qed.

Lemma keys_set_in k v (m : t) : k ∈ keys m → keys (set k v m) = keys m.
Proof.
  unfold keys. induction m as [|[k0 v0] m IH]; csimpl.
  - by intros ?%elem_of_nil.
  - destruct (String.eqb_spec k0 k) as [->|Hne]; csimpl; [done|].
    intros [?|Hin]%elem_of_cons; [congruence|]. by rewrite IH.
Qed.

Lemma keys_set_notin k v (m : t) : k ∉ keys m → keys (set k v m) = keys m ++ [k].
Proof.
  unfold keys. induction m as [|[k0 v0] m IH]; csimpl; [done|].
  intros Hn. destruct (String.eqb_spec k0 k) as [->|Hne]; csimpl.
  - exfalso. apply Hn. left.
  - rewrite IH; [done|]. intros Hin. apply Hn. by right.
Qed.

Lemma NoDup_keys_set k v (m : t) : NoDup (keys m) → NoDup (keys (set k v m)).
Proof.
  intros Hnd. destruct (decide (k ∈ keys m)) as [Hin|Hnin].
  - by rewrite keys_set_in.
  - rewrite keys_set_notin by done.
    apply NoDup_app. split; [done|]. split.
    + by intros x Hx ->%list_elem_of_singleton.
    + apply NoDup_singleton.
Qed.

Lemma elem_of_delete k e (m : t) : e ∈ delete k m → e ∈ m ∧ e.1 ≠ k.
Proof.
  induction m as [|[k0 v0] m IH]; csimpl; [by intros ?%elem_of_nil|].
  destruct (String.eqb_spec k0 k) as [->|Hne].
  - intros Hin. destruct (IH Hin). split; [by right|done].
  - intros [->|Hin]%elem_of_cons; [split; [left|done]|].
    destruct (IH Hin). split; [by right|done].
Qed.

Lemma size_delete k (m : t) : size (delete k m) ≤ size m.
Proof.
  unfold size. induction m as [|[k0 v0] m IH]; csimpl; [lia|].
  destruct (String.eqb k0 k); csimpl; lia.
Qed.

Lemma NoDup_keys_delete k (m : t) : NoDup (keys m) → NoDup (keys (delete k m)).
Proof.
  unfold keys. induction m as [|[k0 v0] m IH]; csimpl; [done|].
  intros [Hn Hnd]%NoDup_cons. destruct (String.eqb k0 k); [by apply IH|].
  csimpl. apply NoDup_cons. split; [|by apply IH].
  intros [[k1 v1] [Heq [Hin _]%elem_of_delete]]%list_elem_of_fmap.
  csimpl in Heq. subst k1. apply Hn. apply list_elem_of_fmap. by exists (k0, v1).
Qed.

Lemma get_set_eq k v (m : t) : get k (set k v m) = Some v.
Proof.
  induction m as [|[k0 v0] m IH]; simpl.
  - by rewrite String.eqb_refl.
  - destruct (String.eqb_spec k0 k) as [->|Hne]; simpl.
    + by rewrite String.eqb_refl.
    + destruct (String.eqb_spec k0 k); [done|]. exact IH.
Qed.

Lemma get_set_ne k k' v (m : t) : k ≠ k' → get k' (set k v m) = get k' m.
Proof.
  intros Hne. induction m as [|[k0 v0] m IH]; simpl.
  - destruct (String.eqb_spec k k'); [done|done].
  - destruct (String.eqb_spec k0 k) as [->|Hk]; simpl.
    + destruct (String.eqb_spec k k'); [done|done].
    + destruct (String.eqb_spec k0 k'); [done|]. exact IH.
Qed.

Lemma get_Some_keys k v (m : t) : get k m = Some v → k ∈ keys m.
Proof.
  intros H%get_elem_of. unfold keys. apply list_elem_of_fmap. by exists (k, v).
Qed.

Lemma get_is_Some k (m : t) : k ∈ keys m → is_Some (get k m).
Proof.
  unfold keys. induction m as [|[k0 v0] m IH]; csimpl.
  - by intros ?%elem_of_nil.
  - destruct (String.eqb_spec k0 k) as [->|Hne]; [by eexists|].
    intros [?|Hin]%elem_of_cons; [congruence|]. by apply IH.
Qed.

Lemma elem_of_get k v (m : t) : NoDup (keys m) → (k, v) ∈ m → get k m = Some v.
Proof.
  unfold keys. induction m as [|[k0 v0] m IH]; csimpl.
  - by intros _ ?%elem_of_nil.
  - intros [Hn Hnd]%NoDup_cons [[= -> ->]|Hin]%elem_of_cons.
    + by rewrite String.eqb_refl.
    + destruct (String.eqb_spec k0 k) as [->|Hne]; [|by apply IH].
      exfalso. apply Hn. apply list_elem_of_fmap. by exists (k, v).
Qed.

Lemma values_set_in k v (m : t) :
  k ∈ keys m → length (values (set k v m)) = length (values m).
Proof.
  intros Hin. unfold values. rewrite !length_fmap.
  rewrite <- (length_fmap fst (set k v m)), <- (length_fmap fst m).
  change (length (keys (set k v m)) = length (keys m)). by rewrite keys_set_in.
Qed.

Lemma set_notin k v (m : t) : k ∉ keys m → set k v m = m ++ [(k, v)].
Proof.
  unfold keys. induction m as [|[k0 v0] m IH]; csimpl; [done|].
  intros Hn. destruct (String.eqb_spec k0 k) as [->|Hne].
  - exfalso. apply Hn. left.
  - rewrite IH; [done|]. intros Hin. apply Hn. by right.
Qed.

End JsMap.
Arguments t : clear implicits.
End JsMap.

(** ** Job scheduler (scheduler.ts) *)

Module Scheduler.

Inductive JobStatus := Pending | Running | Completed | Cancelled | Failed.

Record Job := mkJob {
  job_id : string;
  job_agentName : string;
  job_task : string;
  job_status : JobStatus;
  job_result : option string;
  job_error : option string;
  job_createdAt : string
}.

Definition with_status (st : JobStatus) (j : Job) : Job :=
  mkJob (job_id j) (job_agentName j) (job_task j) st
        (job_result j) (job_error j) (job_createdAt j).

Definition with_result (r : string) (j : Job) : Job :=
  mkJob (job_id j) (job_agentName j) (job_task j) (job_status j)
        (Some r) (job_error j) (job_createdAt j).

Definition with_error (e : string) (j : Job) : Job :=
  mkJob (job_id j) (job_agentName j) (job_task j) (job_status j)
        (job_result j) (Some e) (job_createdAt j).

(** State of the promise handed out by [enqueue]; [resolve] and [reject]
    act on the first call only. *)
Inductive Settlement :=
  | Unsettled
  | Fulfilled (value : string)
  | Rejected (reason : string).

(** [QueuedJob]: [job] is the reference to the shared [Job] object (its
    index in [allJobs]); the closures [execute], [resolve] and [reject]
    belong to the same entry and are addressed by that reference. *)
Record QueuedJob := mkQueued {
  job : nat;
  correlationId : option string
}.

Inductive Event :=
  | job_scheduled (j : nat) (corr : option string)
  | job_completed (j : nat) (corr : option string)
  | job_cancelled (jobId : string) (corr : option string).

Record State := mkState {
  queue : list QueuedJob;
  running : JsMap.t QueuedJob;
  allJobs : list Job;
  maxParallel : Z;
  paused : bool;
  (** promise of each job of [allJobs], by reference *)
  promises : list Settlement;
  (** entries started by [startJob] whose handlers have not all run yet *)
  inflight : list QueuedJob;
  emitted : list Event
}.

Definition init (maxParallel : Z) : State :=
  mkState [] JsMap.empty [] maxParallel false [] [] [].

Definition set_queue (q : list QueuedJob) (s : State) : State :=
  mkState q (running s) (allJobs s) (maxParallel s) (paused s)
          (promises s) (inflight s) (emitted s).

Definition set_running (r : JsMap.t QueuedJob) (s : State) : State :=
  mkState (queue s) r (allJobs s) (maxParallel s) (paused s)
          (promises s) (inflight s) (emitted s).

Definition set_allJobs (a : list Job) (s : State) : State :=
  mkState (queue s) (running s) a (maxParallel s) (paused s)
          (promises s) (inflight s) (emitted s).

Definition set_paused (b : bool) (s : State) : State :=
  mkState (queue s) (running s) (allJobs s) (maxParallel s) b
          (promises s) (inflight s) (emitted s).

Definition set_promises (p : list Settlement) (s : State) : State :=
  mkState (queue s) (running s) (allJobs s) (maxParallel s) (paused s)
          p (inflight s) (emitted s).

Definition set_inflight (i : list QueuedJob) (s : State) : State :=
  mkState (queue s) (running s) (allJobs s) (maxParallel s) (paused s)
          (promises s) i (emitted s).

Definition emit (e : Event) (s : State) : State :=
  mkState (queue s) (running s) (allJobs s) (maxParallel s) (paused s)
          (promises s) (inflight s) (emitted s ++ [e]).

(** [item.job.id] *)
Definition id_of (s : State) (ref : nat) : string :=
  from_option job_id ""%string (allJobs s !! ref).

(** [item.job.status = st] *)
Definition set_status (ref : nat) (st : JobStatus) (s : State) : State :=
  set_allJobs (alter (with_status st) ref (allJobs s)) s.

Definition status_of (s : State) (ref : nat) : option JobStatus :=
  job_status <$> allJobs s !! ref.

Definition settle_with (o : Settlement) (p : Settlement) : Settlement :=
  match p with Unsettled => o | _ => p end.

(** [item.resolve(v)] *)
Definition resolve (ref : nat) (v : string) (s : State) : State :=
  set_promises (alter (settle_with (Fulfilled v)) ref (promises s)) s.

(** [item.reject(err)] *)
Definition reject (ref : nat) (reason : string) (s : State) : State :=
  set_promises (alter (settle_with (Rejected reason)) ref (promises s)) s.

(** [startJob]: the body is started by [item.execute()]; the entry stays
    in flight until the handlers chained on the promise of the body have
    run ([settle] below). What the body does before its first [await] is
    in [drain_loop_with] below. *)
Definition startJob (item : QueuedJob) (s : State) : State :=
  let s1 := set_status (job item) Running s in
  let s2 := set_running (JsMap.set (id_of s1 (job item)) item (running s1)) s1 in
  set_inflight (inflight s2 ++ [item]) s2.

(** Condition and body of the [while] loop of [drain]. *)
Definition loop_condition (s : State) : bool :=
  (Z.of_nat (JsMap.size (running s)) <? maxParallel s)%Z
  && (0 <? length (queue s))%nat.

Definition loop_body (s : State) : State :=
  match queue s with
  | item :: rest => startJob item (set_queue rest s)
  | [] => s
  end.

(** The [while] loop of [drain]; every iteration shifts one entry, so the
    length of the queue is enough fuel. *)
Fixpoint drain_loop (fuel : nat) (s : State) : State :=
  match fuel with
  | O => s
  | S fuel' => if loop_condition s then drain_loop fuel' (loop_body s) else s
  end.

Definition drain (s : State) : State :=
  if paused s then s else drain_loop (length (queue s)) s.

(** The part of [enqueue] before [drain]: the job is created pending,
    logged in [allJobs] and pushed on the queue with its new promise. *)
Definition push_job (uuid agentName task createdAt : string)
    (corr : option string) (s : State) : State :=
  let ref := length (allJobs s) in
  let j := mkJob uuid agentName task Pending None None createdAt in
  let s1 := set_allJobs (allJobs s ++ [j]) s in
  let s2 := set_promises (promises s1 ++ [Unsettled]) s1 in
  let s3 := set_queue (queue s2 ++ [mkQueued ref corr]) s2 in
  emit (job_scheduled ref corr) s3.

(** [enqueue]: returns the handle (the reference of the job and of its
    promise) and the new state. *)
Definition enqueue (uuid agentName task createdAt : string)
    (corr : option string) (s : State) : nat * State :=
  (length (allJobs s), drain (push_job uuid agentName task createdAt corr s)).

Definition pause (s : State) : State := set_paused true s.

Definition resume (s : State) : State := drain (set_paused false s).

Definition cancel_message (jobId : string) : string :=
  ("Job " ++ jobId ++ " cancelled")%string.

(** [queue.findIndex(q => q.job.id === jobId)] followed by [splice]. *)
Fixpoint find_pending (s : State) (jobId : string) (q : list QueuedJob)
    : option (QueuedJob * list QueuedJob) :=
  match q with
  | [] => None
  | item :: rest =>
      if String.eqb (id_of s (job item)) jobId then Some (item, rest)
      else match find_pending s jobId rest with
           | Some (found, rest') => Some (found, item :: rest')
           | None => None
           end
  end.

Definition cancel (jobId : string) (s : State) : bool * State :=
  match find_pending s jobId (queue s) with
  | Some (item, rest) =>
      let s1 := set_queue rest s in
      let s2 := set_status (job item) Cancelled s1 in
      let s3 := emit (job_cancelled jobId (correlationId item)) s2 in
      (true, reject (job item) (cancel_message jobId) s3)
  | None =>
      match JsMap.get jobId (running s) with
      | Some item =>
          let s1 := set_status (job item) Cancelled s in
          (true, emit (job_cancelled jobId (correlationId item)) s1)
      | None => (false, s)
      end
  end.

(** One iteration of either [for] loop of [cancelAll]. *)
Definition cancel_entry (s : State) (jobId : string) (item : QueuedJob) : State :=
  let s1 := set_status (job item) Cancelled s in
  let s2 := emit (job_cancelled jobId (correlationId item)) s1 in
  reject (job item) (cancel_message jobId) s2.

Definition cancelAll (s : State) : State :=
  let s1 := foldl (fun acc item => cancel_entry acc (id_of acc (job item)) item)
                  s (queue s) in
  let s2 := set_queue [] s1 in
  let s3 := foldl (fun acc e => cancel_entry acc e.1 e.2) s2 (running s2) in
  set_running JsMap.empty s3.

(** How the promise returned by [item.execute()] settles. *)
Inductive Outcome :=
  | Returned (value : string)
  | Threw (message : string).

Fixpoint take_inflight (ref : nat) (l : list QueuedJob)
    : option (QueuedJob * list QueuedJob) :=
  match l with
  | [] => None
  | item :: rest =>
      if Nat.eqb (job item) ref then Some (item, rest)
      else match take_inflight ref rest with
           | Some (found, rest') => Some (found, item :: rest')
           | None => None
           end
  end.

(** The [then] handler (the body returned) or the [catch] handler (it
    threw) installed by [startJob]: one microtask. *)
Definition then_catch (item : QueuedJob) (o : Outcome) (s0 : State) : State :=
  match o with
  | Returned v =>
      let a := set_status (job item) Completed s0 in
      let b := set_allJobs (alter (with_result v) (job item) (allJobs a)) a in
      let c := emit (job_completed (job item) (correlationId item)) b in
      resolve (job item) v c
  | Threw msg =>
      let a := set_status (job item) Failed s0 in
      let b := set_allJobs (alter (with_error msg) (job item) (allJobs a)) a in
      let c := emit (job_completed (job item) (correlationId item)) b in
      reject (job item) msg c
  end.

(** The [this.running.delete(item.job.id)] of the [finally] handler: a
    later microtask. *)
Definition finally_delete (item : QueuedJob) (s1 : State) : State :=
  set_running (JsMap.delete (id_of s1 (job item)) (running s1)) s1.

(** The two handlers run back to back, when nothing else takes a turn
    between them. Code that awaits the promise of the job does take a turn
    there: [Step] below runs the two handlers apart. *)
Definition on_settled (item : QueuedJob) (o : Outcome) (s0 : State) : State :=
  finally_delete item (then_catch item o s0).

(** The [then] / [catch] / [finally] chain of [startJob], run back to back
    when the body of job [ref] settles; [finally] ends with [drain]. *)
Definition settle (ref : nat) (o : Outcome) (s : State) : State :=
  match take_inflight ref (inflight s) with
  | None => s
  | Some (item, rest) => drain (on_settled item o (set_inflight rest s))
  end.

Definition getJobs (s : State) : list Job :=
  omap (fun q => allJobs s !! job q) (queue s)
  ++ omap (fun q => allJobs s !! job q) (JsMap.values (running s)).

Definition getAllJobs (s : State) : list Job := allJobs s.
Definition activeCount (s : State) : nat := JsMap.size (running s).
Definition pendingCount (s : State) : nat := length (queue s).

(** One evaluation of the condition of a [drain] loop in progress, with
    the loop body when it holds. *)
Definition start_next (s : State) : State :=
  if loop_condition s then loop_body s else s.

(** The handlers of [settle], back to back, without the final [drain]. *)
Definition handlers (ref : nat) (o : Outcome) (s : State) : State :=
  match take_inflight ref (inflight s) with
  | None => s
  | Some (item, rest) => on_settled item o (set_inflight rest s)
  end.

(** Calls made on the scheduler, and settlements of job bodies. A job body
    runs inside [startJob] until its first [await], and may call the
    scheduler there, in the middle of a [drain] loop (a unit that spawns
    another one does); the last four operations are the pieces such an
    execution is made of: [enqueue] up to its call of [drain], one turn of
    a [drain] loop, the assignment of [resume], and the handlers of a
    settlement up to their call of [drain]. *)
Inductive Op :=
  | OpEnqueue (uuid agentName task createdAt : string) (corr : option string)
  | OpPause
  | OpResume
  | OpCancel (jobId : string)
  | OpCancelAll
  | OpSettle (ref : nat) (o : Outcome)
  | OpPush (uuid agentName task createdAt : string) (corr : option string)
  | OpStartNext
  | OpUnpause
  | OpHandlers (ref : nat) (o : Outcome).

Definition exec (s : State) (op : Op) : State :=
  match op with
  | OpEnqueue uuid a t c corr => (enqueue uuid a t c corr s).2
  | OpPause => pause s
  | OpResume => resume s
  | OpCancel jobId => (cancel jobId s).2
  | OpCancelAll => cancelAll s
  | OpSettle ref o => settle ref o s
  | OpPush uuid a t c corr => push_job uuid a t c corr s
  | OpStartNext => start_next s
  | OpUnpause => set_paused false s
  | OpHandlers ref o => handlers ref o s
  end.

Definition run (ops : list Op) (s : State) : State := foldl exec s ops.

Definition queue_refs (s : State) : list nat := job <$> queue s.
Definition running_refs (s : State) : list nat := job <$> JsMap.values (running s).
Definition inflight_refs (s : State) : list nat := job <$> inflight s.

Example two_jobs_bound_one :
  let s := run [OpEnqueue "a" "A" "t" "d" None; OpEnqueue "b" "B" "t" "d" None] (init 1) in
  running_refs s = [0] /\ queue_refs s = [1]
  /\ status_of s 0 = Some Running /\ status_of s 1 = Some Pending.
Proof. vm_compute. done. Qed.

(** *** Frame facts: what each primitive leaves alone *)

Lemma id_of_alter (f : Job → Job) (i r : nat) (s : State) :
  (∀ j, job_id (f j) = job_id j) →
  id_of (set_allJobs (alter f i (allJobs s)) s) r = id_of s r.
Proof.
  intros Hf. unfold id_of. simpl.
  destruct (decide (i = r)) as [->|Hne].
  - rewrite list_lookup_alter_eq. destruct (allJobs s !! r); simpl; auto.
  - by rewrite list_lookup_alter_ne.
Qed.

Lemma id_of_set_status ref st s r : id_of (set_status ref st s) r = id_of s r.
Proof. unfold set_status. by apply id_of_alter. Qed.

Lemma elem_of_running_refs (s : State) (r : nat) :
  r ∈ running_refs s ↔ ∃ k item, (k, item) ∈ running s ∧ job item = r.
Proof.
  unfold running_refs, JsMap.values. split.
  - intros [item [-> [[k it] [-> Hin]]%list_elem_of_fmap]]%list_elem_of_fmap.
    by exists k, it.
  - intros (k & item & Hin & <-). apply list_elem_of_fmap. exists item.
    split; [done|]. apply list_elem_of_fmap. by exists (k, item).
Qed.

Lemma find_pending_None s jobId q :
  jobId ∉ (id_of s <$> (job <$> q)) → find_pending s jobId q = None.
Proof.
  induction q as [|item q IH]; csimpl; [done|].
  intros Hn. destruct (String.eqb_spec (id_of s (job item)) jobId) as [Heq|Hne].
  - exfalso. apply Hn. rewrite Heq. left.
  - rewrite IH; [done|]. intros Hin. apply Hn. by right.
Qed.

Lemma find_pending_Some s jobId q item rest :
  find_pending s jobId q = Some (item, rest) →
  id_of s (job item) = jobId ∧
  ∃ l1 l2, q = l1 ++ item :: l2 ∧ rest = l1 ++ l2.
Proof.
  revert rest. induction q as [|x q IH]; simpl; [done|]. intros rest.
  destruct (String.eqb_spec (id_of s (job x)) jobId) as [Heq|Hne].
  - intros [= -> ->]. split; [done|]. by exists [], rest.
  - destruct (find_pending s jobId q) as [[found rest']|] eqn:E; [|done].
    intros [= -> <-]. destruct (IH _ eq_refl) as (Hid & l1 & l2 & -> & ->).
    split; [done|]. by exists (x :: l1), l2.
Qed.

Lemma take_inflight_Some ref l item rest :
  take_inflight ref l = Some (item, rest) →
  job item = ref ∧ ∃ l1 l2, l = l1 ++ item :: l2 ∧ rest = l1 ++ l2.
Proof.
  revert rest. induction l as [|x l IH]; simpl; [done|]. intros rest.
  destruct (Nat.eqb_spec (job x) ref) as [Heq|Hne].
  - intros [= -> ->]. split; [done|]. by exists [], rest.
  - destruct (take_inflight ref l) as [[found rest']|] eqn:E; [|done].
    intros [= -> <-]. destruct (IH _ eq_refl) as (Hid & l1 & l2 & -> & ->).
    split; [done|]. by exists (x :: l1), l2.
Qed.

Lemma cancel_absent (s : State) (jobId : string) :
  jobId ∉ (id_of s <$> queue_refs s) →
  jobId ∉ JsMap.keys (running s) →
  cancel jobId s = (false, s).
Proof.
  intros Hq Hr. unfold cancel.
  rewrite (find_pending_None s jobId (queue s) Hq).
  by rewrite JsMap.get_None.
Qed.

(** C10. For a job id that is neither the id of a pending entry nor a key of
    the running map, [cancel] returns [false] and leaves the whole scheduler
    state as it was: the status of every job, the log of emitted events and
    the settlement of every promise. *)
Theorem cancel_unknown_is_noop (s : State) (jobId : string) :
  jobId ∉ (id_of s <$> queue_refs s) →
  jobId ∉ JsMap.keys (running s) →
  cancel jobId s = (false, s).
Proof. apply cancel_absent. Qed.

(** *** The scheduler invariant *)

Record Inv (N : Z) (s : State) : Prop := mkInv {
  inv_max : maxParallel s = N;
  inv_bound : (Z.of_nat (JsMap.size (running s)) ≤ N)%Z;
  inv_len : length (promises s) = length (allJobs s);
  inv_queue_nodup : NoDup (queue_refs s);
  inv_queue_lt : ∀ r, r ∈ queue_refs s → r < length (allJobs s);
  inv_inflight_lt : ∀ r, r ∈ inflight_refs s → r < length (allJobs s);
  inv_queue_inflight : ∀ r, r ∈ queue_refs s → r ∉ inflight_refs s;
  inv_running_keys : NoDup (JsMap.keys (running s));
  inv_running_entry : ∀ k item, (k, item) ∈ running s →
    k = id_of s (job item) ∧ job item ∈ inflight_refs s;
  inv_queue_unsettled : ∀ r, r ∈ queue_refs s → promises s !! r = Some Unsettled
}.

Lemma init_inv (N : Z) : (0 ≤ N)%Z → Inv N (init N).
Proof.
  intros HN. split; simpl; try done.
  - apply NoDup_nil_2.
  - by intros r ?%elem_of_nil.
  - by intros r ?%elem_of_nil.
  - by intros r ?%elem_of_nil.
  - apply NoDup_nil_2.
  - by intros k item ?%elem_of_nil.
  - by intros r ?%elem_of_nil.
Qed.

Lemma running_not_queued N s r :
  Inv N s → r ∈ running_refs s → r ∉ queue_refs s.
Proof.
  intros HI (k & item & Hin & <-)%elem_of_running_refs Hq.
  destruct (inv_running_entry _ _ HI _ _ Hin) as [_ Hfl].
  by apply (inv_queue_inflight _ _ HI _ Hq).
Qed.

Lemma startJob_inv N s item rest :
  Inv N s → queue s = item :: rest →
  (Z.of_nat (JsMap.size (running s)) < maxParallel s)%Z →
  Inv N (startJob item (set_queue rest s)).
Proof.
  intros HI Hq Hlt.
  assert (Hnd : NoDup (job item :: (job <$> rest))).
  { pose proof (inv_queue_nodup _ _ HI) as H. unfold queue_refs in H.
    by rewrite Hq in H. }
  apply NoDup_cons in Hnd as [Hhead Hnd].
  assert (Hrefq : ∀ r, r ∈ job <$> rest → r ∈ queue_refs s).
  { intros r Hr. unfold queue_refs. rewrite Hq. by right. }
  assert (Hitemq : job item ∈ queue_refs s).
  { unfold queue_refs. rewrite Hq. left. }
  split; simpl.
  - apply (inv_max _ _ HI).
  - pose proof (JsMap.size_set
      (id_of (set_status (job item) Running (set_queue rest s)) (job item))
      item (running s)).
    rewrite (inv_max _ _ HI) in Hlt. lia.
  - rewrite length_alter. apply (inv_len _ _ HI).
  - done.
  - intros r Hr. rewrite length_alter. apply (inv_queue_lt _ _ HI). auto.
  - intros r Hr. rewrite length_alter. unfold inflight_refs in Hr. simpl in Hr.
    rewrite fmap_app in Hr. apply elem_of_app in Hr as [Hr|Hr].
    + by apply (inv_inflight_lt _ _ HI).
    + apply list_elem_of_singleton in Hr as ->. by apply (inv_queue_lt _ _ HI).
  - intros r Hr. unfold inflight_refs. simpl. rewrite fmap_app.
    intros [Hin|Hin]%elem_of_app.
    + by apply (inv_queue_inflight _ _ HI r); auto.
    + apply list_elem_of_singleton in Hin as ->. done.
  - apply JsMap.NoDup_keys_set, (inv_running_keys _ _ HI).
  - intros k it [[= -> ->]|Hin]%JsMap.elem_of_set.
    + split; [done|]. unfold inflight_refs. simpl. rewrite fmap_app.
      apply elem_of_app. right. left.
    + destruct (inv_running_entry _ _ HI _ _ Hin) as [Hk Hfl]. split.
      * rewrite Hk. symmetry.
        apply (id_of_set_status (job item) Running (set_queue rest s)).
      * unfold inflight_refs. simpl. rewrite fmap_app. apply elem_of_app. by left.
  - intros r Hr. apply (inv_queue_unsettled _ _ HI). auto.
Qed.

Lemma loop_body_inv N s : Inv N s → loop_condition s = true → Inv N (loop_body s).
Proof.
  intros HI [Hlt _]%andb_true_iff. apply Z.ltb_lt in Hlt. unfold loop_body.
  destruct (queue s) as [|item rest] eqn:Hq; [done|]. by apply startJob_inv.
Qed.

Lemma start_next_inv N s : Inv N s → Inv N (start_next s).
Proof.
  intros HI. unfold start_next. destruct (loop_condition s) eqn:E; [|done].
  by apply loop_body_inv.
Qed.

Lemma drain_loop_inv N fuel s : Inv N s → Inv N (drain_loop fuel s).
Proof.
  revert s. induction fuel as [|fuel IH]; intros s HI; simpl; [done|].
  destruct (loop_condition s) eqn:E; [|done]. apply IH. by apply loop_body_inv.
Qed.

Lemma drain_inv N s : Inv N s → Inv N (drain s).
Proof. intros HI. unfold drain. destruct (paused s); [done|]. by apply drain_loop_inv. Qed.

(** The fuel given to [drain_loop] by [drain] is enough: the loop stops
    because its condition is false, not because the fuel ran out. *)
Lemma drain_loop_exit fuel s :
  length (queue s) ≤ fuel → loop_condition (drain_loop fuel s) = false.
Proof.
  revert s. induction fuel as [|fuel IH]; intros s Hlen; simpl.
  - unfold loop_condition. destruct (queue s) eqn:Hq; [|simpl in Hlen; lia].
    simpl. apply andb_false_r.
  - destruct (loop_condition s) eqn:E; [|done]. apply IH.
    unfold loop_body. destruct (queue s) as [|item rest] eqn:Hq.
    + unfold loop_condition in E. rewrite Hq in E. simpl in E.
      by rewrite andb_false_r in E.
    + simpl. simpl in Hlen. lia.
Qed.

Lemma push_job_inv N s uuid a t c corr :
  Inv N s → Inv N (push_job uuid a t c corr s).
Proof.
  intros HI. unfold push_job.
  pose proof (inv_len _ _ HI) as Hlen.
  split; simpl.
  - apply (inv_max _ _ HI).
  - apply (inv_bound _ _ HI).
  - rewrite !length_app. simpl. lia.
  - unfold queue_refs. simpl. rewrite fmap_app. apply NoDup_app.
    split; [apply (inv_queue_nodup _ _ HI)|]. split; [|apply NoDup_singleton].
    intros r Hr ->%list_elem_of_singleton.
    pose proof (inv_queue_lt _ _ HI _ Hr) as H. simpl in H. lia.
  - intros r Hr. rewrite length_app. simpl.
    unfold queue_refs in Hr. simpl in Hr. rewrite fmap_app in Hr.
    apply elem_of_app in Hr as [Hr| ->%list_elem_of_singleton]; [|simpl; lia].
    pose proof (inv_queue_lt _ _ HI _ Hr). lia.
  - intros r Hr. rewrite length_app. simpl.
    pose proof (inv_inflight_lt _ _ HI _ Hr). lia.
  - intros r Hr Hfl. unfold queue_refs in Hr. simpl in Hr. rewrite fmap_app in Hr.
    apply elem_of_app in Hr as [Hr| ->%list_elem_of_singleton].
    + by apply (inv_queue_inflight _ _ HI r).
    + pose proof (inv_inflight_lt _ _ HI _ Hfl) as H. simpl in H. lia.
  - apply (inv_running_keys _ _ HI).
  - intros k it Hin. destruct (inv_running_entry _ _ HI _ _ Hin) as [Hk Hfl].
    split; [|done]. rewrite Hk. unfold id_of. simpl.
    rewrite lookup_app_l; [done|]. by apply (inv_inflight_lt _ _ HI).
  - intros r Hr. unfold queue_refs in Hr. simpl in Hr. rewrite fmap_app in Hr.
    apply elem_of_app in Hr as [Hr| ->%list_elem_of_singleton].
    + rewrite lookup_app_l; [by apply (inv_queue_unsettled _ _ HI)|].
      pose proof (inv_queue_lt _ _ HI _ Hr). lia.
    + rewrite <- Hlen. by apply list_lookup_middle.
Qed.

Lemma enqueue_inv N s uuid a t c corr :
  Inv N s → Inv N (enqueue uuid a t c corr s).2.
Proof. intros HI. apply drain_inv. by apply push_job_inv. Qed.

Lemma pause_inv N s : Inv N s → Inv N (pause s).
Proof. intros HI. destruct HI. by split. Qed.

Lemma resume_inv N s : Inv N s → Inv N (resume s).
Proof. intros HI. apply drain_inv. destruct HI. by split. Qed.

Lemma cancel_inv N s jobId : Inv N s → Inv N (cancel jobId s).2.
Proof.
  intros HI. unfold cancel.
  destruct (find_pending s jobId (queue s)) as [[item rest]|] eqn:E.
  - apply find_pending_Some in E as (Hid & l1 & l2 & Hq & ->). simpl.
    assert (Hsub : ∀ r, r ∈ job <$> (l1 ++ l2) → r ∈ queue_refs s).
    { intros r Hr. unfold queue_refs. rewrite Hq, fmap_app, fmap_cons.
      rewrite fmap_app in Hr. apply elem_of_app in Hr as [?|?];
        apply elem_of_app; [by left|right; by right]. }
    assert (Hnd : NoDup (queue_refs s)) by apply (inv_queue_nodup _ _ HI).
    unfold queue_refs in Hnd. rewrite Hq, fmap_app, fmap_cons in Hnd.
    apply NoDup_app in Hnd as (Hnd1 & Hdisj & [Hnot Hnd2]%NoDup_cons).
    assert (Hitem : job item ∈ queue_refs s).
    { unfold queue_refs. rewrite Hq, fmap_app, fmap_cons.
      apply elem_of_app. right. left. }
    assert (Hfresh : job item ∉ job <$> (l1 ++ l2)).
    { rewrite fmap_app. intros [H1|H2]%elem_of_app; [|done].
      apply (Hdisj _ H1). left. }
    split; simpl.
    + apply (inv_max _ _ HI).
    + apply (inv_bound _ _ HI).
    + rewrite !length_alter. apply (inv_len _ _ HI).
    + unfold queue_refs. simpl. rewrite fmap_app. apply NoDup_app.
      split; [done|]. split; [|done].
      intros r H1 H2. apply (Hdisj _ H1). by right.
    + intros r Hr. rewrite length_alter. apply (inv_queue_lt _ _ HI). auto.
    + intros r Hr. rewrite length_alter. by apply (inv_inflight_lt _ _ HI).
    + intros r Hr. apply (inv_queue_inflight _ _ HI). auto.
    + apply (inv_running_keys _ _ HI).
    + intros k it Hin. destruct (inv_running_entry _ _ HI _ _ Hin) as [Hk Hfl].
      split; [|done]. rewrite Hk. symmetry.
      apply (id_of_set_status (job item) Cancelled (set_queue (l1 ++ l2) s)).
    + intros r Hr. rewrite list_lookup_alter_ne.
      * apply (inv_queue_unsettled _ _ HI). auto.
      * intros <-. by apply Hfresh.
  - destruct (JsMap.get jobId (running s)) as [item|] eqn:G; simpl; [|done].
    split; simpl.
    + apply (inv_max _ _ HI).
    + apply (inv_bound _ _ HI).
    + rewrite length_alter. apply (inv_len _ _ HI).
    + apply (inv_queue_nodup _ _ HI).
    + intros r Hr. rewrite length_alter. by apply (inv_queue_lt _ _ HI).
    + intros r Hr. rewrite length_alter. by apply (inv_inflight_lt _ _ HI).
    + apply (inv_queue_inflight _ _ HI).
    + apply (inv_running_keys _ _ HI).
    + intros k it Hin. destruct (inv_running_entry _ _ HI _ _ Hin) as [Hk Hfl].
      split; [|done]. rewrite Hk. symmetry.
      apply (id_of_set_status (job item) Cancelled s).
    + apply (inv_queue_unsettled _ _ HI).
Qed.

(** The ids of the jobs ever enqueued, in enqueue order. *)
Definition ids (s : State) : list string := job_id <$> allJobs s.

Lemma fmap_id_alter (f : Job → Job) (i : nat) (l : list Job) :
  (∀ j, job_id (f j) = job_id j) → job_id <$> alter f i l = job_id <$> l.
Proof.
  intros Hf. apply list_eq. intros n. rewrite !list_lookup_fmap.
  destruct (decide (i = n)) as [->|Hne].
  - rewrite list_lookup_alter_eq. destruct (l !! n); simpl; [|done]. by rewrite Hf.
  - by rewrite list_lookup_alter_ne.
Qed.

Lemma id_of_ids s s' r : ids s' = ids s → id_of s' r = id_of s r.
Proof.
  unfold ids, id_of. intros H.
  assert (E : (job_id <$> allJobs s') !! r = (job_id <$> allJobs s) !! r) by by rewrite H.
  rewrite !list_lookup_fmap in E.
  destruct (allJobs s' !! r), (allJobs s !! r); simpl in *; congruence.
Qed.

Lemma ids_length s s' : ids s' = ids s → length (allJobs s') = length (allJobs s).
Proof.
  unfold ids. intros H.
  rewrite <- (length_fmap job_id (allJobs s')), H. apply length_fmap.
Qed.

Lemma settled_inv N s item l1 l2 jobs' proms' ev :
  Inv N s → inflight s = l1 ++ item :: l2 →
  job_id <$> jobs' = job_id <$> allJobs s →
  length proms' = length (promises s) →
  (∀ r, r ≠ job item → proms' !! r = promises s !! r) →
  Inv N (mkState (queue s) (JsMap.delete (id_of s (job item)) (running s)) jobs'
           (maxParallel s) (paused s) proms' (l1 ++ l2) ev).
Proof.
  intros HI Hfl Hids Hlp Hpr.
  set (s' := mkState _ _ _ _ _ _ _ _).
  assert (Hids' : ids s' = ids s) by exact Hids.
  assert (Hlen : length jobs' = length (allJobs s)) by apply (ids_length s s' Hids').
  assert (Hsub : ∀ r, r ∈ job <$> (l1 ++ l2) → r ∈ inflight_refs s).
  { intros r Hr. unfold inflight_refs. rewrite Hfl, fmap_app, fmap_cons.
    rewrite fmap_app in Hr. apply elem_of_app in Hr as [?|?];
      apply elem_of_app; [by left|right; by right]. }
  assert (Hitem : job item ∈ inflight_refs s).
  { unfold inflight_refs. rewrite Hfl, fmap_app, fmap_cons.
    apply elem_of_app. right. left. }
  assert (Hrun : ∀ k it, (k, it) ∈ running s' → (k, it) ∈ running s ∧ job it ≠ job item).
  { intros k it [Hin Hk]%JsMap.elem_of_delete. split; [done|].
    destruct (inv_running_entry _ _ HI _ _ Hin) as [Hkey _].
    simpl in Hk. intros Heq. apply Hk. by rewrite Hkey, Heq. }
  split; simpl.
  - apply (inv_max _ _ HI).
  - pose proof (JsMap.size_delete (id_of s (job item)) (running s)).
    pose proof (inv_bound _ _ HI). lia.
  - rewrite Hlp, Hlen. apply (inv_len _ _ HI).
  - apply (inv_queue_nodup _ _ HI).
  - intros r Hr. rewrite Hlen. by apply (inv_queue_lt _ _ HI).
  - intros r Hr. rewrite Hlen. apply (inv_inflight_lt _ _ HI). auto.
  - intros r Hr Hin. apply (inv_queue_inflight _ _ HI r Hr). auto.
  - apply JsMap.NoDup_keys_delete, (inv_running_keys _ _ HI).
  - intros k it Hin. destruct (Hrun _ _ Hin) as [Hin' Hne].
    destruct (inv_running_entry _ _ HI _ _ Hin') as [Hk Hin2]. split.
    + rewrite Hk. symmetry. by apply id_of_ids.
    + unfold inflight_refs in *. simpl. rewrite Hfl in Hin2.
      rewrite fmap_app, fmap_cons in Hin2. rewrite fmap_app.
      apply elem_of_app in Hin2 as [?|[?|?]%elem_of_cons];
        [apply elem_of_app; by left|done|apply elem_of_app; by right].
  - intros r Hr. rewrite Hpr.
    + by apply (inv_queue_unsettled _ _ HI).
    + intros ->. by apply (inv_queue_inflight _ _ HI _ Hr).
Qed.

Lemma on_settled_inv N s item l1 l2 o :
  Inv N s → inflight s = l1 ++ item :: l2 →
  Inv N (on_settled item o (set_inflight (l1 ++ l2) s)).
Proof.
  intros HI Hfl. unfold on_settled, finally_delete, then_catch. destruct o as [v|msg].
  - match goal with |- Inv _ (set_running (JsMap.delete (id_of ?s1 _) _) _) =>
      rewrite (id_of_ids s s1 (job item)) end.
    + apply (settled_inv N s item l1 l2 _ _ _ HI Hfl); simpl.
      * by rewrite !fmap_id_alter.
      * by rewrite length_alter.
      * intros r Hr. by rewrite list_lookup_alter_ne.
    + unfold ids. simpl. by rewrite !fmap_id_alter.
  - match goal with |- Inv _ (set_running (JsMap.delete (id_of ?s1 _) _) _) =>
      rewrite (id_of_ids s s1 (job item)) end.
    + apply (settled_inv N s item l1 l2 _ _ _ HI Hfl); simpl.
      * by rewrite !fmap_id_alter.
      * by rewrite length_alter.
      * intros r Hr. by rewrite list_lookup_alter_ne.
    + unfold ids. simpl. by rewrite !fmap_id_alter.
Qed.

Lemma settle_inv N s ref o : Inv N s → Inv N (settle ref o s).
Proof.
  intros HI. unfold settle.
  destruct (take_inflight ref (inflight s)) as [[item rest]|] eqn:E; [|done].
  apply take_inflight_Some in E as (Hid & l1 & l2 & Hfl & ->).
  apply drain_inv. by apply on_settled_inv.
Qed.

(** [frame s s']: only the job objects and the promises may differ. *)
Definition frame (s s' : State) : Prop :=
  queue s' = queue s ∧ running s' = running s ∧ inflight s' = inflight s ∧
  maxParallel s' = maxParallel s ∧ paused s' = paused s ∧
  length (promises s') = length (promises s) ∧ ids s' = ids s.

Lemma frame_refl s : frame s s.
Proof. by repeat split. Qed.

Lemma frame_trans s1 s2 s3 : frame s1 s2 → frame s2 s3 → frame s1 s3.
Proof.
  intros (?&?&?&?&?&?&?) (?&?&?&?&?&?&?). repeat split; congruence.
Qed.

Lemma cancel_entry_frame s k item : frame s (cancel_entry s k item).
Proof.
  repeat split; simpl; try done.
  - by rewrite length_alter.
  - unfold ids. simpl. by rewrite fmap_id_alter.
Qed.

Lemma foldl_frame {A} (f : State → A → State) (l : list A) (s : State) :
  (∀ acc x, frame acc (f acc x)) → frame s (foldl f s l).
Proof.
  intros Hf. revert s. induction l as [|x l IH]; intros s; simpl.
  - apply frame_refl.
  - eapply frame_trans; [apply Hf|apply IH].
Qed.

Lemma cancelAll_shape s :
  queue (cancelAll s) = [] ∧ running (cancelAll s) = [] ∧
  inflight (cancelAll s) = inflight s ∧
  maxParallel (cancelAll s) = maxParallel s ∧ paused (cancelAll s) = paused s ∧
  length (promises (cancelAll s)) = length (promises s) ∧
  ids (cancelAll s) = ids s.
Proof.
  unfold cancelAll.
  set (s1 := foldl _ s (queue s)).
  assert (F1 : frame s s1).
  { apply foldl_frame. intros. apply cancel_entry_frame. }
  set (s3 := foldl _ (set_queue [] s1) _).
  assert (F3 : frame (set_queue [] s1) s3).
  { apply foldl_frame. intros. apply cancel_entry_frame. }
  destruct F1 as (?&?&?&?&?&?&?), F3 as (?&?&?&?&?&?&?).
  simpl in *. repeat split; try congruence.
  unfold ids in *. simpl in *. congruence.
Qed.

Lemma cancelAll_inv N s : Inv N s → Inv N (cancelAll s).
Proof.
  intros HI. destruct (cancelAll_shape s) as (Hq & Hr & Hfl & Hm & Hp & Hlp & Hids).
  pose proof (ids_length _ _ Hids) as Hlen.
  split.
  - rewrite Hm. apply (inv_max _ _ HI).
  - rewrite Hr. pose proof (inv_bound _ _ HI). simpl. lia.
  - rewrite Hlp, Hlen. apply (inv_len _ _ HI).
  - unfold queue_refs. rewrite Hq. apply NoDup_nil_2.
  - unfold queue_refs. rewrite Hq. by intros r ?%elem_of_nil.
  - unfold inflight_refs. rewrite Hfl, Hlen. apply (inv_inflight_lt _ _ HI).
  - unfold queue_refs. rewrite Hq. by intros r ?%elem_of_nil.
  - rewrite Hr. apply NoDup_nil_2.
  - rewrite Hr. by intros k item ?%elem_of_nil.
  - unfold queue_refs. rewrite Hq. by intros r ?%elem_of_nil.
Qed.

Lemma handlers_inv N s ref o : Inv N s → Inv N (handlers ref o s).
Proof.
  intros HI. unfold handlers.
  destruct (take_inflight ref (inflight s)) as [[item rest]|] eqn:E; [|done].
  apply take_inflight_Some in E as (Hid & l1 & l2 & Hfl & ->).
  by apply on_settled_inv.
Qed.

Lemma exec_inv N s op : Inv N s → Inv N (exec s op).
Proof.
  intros HI. destruct op; simpl.
  - by apply enqueue_inv.
  - by apply pause_inv.
  - by apply resume_inv.
  - by apply cancel_inv.
  - by apply cancelAll_inv.
  - by apply settle_inv.
  - by apply push_job_inv.
  - by apply start_next_inv.
  - destruct HI. by split.
  - by apply handlers_inv.
Qed.

Lemma run_inv N ops s : Inv N s → Inv N (run ops s).
Proof.
  revert s. induction ops as [|op ops IH]; intros s HI; simpl; [done|].
  apply IH. by apply exec_inv.
Qed.

(** The uuids drawn by the [enqueue] calls of a trace. *)
Definition uuid_of (op : Op) : list string :=
  match op with
  | OpEnqueue u _ _ _ _ | OpPush u _ _ _ _ => [u]
  | _ => []
  end.

Definition uuids (ops : list Op) : list string := ops ≫= uuid_of.

Lemma ids_loop_body s : ids (loop_body s) = ids s.
Proof.
  unfold loop_body. destruct (queue s); [done|].
  unfold ids. simpl. by rewrite fmap_id_alter.
Qed.

Lemma ids_drain s : ids (drain s) = ids s.
Proof.
  unfold drain. destruct (paused s); [done|].
  generalize (length (queue s)) as fuel. intros fuel. revert s.
  induction fuel as [|fuel IH]; intros s; simpl; [done|].
  destruct (loop_condition s); [|done]. by rewrite IH, ids_loop_body.
Qed.

Lemma ids_handlers ref o s : ids (handlers ref o s) = ids s.
Proof.
  unfold handlers. destruct (take_inflight _ _) as [[item rest]|]; [|done].
  unfold ids. destruct o; simpl; by rewrite !fmap_id_alter.
Qed.

Lemma ids_exec s op : ids (exec s op) = ids s ++ uuid_of op.
Proof.
  destruct op; simpl; rewrite ?app_nil_r.
  - rewrite ids_drain. unfold ids. simpl. by rewrite fmap_app.
  - done.
  - unfold resume. by rewrite ids_drain.
  - unfold cancel. destruct (find_pending _ _ _) as [[item rest]|]; simpl.
    + unfold ids. simpl. by rewrite fmap_id_alter.
    + destruct (JsMap.get _ _); simpl; [|done].
      unfold ids. simpl. by rewrite fmap_id_alter.
  - apply cancelAll_shape.
  - unfold settle. destruct (take_inflight _ _) as [[item rest]|] eqn:E; [|done].
    rewrite ids_drain. pose proof (ids_handlers ref o s) as H.
    unfold handlers in H. by rewrite E in H.
  - unfold ids. simpl. by rewrite fmap_app.
  - unfold start_next. destruct (loop_condition s); [|done]. apply ids_loop_body.
  - done.
  - apply ids_handlers.
Qed.

Lemma ids_run ops s : ids (run ops s) = ids s ++ uuids ops.
Proof.
  revert s. induction ops as [|op ops IH]; intros s; simpl.
  - by rewrite app_nil_r.
  - rewrite IH, ids_exec, <- app_assoc. done.
Qed.

Lemma id_of_lookup s r : r < length (allJobs s) → ids s !! r = Some (id_of s r).
Proof.
  intros Hlt. unfold ids, id_of. rewrite list_lookup_fmap.
  by destruct (lookup_lt_is_Some_2 _ _ Hlt) as [j ->].
Qed.

(** C1. For every concurrency bound [N ≥ 1] and every sequence of
    enqueue / pause / resume / cancel / cancelAll calls and body
    settlements (and of the pieces of such calls, when job bodies call
    the scheduler from inside a [drain] loop), the running map never
    holds more than [N] entries (its
    keys are distinct, so its length is its size), and no job is both in
    the pending queue and in the running map. When the uuids drawn by
    [enqueue] are distinct, no job id is both the id of a pending entry
    and a key of the running map. *)
Theorem running_set_bounded (N : Z) (ops : list Op) :
  (1 ≤ N)%Z →
  let s := run ops (init N) in
  (Z.of_nat (activeCount s) ≤ N)%Z ∧
  NoDup (JsMap.keys (running s)) ∧
  (∀ ref, ref ∈ queue_refs s → ref ∉ running_refs s) ∧
  (NoDup (uuids ops) →
   ∀ jobId, jobId ∈ (id_of s <$> queue_refs s) → jobId ∉ JsMap.keys (running s)).
Proof.
  intros HN s.
  assert (HI : Inv N s) by (apply run_inv, init_inv; lia).
  split; [apply (inv_bound _ _ HI)|]. split; [apply (inv_running_keys _ _ HI)|].
  split; [intros ref Hq Hr; by apply (running_not_queued _ _ _ HI Hr)|].
  intros Hnd jobId (rq & -> & Hq)%list_elem_of_fmap Hk.
  apply list_elem_of_fmap in Hk as ([k item] & Hk & Hin). simpl in Hk. subst k.
  destruct (inv_running_entry _ _ HI _ _ Hin) as [Hkey Hfl].
  assert (Heq : rq = job item).
  { assert (Hids : NoDup (ids s)) by (unfold s; by rewrite ids_run).
    apply (NoDup_lookup _ _ _ (id_of s rq) Hids).
    - apply id_of_lookup. by apply (inv_queue_lt _ _ HI).
    - rewrite Hkey. apply id_of_lookup. by apply (inv_inflight_lt _ _ HI). }
  subst rq. by apply (inv_queue_inflight _ _ HI (job item)).
Qed.

Lemma cancel_unknown_is_noop_witness :
  cancel "a" (run [OpEnqueue "a" "A" "t" "d" None; OpSettle 0 (Returned "r")] (init 1))
  = (false, run [OpEnqueue "a" "A" "t" "d" None; OpSettle 0 (Returned "r")] (init 1)).
Proof.
  apply cancel_unknown_is_noop.
  - vm_compute. by intros ?%elem_of_nil.
  - vm_compute. by intros ?%elem_of_nil.
Defined.

Definition burst : list Op :=
  [OpEnqueue "a" "A" "t" "d" None; OpEnqueue "b" "B" "t" "d" None;
   OpEnqueue "c" "C" "t" "d" None; OpSettle 0 (Returned "r"); OpCancel "c"].

Lemma running_set_bounded_witness :
  (1 ≤ 2)%Z ∧
  (Z.of_nat (activeCount (run burst (init 2))) ≤ 2)%Z ∧
  NoDup (JsMap.keys (running (run burst (init 2)))).
Proof.
  split; [lia|].
  destruct (running_set_bounded 2 burst) as (H1 & H2 & _); [lia|]. by split.
Defined.

(** *** What [cancelAll] does to each job *)

Definition cancel_pairs (s : State) (l : list (string * QueuedJob)) : State :=
  foldl (fun acc e => cancel_entry acc e.1 e.2) s l.

Lemma first_loop_pairs s q :
  foldl (fun acc item => cancel_entry acc (id_of acc (job item)) item) s q
  = cancel_pairs s ((fun item => (id_of s (job item), item)) <$> q).
Proof.
  unfold cancel_pairs. revert s. induction q as [|x q IH]; intros s; csimpl; [done|].
  rewrite IH. f_equal. apply list_fmap_ext. intros i item _. f_equal.
  apply id_of_ids. apply (cancel_entry_frame s (id_of s (job x)) x).
Qed.

Lemma status_cancel_entry_eq s k item :
  job item < length (allJobs s) →
  status_of (cancel_entry s k item) (job item) = Some Cancelled.
Proof.
  intros Hlt. unfold status_of. simpl. rewrite list_lookup_alter_eq.
  destruct (lookup_lt_is_Some_2 _ _ Hlt) as [j ->]. done.
Qed.

Lemma status_cancel_entry_keep s k item r :
  status_of s r = Some Cancelled → status_of (cancel_entry s k item) r = Some Cancelled.
Proof.
  unfold status_of. simpl. intros H.
  destruct (decide (job item = r)) as [->|Hne].
  - rewrite list_lookup_alter_eq. destruct (allJobs s !! r); [done|done].
  - by rewrite list_lookup_alter_ne.
Qed.

Lemma cancel_pairs_status_keep s l r :
  status_of s r = Some Cancelled → status_of (cancel_pairs s l) r = Some Cancelled.
Proof.
  unfold cancel_pairs. revert s. induction l as [|e l IH]; intros s H; simpl; [done|].
  apply IH. by apply status_cancel_entry_keep.
Qed.

Lemma cancel_pairs_status s l r :
  r ∈ (job <$> l.*2) → r < length (allJobs s) →
  status_of (cancel_pairs s l) r = Some Cancelled.
Proof.
  revert s. induction l as [|e l IH]; intros s; csimpl.
  - by intros ?%elem_of_nil.
  - intros [->|Hin]%elem_of_cons Hlt.
    + apply (cancel_pairs_status_keep _ l). by apply status_cancel_entry_eq.
    + apply IH; [done|].
      by rewrite (ids_length _ _ (proj2 (proj2 (proj2 (proj2 (proj2 (proj2
                   (cancel_entry_frame s e.1 e.2)))))))).
Qed.

Lemma alter_settled (l : list Settlement) (r i : nat) (o p : Settlement) :
  l !! r = Some p → p ≠ Unsettled → alter (settle_with o) i l !! r = Some p.
Proof.
  intros H Hp. destruct (decide (i = r)) as [->|Hne].
  - rewrite list_lookup_alter_eq, H. by destruct p.
  - by rewrite list_lookup_alter_ne.
Qed.

Lemma cancel_pairs_settled s l r p :
  promises s !! r = Some p → p ≠ Unsettled → promises (cancel_pairs s l) !! r = Some p.
Proof.
  unfold cancel_pairs. revert s. induction l as [|e l IH]; intros s H Hp; simpl; [done|].
  apply IH; [|done]. simpl. by apply alter_settled.
Qed.

Lemma cancel_pairs_promise s0 s l r :
  (∀ e, e ∈ l → e.1 = id_of s0 (job e.2)) →
  promises s !! r = Some Unsettled
    ∨ promises s !! r = Some (Rejected (cancel_message (id_of s0 r))) →
  (promises (cancel_pairs s l) !! r = Some Unsettled
    ∨ promises (cancel_pairs s l) !! r = Some (Rejected (cancel_message (id_of s0 r))))
  ∧ (r ∈ (job <$> l.*2) →
     promises (cancel_pairs s l) !! r = Some (Rejected (cancel_message (id_of s0 r)))).
Proof.
  revert s. induction l as [|e l IH]; intros s Hkeys Hs; csimpl.
  - split; [done|]. by intros ?%elem_of_nil.
  - assert (Hstep : promises (cancel_entry s e.1 e.2) !! r = Some Unsettled
      ∨ promises (cancel_entry s e.1 e.2) !! r
        = Some (Rejected (cancel_message (id_of s0 r)))).
    { simpl. destruct (decide (job e.2 = r)) as [Heq|Hne].
      - right. rewrite Heq, list_lookup_alter_eq.
        rewrite (Hkeys e) by left. rewrite Heq.
        destruct Hs as [-> | ->]; done.
      - by rewrite list_lookup_alter_ne. }
    assert (Hkeys' : ∀ e', e' ∈ l → e'.1 = id_of s0 (job e'.2)).
    { intros e' He'. apply Hkeys. by right. }
    destruct (IH _ Hkeys' Hstep) as [IH1 IH2]. split; [exact IH1|].
    intros [Heq|Hin]%elem_of_cons; [|by apply IH2].
    apply cancel_pairs_settled; [|done].
    simpl. rewrite (Hkeys e) by left. rewrite <- Heq, list_lookup_alter_eq.
    destruct Hs as [-> | ->]; done.
Qed.

(** *** A settled promise stays as it is *)

Lemma promises_loop_body s : promises (loop_body s) = promises s.
Proof. unfold loop_body. by destruct (queue s). Qed.

Lemma promises_drain s : promises (drain s) = promises s.
Proof.
  unfold drain. destruct (paused s); [done|].
  generalize (length (queue s)) as fuel. intros fuel. revert s.
  induction fuel as [|fuel IH]; intros s; simpl; [done|].
  destruct (loop_condition s); [|done]. by rewrite IH, promises_loop_body.
Qed.

Lemma cancelAll_settled s r p :
  promises s !! r = Some p → p ≠ Unsettled → promises (cancelAll s) !! r = Some p.
Proof.
  intros H Hp. unfold cancelAll. rewrite first_loop_pairs. simpl.
  apply (cancel_pairs_settled (set_queue [] _)); [|done]. simpl.
  by apply cancel_pairs_settled.
Qed.

Lemma settled_stable_handlers s ref o r p :
  promises s !! r = Some p → p ≠ Unsettled →
  promises (handlers ref o s) !! r = Some p.
Proof.
  intros H Hp. unfold handlers.
  destruct (take_inflight _ _) as [[item rest]|]; [|done].
  destruct o; simpl; by apply alter_settled.
Qed.

Lemma settled_stable_exec s op r p :
  promises s !! r = Some p → p ≠ Unsettled → promises (exec s op) !! r = Some p.
Proof.
  intros H Hp. destruct op; simpl.
  - rewrite promises_drain. simpl.
    rewrite lookup_app_l; [done|]. by apply lookup_lt_Some in H.
  - done.
  - unfold resume. by rewrite promises_drain.
  - unfold cancel. destruct (find_pending _ _ _) as [[item rest]|]; simpl.
    + by apply alter_settled.
    + by destruct (JsMap.get _ _).
  - by apply cancelAll_settled.
  - pose proof (settled_stable_handlers s ref o r p H Hp) as Hh.
    unfold settle. unfold handlers in Hh.
    destruct (take_inflight _ _) as [[item rest]|]; [|done].
    by rewrite promises_drain.
  - simpl. rewrite lookup_app_l; [done|]. by apply lookup_lt_Some in H.
  - unfold start_next. destruct (loop_condition s); [|done].
    by rewrite promises_loop_body.
  - done.
  - by apply settled_stable_handlers.
Qed.

Lemma settled_stable_run ops s r p :
  promises s !! r = Some p → p ≠ Unsettled → promises (run ops s) !! r = Some p.
Proof.
  revert s. induction ops as [|op ops IH]; intros s H Hp; simpl; [done|].
  apply IH; [|done]. by apply settled_stable_exec.
Qed.

Definition two_jobs : list Op :=
  [OpEnqueue "a" "A" "t" "d" None; OpEnqueue "b" "B" "t" "d" None].

(** C2 as the spec has it fails: with bound 1, job [a] is running and job
    [b] pending; [cancelAll] itself rejects the promise of the running job
    [a], and the later return of the body of [a] does not fulfil it. *)
Lemma cancelAll_rejects_running_future :
  running_refs (run two_jobs (init 1)) = [0] ∧
  queue_refs (run two_jobs (init 1)) = [1] ∧
  promises (run two_jobs (init 1)) !! 0 = Some Unsettled ∧
  promises (cancelAll (run two_jobs (init 1))) !! 0
    = Some (Rejected "Job a cancelled") ∧
  promises (settle 0 (Returned "done") (cancelAll (run two_jobs (init 1)))) !! 0
    = Some (Rejected "Job a cancelled").
Proof. vm_compute. done. Qed.

(** *** Statuses of pending, in-flight and dormant jobs *)

Record Inv2 (s : State) : Prop := mkInv2 {
  inv_pending : ∀ r, r ∈ queue_refs s → status_of s r = Some Pending;
  inv_inflight_nodup : NoDup (inflight_refs s)
}.

Lemma status_alter_ne (f : Job → Job) (i r : nat) (l : list Job) :
  i ≠ r → job_status <$> alter f i l !! r = job_status <$> l !! r.
Proof. intros Hne. by rewrite list_lookup_alter_ne. Qed.

Lemma status_alter_keep (f : Job → Job) (i r : nat) (l : list Job) :
  (∀ j, job_status (f j) = job_status j) →
  job_status <$> alter f i l !! r = job_status <$> l !! r.
Proof.
  intros Hf. destruct (decide (i = r)) as [->|Hne].
  - rewrite list_lookup_alter_eq. destruct (l !! r); simpl; [|done]. by rewrite Hf.
  - by rewrite list_lookup_alter_ne.
Qed.

Lemma status_alter_eq (st : JobStatus) (r : nat) (l : list Job) :
  r < length l → job_status <$> alter (with_status st) r l !! r = Some st.
Proof.
  intros Hlt. rewrite list_lookup_alter_eq.
  by destruct (lookup_lt_is_Some_2 _ _ Hlt) as [j ->].
Qed.

Lemma init_inv2 N : Inv2 (init N).
Proof.
  split; simpl.
  - by intros r ?%elem_of_nil.
  - apply NoDup_nil_2.
Qed.

Lemma startJob_inv2 N s item rest :
  Inv N s → Inv2 s → queue s = item :: rest →
  Inv2 (startJob item (set_queue rest s)).
Proof.
  intros HI H2 Hq.
  assert (Hnd : NoDup (job item :: (job <$> rest))).
  { pose proof (inv_queue_nodup _ _ HI) as H. unfold queue_refs in H.
    by rewrite Hq in H. }
  apply NoDup_cons in Hnd as [Hhead Hnd].
  assert (Hitemq : job item ∈ queue_refs s).
  { unfold queue_refs. rewrite Hq. left. }
  assert (Hrefq : ∀ r, r ∈ job <$> rest → r ∈ queue_refs s).
  { intros r Hr. unfold queue_refs. rewrite Hq. by right. }
  split; unfold status_of, inflight_refs; simpl.
  - intros r Hr. rewrite status_alter_ne; [by apply (inv_pending _ H2); auto|].
    by intros <-.
  - rewrite fmap_app. apply NoDup_app. split; [apply (inv_inflight_nodup _ H2)|].
    split; [|apply NoDup_singleton].
    intros r Hr ->%list_elem_of_singleton.
    by apply (inv_queue_inflight _ _ HI (job item)).
Qed.

Lemma loop_body_inv2 N s : Inv N s → Inv2 s → Inv2 (loop_body s).
Proof.
  intros HI H2. unfold loop_body.
  destruct (queue s) as [|item rest] eqn:Hq; [done|]. by apply (startJob_inv2 N).
Qed.

Lemma drain_loop_inv2 N fuel s : Inv N s → Inv2 s → Inv2 (drain_loop fuel s).
Proof.
  revert s. induction fuel as [|fuel IH]; intros s HI H2; simpl; [done|].
  destruct (loop_condition s) eqn:E; [|done].
  apply IH; [by apply loop_body_inv|by apply (loop_body_inv2 N)].
Qed.

Lemma drain_inv2 N s : Inv N s → Inv2 s → Inv2 (drain s).
Proof.
  intros HI H2. unfold drain. destruct (paused s); [done|].
  by apply (drain_loop_inv2 N).
Qed.

Lemma push_job_inv2 N s uuid a t c corr :
  Inv N s → Inv2 s → Inv2 (push_job uuid a t c corr s).
Proof.
  intros HI H2. split; unfold status_of, queue_refs, inflight_refs; simpl.
  - intros r. rewrite fmap_app.
    intros [Hr| ->%list_elem_of_singleton]%elem_of_app.
    + rewrite lookup_app_l by by apply (inv_queue_lt _ _ HI).
      by apply (inv_pending _ H2).
    + simpl. by rewrite list_lookup_middle.
  - apply (inv_inflight_nodup _ H2).
Qed.

Lemma cancel_inv2 N s jobId : Inv N s → Inv2 s → Inv2 (cancel jobId s).2.
Proof.
  intros HI H2. unfold cancel.
  destruct (find_pending s jobId (queue s)) as [[item rest]|] eqn:E.
  - apply find_pending_Some in E as (Hid & l1 & l2 & Hq & ->). simpl.
    assert (Hnd : NoDup (queue_refs s)) by apply (inv_queue_nodup _ _ HI).
    unfold queue_refs in Hnd. rewrite Hq, fmap_app, fmap_cons in Hnd.
    apply NoDup_app in Hnd as (Hnd1 & Hdisj & [Hnot Hnd2]%NoDup_cons).
    assert (Hitem : job item ∈ queue_refs s).
    { unfold queue_refs. rewrite Hq, fmap_app, fmap_cons.
      apply elem_of_app. right. left. }
    assert (Hsub : ∀ r, r ∈ job <$> (l1 ++ l2) → r ∈ queue_refs s ∧ r ≠ job item).
    { intros r Hr. unfold queue_refs. rewrite Hq, fmap_app, fmap_cons.
      rewrite fmap_app in Hr. apply elem_of_app in Hr as [H1|H1].
      - split; [apply elem_of_app; by left|]. intros ->. apply (Hdisj _ H1). left.
      - split; [apply elem_of_app; right; by right|]. by intros ->. }
    split; unfold status_of, queue_refs, inflight_refs; simpl.
    + intros r Hr. destruct (Hsub r Hr) as [Hin Hne].
      rewrite status_alter_ne by done. by apply (inv_pending _ H2).
    + apply (inv_inflight_nodup _ H2).
  - destruct (JsMap.get jobId (running s)) as [item|] eqn:G; simpl; [|done].
    apply JsMap.get_elem_of in G.
    destruct (inv_running_entry _ _ HI _ _ G) as [_ Hfl].
    split; unfold status_of, queue_refs, inflight_refs; simpl.
    + intros r Hr. rewrite status_alter_ne; [by apply (inv_pending _ H2)|].
      intros <-. by apply (inv_queue_inflight _ _ HI (job item)).
    + apply (inv_inflight_nodup _ H2).
Qed.

Lemma on_settled_inv2 N s item l1 l2 o :
  Inv N s → Inv2 s → inflight s = l1 ++ item :: l2 →
  Inv2 (on_settled item o (set_inflight (l1 ++ l2) s)).
Proof.
  intros HI H2 Hfl.
  assert (Hnd : NoDup (inflight_refs s)) by apply (inv_inflight_nodup _ H2).
  unfold inflight_refs in Hnd. rewrite Hfl, fmap_app, fmap_cons in Hnd.
  apply NoDup_app in Hnd as (Hnd1 & Hdisj & [Hnot Hnd2]%NoDup_cons).
  assert (Hitem : job item ∈ inflight_refs s).
  { unfold inflight_refs. rewrite Hfl, fmap_app, fmap_cons.
    apply elem_of_app. right. left. }
  assert (Hsub : ∀ r, r ∈ job <$> (l1 ++ l2) → r ∈ inflight_refs s ∧ r ≠ job item).
  { intros r Hr. unfold inflight_refs. rewrite Hfl, fmap_app, fmap_cons.
    rewrite fmap_app in Hr. apply elem_of_app in Hr as [H1|H1].
    - split; [apply elem_of_app; by left|]. intros ->. apply (Hdisj _ H1). left.
    - split; [apply elem_of_app; right; by right|]. by intros ->. }
  assert (Hq : ∀ r, r ∈ queue_refs s → r ≠ job item).
  { intros r Hr ->. by apply (inv_queue_inflight _ _ HI (job item)). }
  split; unfold status_of, queue_refs, inflight_refs; destruct o; simpl.
  - intros r Hr. rewrite status_alter_keep by done.
    rewrite status_alter_ne by (intros Heq; by apply (Hq r)).
    by apply (inv_pending _ H2).
  - intros r Hr. rewrite status_alter_keep by done.
    rewrite status_alter_ne by (intros Heq; by apply (Hq r)).
    by apply (inv_pending _ H2).
  - rewrite fmap_app. apply NoDup_app. split; [done|]. split; [|done].
    intros r H1 Hr2. apply (Hdisj _ H1). by right.
  - rewrite fmap_app. apply NoDup_app. split; [done|]. split; [|done].
    intros r H1 Hr2. apply (Hdisj _ H1). by right.
Qed.

Lemma cancelAll_pairs s :
  cancelAll s
  = set_running JsMap.empty
      (cancel_pairs
         (set_queue [] (cancel_pairs s ((fun item => (id_of s (job item), item)) <$> queue s)))
         (running s)).
Proof.
  unfold cancelAll. rewrite first_loop_pairs. cbv zeta.
  set (lq := (fun item => (id_of s (job item), item)) <$> queue s).
  assert (F1 : frame s (cancel_pairs s lq)).
  { apply foldl_frame. intros. apply cancel_entry_frame. }
  destruct F1 as (_ & Hrun1 & _).
  change (running (set_queue [] (cancel_pairs s lq)))
    with (running (cancel_pairs s lq)).
  by rewrite Hrun1.
Qed.

Lemma cancel_pairs_status_cases s l r :
  status_of (cancel_pairs s l) r = Some Cancelled
  ∨ status_of (cancel_pairs s l) r = status_of s r.
Proof.
  unfold cancel_pairs. revert s. induction l as [|e l IH]; intros s; simpl; [by right|].
  destruct (IH (cancel_entry s e.1 e.2)) as [H|H]; [by left|]. rewrite H.
  unfold status_of. simpl. destruct (decide (job e.2 = r)) as [<-|Hne].
  - rewrite list_lookup_alter_eq. destruct (allJobs s !! job e.2); simpl; [by left|by right].
  - right. by rewrite list_lookup_alter_ne.
Qed.

Lemma cancel_pairs_status_other s l r :
  r ∉ (job <$> l.*2) → status_of (cancel_pairs s l) r = status_of s r.
Proof.
  unfold cancel_pairs. revert s. induction l as [|e l IH]; intros s Hn; csimpl; [done|].
  csimpl in Hn. apply not_elem_of_cons in Hn as [Hne Hn].
  rewrite IH by done. unfold status_of. simpl. by rewrite list_lookup_alter_ne.
Qed.

Lemma cancelAll_inv2 N s : Inv N s → Inv2 s → Inv2 (cancelAll s).
Proof.
  intros HI H2. destruct (cancelAll_shape s) as (Hq & Hr & Hfl & _).
  split.
  - unfold queue_refs. rewrite Hq. by intros r ?%elem_of_nil.
  - unfold inflight_refs. rewrite Hfl. apply (inv_inflight_nodup _ H2).
Qed.

Lemma handlers_inv2 N s ref o : Inv N s → Inv2 s → Inv2 (handlers ref o s).
Proof.
  intros HI H2. unfold handlers.
  destruct (take_inflight ref (inflight s)) as [[item rest]|] eqn:E; [|done].
  apply take_inflight_Some in E as (Hid & l1 & l2 & Hfl & ->).
  by apply (on_settled_inv2 N).
Qed.

Lemma exec_inv2 N s op : Inv N s → Inv2 s → Inv2 (exec s op).
Proof.
  intros HI H2. destruct op; simpl.
  - apply (drain_inv2 N); [by apply push_job_inv|by apply (push_job_inv2 N)].
  - destruct H2. by split.
  - apply (drain_inv2 N); destruct HI, H2; by split.
  - by apply (cancel_inv2 N).
  - by apply (cancelAll_inv2 N).
  - unfold settle.
    destruct (take_inflight ref (inflight s)) as [[item rest]|] eqn:E; [|done].
    apply take_inflight_Some in E as (Hid & l1 & l2 & Hfl & ->).
    apply (drain_inv2 N); [by apply on_settled_inv|by apply (on_settled_inv2 N)].
  - by apply (push_job_inv2 N).
  - unfold start_next. destruct (loop_condition s) eqn:E; [|done].
    by apply (loop_body_inv2 N).
  - destruct H2. by split.
  - by apply (handlers_inv2 N).
Qed.

Lemma run_inv2 N ops s : Inv N s → Inv2 s → Inv2 (run ops s).
Proof.
  revert s. induction ops as [|op ops IH]; intros s HI H2; simpl; [done|].
  apply IH; [by apply exec_inv|by apply (exec_inv2 N)].
Qed.

(** A job that is neither pending nor in flight: its handlers have all
    run, or it was cancelled before it started. *)
Definition dormant (s : State) (r : nat) : Prop :=
  r < length (allJobs s) ∧ (r ∉ queue_refs s) ∧ (r ∉ inflight_refs s).

Lemma loop_body_dormant s r :
  dormant s r → dormant (loop_body s) r ∧ status_of (loop_body s) r = status_of s r.
Proof.
  intros (Hlt & Hnq & Hnf). unfold loop_body.
  destruct (queue s) as [|item rest] eqn:Hq; [done|].
  unfold queue_refs in Hnq. rewrite Hq in Hnq. csimpl in Hnq.
  apply not_elem_of_cons in Hnq as [Hne Hnq].
  split; [split; [|split]|]; unfold status_of, queue_refs, inflight_refs; simpl.
  - by rewrite length_alter.
  - done.
  - rewrite fmap_app. intros [?| ->%list_elem_of_singleton]%elem_of_app; done.
  - by rewrite list_lookup_alter_ne.
Qed.

Lemma drain_loop_dormant fuel s r :
  dormant s r →
  dormant (drain_loop fuel s) r ∧ status_of (drain_loop fuel s) r = status_of s r.
Proof.
  revert s. induction fuel as [|fuel IH]; intros s Hd; simpl; [done|].
  destruct (loop_condition s); [|done].
  destruct (loop_body_dormant s r Hd) as [Hd1 Hst1].
  destruct (IH _ Hd1) as [Hd2 Hst2]. split; [done|]. by rewrite Hst2.
Qed.

Lemma drain_dormant s r :
  dormant s r → dormant (drain s) r ∧ status_of (drain s) r = status_of s r.
Proof.
  intros Hd. unfold drain. destruct (paused s); [done|]. by apply drain_loop_dormant.
Qed.

Lemma push_job_dormant uuid a t c corr s r :
  dormant s r →
  dormant (push_job uuid a t c corr s) r
  ∧ status_of (push_job uuid a t c corr s) r = status_of s r.
Proof.
  intros (Hlt & Hnq & Hnf).
  split; [split; [|split]|]; unfold status_of, queue_refs, inflight_refs; simpl.
  - rewrite length_app. simpl. lia.
  - rewrite fmap_app. intros [?|Heq%list_elem_of_singleton]%elem_of_app; [done|].
    simpl in Heq. lia.
  - done.
  - by rewrite lookup_app_l.
Qed.

Lemma handlers_dormant ref o s r :
  dormant s r →
  dormant (handlers ref o s) r ∧ status_of (handlers ref o s) r = status_of s r.
Proof.
  intros (Hlt & Hnq & Hnf). unfold handlers.
  destruct (take_inflight ref (inflight s)) as [[item rest]|] eqn:E; [|done].
  apply take_inflight_Some in E as (Hid & l1 & l2 & Hfl & ->).
  assert (Hne : job item ≠ r).
  { intros <-. apply Hnf. unfold inflight_refs. rewrite Hfl, fmap_app, fmap_cons.
    apply elem_of_app. right. left. }
  assert (Hsub : r ∉ job <$> (l1 ++ l2)).
  { intros Hin. apply Hnf. unfold inflight_refs. rewrite Hfl, fmap_app, fmap_cons.
    rewrite fmap_app in Hin. apply elem_of_app in Hin as [?|?];
      apply elem_of_app; [by left|right; by right]. }
  split; [split; [|split]|]; unfold status_of, queue_refs, inflight_refs;
    destruct o; simpl; rewrite ?length_alter; try done;
    by rewrite !list_lookup_alter_ne.
Qed.

Lemma exec_dormant N s op r :
  Inv N s → dormant s r →
  dormant (exec s op) r ∧ status_of (exec s op) r = status_of s r.
Proof.
  intros HI Hd. pose proof Hd as (Hlt & Hnq & Hnf). destruct op; simpl.
  - destruct (push_job_dormant uuid agentName task createdAt corr s r Hd) as [Hd1 Hst1].
    destruct (drain_dormant _ r Hd1) as [Hd2 Hst2]. split; [done|]. by rewrite Hst2.
  - done.
  - apply (drain_dormant (set_paused false s)). by split.
  - unfold cancel.
    destruct (find_pending s jobId (queue s)) as [[item rest]|] eqn:E.
    + apply find_pending_Some in E as (Hid & l1 & l2 & Hq & ->). simpl.
      assert (Hne : job item ≠ r).
      { intros <-. apply Hnq. unfold queue_refs. rewrite Hq, fmap_app, fmap_cons.
        apply elem_of_app. right. left. }
      split; [split; [|split]|]; unfold status_of, queue_refs, inflight_refs; simpl.
      * by rewrite length_alter.
      * intros Hin. apply Hnq. unfold queue_refs. rewrite Hq, fmap_app, fmap_cons.
        rewrite fmap_app in Hin. apply elem_of_app in Hin as [?|?];
          apply elem_of_app; [by left|right; by right].
      * done.
      * by rewrite list_lookup_alter_ne.
    + destruct (JsMap.get jobId (running s)) as [item|] eqn:G; simpl; [|done].
      apply JsMap.get_elem_of in G.
      destruct (inv_running_entry _ _ HI _ _ G) as [_ Hfl].
      assert (Hne : job item ≠ r) by (by intros <-).
      split; [split; [|split]|]; unfold status_of, queue_refs, inflight_refs; simpl.
      * by rewrite length_alter.
      * done.
      * done.
      * by rewrite list_lookup_alter_ne.
  - destruct (cancelAll_shape s) as (Hq & Hr & Hfl & _ & _ & _ & Hids).
    split; [split; [|split]|].
    + by rewrite (ids_length _ _ Hids).
    + unfold queue_refs. rewrite Hq. by intros ?%elem_of_nil.
    + unfold inflight_refs. by rewrite Hfl.
    + rewrite cancelAll_pairs.
      change (status_of (set_running JsMap.empty ?x) r) with (status_of x r).
      rewrite cancel_pairs_status_other.
      * change (status_of (set_queue [] ?x) r) with (status_of x r).
        apply cancel_pairs_status_other. rewrite <- !list_fmap_compose.
        intros Hin. apply Hnq. unfold queue_refs.
        apply list_elem_of_fmap in Hin as (item & -> & Hin).
        apply list_elem_of_fmap. by exists item.
      * intros Hin. apply Hnf.
        assert (Hrun : r ∈ running_refs s) by exact Hin.
        apply elem_of_running_refs in Hrun as (k & item & Hin' & <-).
        by destruct (inv_running_entry _ _ HI _ _ Hin').
  - pose proof (handlers_dormant ref o s r Hd) as [Hd1 Hst1].
    unfold settle. unfold handlers in Hd1, Hst1.
    destruct (take_inflight ref (inflight s)) as [[item rest]|]; [|done].
    destruct (drain_dormant _ r Hd1) as [Hd2 Hst2]. split; [done|]. by rewrite Hst2.
  - by apply push_job_dormant.
  - unfold start_next. destruct (loop_condition s); [|done]. by apply loop_body_dormant.
  - done.
  - by apply handlers_dormant.
Qed.

Lemma run_dormant N ops s r :
  Inv N s → dormant s r → status_of (run ops s) r = status_of s r.
Proof.
  revert s. induction ops as [|op ops IH]; intros s HI Hd; simpl; [done|].
  destruct (exec_dormant N s op r HI Hd) as [Hd' Hst].
  rewrite IH; [done|by apply exec_inv|done].
Qed.

(** C3 as the spec has it fails: a job cancelled while running is marked
    [Cancelled], and the [then] handler of [startJob] overwrites that
    terminal status with [Completed] when the body returns (the [catch]
    handler overwrites it with [Failed] when the body throws). *)
Lemma cancelled_status_overwritten :
  let s := run [OpEnqueue "a" "A" "t" "d" None; OpCancel "a"] (init 1) in
  status_of s 0 = Some Cancelled ∧
  status_of (run [OpSettle 0 (Returned "done")] s) 0 = Some Completed ∧
  status_of (run [OpSettle 0 (Threw "boom")] s) 0 = Some Failed.
Proof. vm_compute. done. Qed.

(** *** Order of admission *)

Definition fifo (s : State) : Prop := StronglySorted lt (queue_refs s).

Lemma on_settled_queue item o s0 : queue (on_settled item o s0) = queue s0.
Proof. by destruct o. Qed.

Lemma loop_body_fifo s : fifo s → fifo (loop_body s).
Proof.
  intros H. unfold loop_body. destruct (queue s) as [|item rest] eqn:Hq; [done|].
  unfold fifo, queue_refs in *. rewrite Hq in H. csimpl in H. simpl.
  by apply StronglySorted_inv in H as [H _].
Qed.

Lemma drain_fifo s : fifo s → fifo (drain s).
Proof.
  unfold drain. destruct (paused s); [done|].
  generalize (length (queue s)) as fuel. intros fuel. revert s.
  induction fuel as [|fuel IH]; intros s H; simpl; [done|].
  destruct (loop_condition s); [|done]. by apply IH, loop_body_fifo.
Qed.

Lemma push_job_fifo N s uuid a t c corr :
  Inv N s → fifo s → fifo (push_job uuid a t c corr s).
Proof.
  intros HI H. unfold fifo, queue_refs. simpl. rewrite fmap_app.
  apply StronglySorted_app_2; [|exact H|].
  - intros x1 x2 H1 ->%list_elem_of_singleton. simpl.
    by apply (inv_queue_lt _ _ HI).
  - apply SSorted_cons; [apply SSorted_nil|apply Forall_nil_2].
Qed.

Lemma handlers_queue ref o s : queue (handlers ref o s) = queue s.
Proof.
  unfold handlers. destruct (take_inflight _ _) as [[item rest]|]; [|done].
  by rewrite on_settled_queue.
Qed.

Lemma exec_fifo N s op : Inv N s → fifo s → fifo (exec s op).
Proof.
  intros HI H. destruct op; simpl.
  - apply drain_fifo. by apply (push_job_fifo N).
  - done.
  - by apply drain_fifo.
  - unfold cancel. destruct (find_pending s jobId (queue s)) as [[item rest]|] eqn:E.
    + apply find_pending_Some in E as (_ & l1 & l2 & Hq & ->).
      unfold fifo, queue_refs in *. simpl. rewrite Hq in H.
      rewrite fmap_app, fmap_cons in H. rewrite fmap_app.
      apply StronglySorted_app in H as (H3 & H1 & [H2 _]%StronglySorted_inv).
      apply StronglySorted_app_2; [|done|done].
      intros x1 x2 Hx1 Hx2. apply H3; [done|]. by right.
    + by destruct (JsMap.get jobId (running s)).
  - unfold fifo, queue_refs. destruct (cancelAll_shape s) as (-> & _).
    apply SSorted_nil.
  - unfold settle. destruct (take_inflight _ _) as [[item rest]|]; [|done].
    apply drain_fifo. unfold fifo, queue_refs. by rewrite on_settled_queue.
  - by apply (push_job_fifo N).
  - unfold start_next. destruct (loop_condition s); [|done]. by apply loop_body_fifo.
  - done.
  - unfold fifo, queue_refs. by rewrite handlers_queue.
Qed.

Lemma run_fifo N ops s : Inv N s → fifo s → fifo (run ops s).
Proof.
  revert s. induction ops as [|op ops IH]; intros s HI H; simpl; [done|].
  apply IH; [by apply exec_inv|by apply (exec_fifo N)].
Qed.

(** X1. Admission is first in, first out. In every state reached from the
    empty scheduler the pending queue lists the jobs in the order of their
    enqueue calls (their references, which are their positions in the log
    of all jobs, increase along the queue), and a turn of the [drain] loop
    whose condition holds starts the head of the queue: the job started is
    older than every job left pending. *)
Theorem admission_is_fifo (N : Z) (ops : list Op) :
  (1 ≤ N)%Z →
  let s := run ops (init N) in
  StronglySorted lt (queue_refs s) ∧
  (loop_condition s = true →
   ∃ item rest, queue s = item :: rest ∧
     queue (start_next s) = rest ∧
     inflight (start_next s) = inflight s ++ [item] ∧
     status_of (start_next s) (job item) = Some Running ∧
     ∀ r, r ∈ queue_refs (start_next s) → job item < r).
Proof.
  intros HN s.
  assert (HI : Inv N s) by (apply run_inv, init_inv; lia).
  assert (HF : fifo s).
  { apply (run_fifo N); [apply init_inv; lia|apply SSorted_nil]. }
  split; [exact HF|]. intros Hc. unfold start_next. rewrite Hc.
  unfold loop_body. destruct (queue s) as [|item rest] eqn:Hq.
  - unfold loop_condition in Hc. rewrite Hq in Hc. simpl in Hc.
    by rewrite andb_false_r in Hc.
  - exists item, rest. split; [done|]. split; [done|]. split; [done|].
    unfold fifo, queue_refs in HF. rewrite Hq in HF. csimpl in HF.
    apply StronglySorted_inv in HF as [_ HF]. split.
    + unfold status_of. simpl. apply status_alter_eq.
      apply (inv_queue_lt _ _ HI). unfold queue_refs. rewrite Hq. left.
    + intros r Hr. by apply (proj1 (Forall_forall _ _) HF).
Qed.

Lemma admission_is_fifo_witness :
  StronglySorted lt (queue_refs (run two_jobs (init 1))).
Proof. apply (admission_is_fifo 1 two_jobs). lia. Defined.

(** *** Pausing *)

(** The operations that can start a job while the scheduler is paused:
    [resume], its assignment, and a turn of a [drain] loop entered before
    the pause. *)
Definition may_start (op : Op) : bool :=
  match op with
  | OpResume | OpUnpause | OpStartNext => true
  | _ => false
  end.

Lemma drain_paused s : paused s = true → drain s = s.
Proof. intros H. unfold drain. by rewrite H. Qed.

Lemma exec_while_paused s op :
  paused s = true → may_start op = false →
  paused (exec s op) = true ∧
  (∀ r, r ∈ inflight_refs (exec s op) → r ∈ inflight_refs s) ∧
  (∀ e, e ∈ running (exec s op) → e ∈ running s).
Proof.
  intros Hp Hop. destruct op; try done; cbn [exec].
  - unfold enqueue. cbn [snd]. by rewrite drain_paused.
  - unfold cancel. destruct (find_pending s jobId (queue s)) as [[item rest]|]; [done|].
    by destruct (JsMap.get jobId (running s)).
  - destruct (cancelAll_shape s) as (_ & Hr & Hfl & _ & Hpa & _).
    unfold inflight_refs. rewrite Hr, Hfl, Hpa. split; [done|]. split; [done|].
    by intros e ?%elem_of_nil.
  - unfold settle. destruct (take_inflight ref (inflight s)) as [[item rest]|] eqn:E;
      [|done].
    apply take_inflight_Some in E as (_ & l1 & l2 & Hfl & ->).
    rewrite drain_paused by by destruct o.
    split; [by destruct o|]. split.
    + unfold inflight_refs. rewrite Hfl. intros r Hr.
      assert (Hr' : r ∈ job <$> (l1 ++ l2)) by by destruct o.
      rewrite fmap_app in Hr'. rewrite fmap_app, fmap_cons.
      apply elem_of_app in Hr' as [?|?]; apply elem_of_app; [by left|right; by right].
    + intros e He. unfold on_settled, finally_delete, then_catch in He.
      destruct o; simpl in He; by apply JsMap.elem_of_delete in He as [? _].
  - unfold handlers. destruct (take_inflight ref (inflight s)) as [[item rest]|] eqn:E;
      [|done].
    apply take_inflight_Some in E as (_ & l1 & l2 & Hfl & ->).
    split; [by destruct o|]. split.
    + unfold inflight_refs. rewrite Hfl. intros r Hr.
      assert (Hr' : r ∈ job <$> (l1 ++ l2)) by by destruct o.
      rewrite fmap_app in Hr'. rewrite fmap_app, fmap_cons.
      apply elem_of_app in Hr' as [?|?]; apply elem_of_app; [by left|right; by right].
    + intros e He. unfold on_settled, finally_delete, then_catch in He.
      destruct o; simpl in He; by apply JsMap.elem_of_delete in He as [? _].
Qed.

(** X2. While the scheduler is paused no job is started. From a paused
    state, any sequence of enqueue, pause, cancel and cancelAll calls and
    of body settlements leaves the scheduler paused, puts no new body in
    flight and adds no entry to the running map, however many jobs are
    enqueued and however many running jobs finish. *)
Theorem pause_stops_admission (s : State) (ops : list Op) :
  paused s = true →
  Forall (fun op => may_start op = false) ops →
  paused (run ops s) = true ∧
  (∀ r, r ∈ inflight_refs (run ops s) → r ∈ inflight_refs s) ∧
  (∀ e, e ∈ running (run ops s) → e ∈ running s).
Proof.
  intros Hp Hops. revert s Hp.
  induction Hops as [|op ops Hop Hops IH]; intros s Hp; simpl; [done|].
  destruct (exec_while_paused s op Hp Hop) as (Hp1 & Hf1 & Hr1).
  destruct (IH _ Hp1) as (Hp2 & Hf2 & Hr2). split; [done|]. split.
  - intros r Hr. by apply Hf1, Hf2.
  - intros e He. by apply Hr1, Hr2.
Qed.

Definition while_paused : list Op :=
  [OpEnqueue "b" "B" "t" "d" None; OpSettle 0 (Returned "r");
   OpEnqueue "c" "C" "t" "d" None].

Lemma pause_stops_admission_witness :
  paused (run while_paused (run [OpEnqueue "a" "A" "t" "d" None; OpPause] (init 1)))
  = true.
Proof.
  apply (pause_stops_admission
           (run [OpEnqueue "a" "A" "t" "d" None; OpPause] (init 1)) while_paused).
  - reflexivity.
  - repeat constructor.
Defined.

(** *** No idle slot *)

(** The calls of the scheduler's interface and the settlements, as opposed
    to the pieces of calls. *)
Definition whole_call (op : Op) : bool :=
  match op with
  | OpEnqueue _ _ _ _ _ | OpPause | OpResume | OpCancel _ | OpCancelAll
  | OpSettle _ _ => true
  | _ => false
  end.

Definition saturated (s : State) : Prop :=
  paused s = true ∨ loop_condition s = false.

Lemma drain_saturated s : saturated (drain s).
Proof.
  unfold saturated, drain. destruct (paused s) eqn:Hp; [by left|].
  right. by apply drain_loop_exit.
Qed.

Lemma exec_saturated s op :
  whole_call op = true → saturated s → saturated (exec s op).
Proof.
  intros Hop Hs. destruct op; try done; cbn [exec].
  - apply drain_saturated.
  - by left.
  - apply drain_saturated.
  - unfold cancel. destruct (find_pending s jobId (queue s)) as [[item rest]|] eqn:E.
    + apply find_pending_Some in E as (_ & l1 & l2 & Hq & ->).
      destruct Hs as [Hp|Hc]; [by left|]. right.
      unfold loop_condition in *. simpl. rewrite Hq in Hc.
      rewrite length_app in Hc. simpl in Hc.
      destruct (Z.of_nat (JsMap.size (running s)) <? maxParallel s)%Z; [|done].
      simpl in Hc. apply Nat.ltb_ge in Hc. lia.
    + by destruct (JsMap.get jobId (running s)).
  - right. unfold loop_condition.
    destruct (cancelAll_shape s) as (-> & _). simpl. apply andb_false_r.
  - unfold settle. destruct (take_inflight _ _) as [[item rest]|]; [|done].
    apply drain_saturated.
Qed.

Lemma run_saturated ops s :
  Forall (fun op => whole_call op = true) ops → saturated s → saturated (run ops s).
Proof.
  intros Hops. revert s.
  induction Hops as [|op ops Hop Hops IH]; intros s Hs; simpl; [done|].
  apply IH. by apply exec_saturated.
Qed.

(** X3. The scheduler leaves no slot idle. After any sequence of enqueue,
    pause, resume, cancel and cancelAll calls and body settlements, unless
    the scheduler is paused, either the running map is at the concurrency
    bound or the pending queue is empty. *)
Theorem no_idle_slot (N : Z) (ops : list Op) :
  (1 ≤ N)%Z →
  Forall (fun op => whole_call op = true) ops →
  let s := run ops (init N) in
  paused s = false →
  (N ≤ Z.of_nat (activeCount s))%Z ∨ pendingCount s = 0.
Proof.
  intros HN Hops s Hp.
  assert (HI : Inv N s) by (apply run_inv, init_inv; lia).
  assert (Hs : saturated s).
  { apply run_saturated; [done|]. right. apply andb_false_r. }
  destruct Hs as [Hs|Hs]; [congruence|].
  unfold loop_condition in Hs. rewrite (inv_max _ _ HI) in Hs.
  apply andb_false_iff in Hs as [Hs|Hs].
  - left. apply Z.ltb_ge in Hs. exact Hs.
  - right. apply Nat.ltb_ge in Hs. unfold pendingCount. lia.
Qed.

Lemma no_idle_slot_witness :
  (1 ≤ 2)%Z ∧
  ((2 ≤ Z.of_nat (activeCount (run two_jobs (init 2))))%Z
   ∨ pendingCount (run two_jobs (init 2)) = 0).
Proof.
  split; [lia|]. apply (no_idle_slot 2 two_jobs).
  - lia.
  - repeat constructor.
  - reflexivity.
Defined.

(** *** Settlement of a running job *)

Lemma take_inflight_is_Some ref l :
  ref ∈ job <$> l → ∃ item rest, take_inflight ref l = Some (item, rest).
Proof.
  induction l as [|x l IH]; csimpl.
  - by intros ?%elem_of_nil.
  - destruct (Nat.eqb_spec (job x) ref) as [Heq|Hne]; [by eexists _, _|].
    intros [?|Hin]%elem_of_cons; [congruence|].
    destruct (IH Hin) as (item & rest & ->). by eexists _, _.
Qed.

Lemma loop_body_dormant_job s r :
  dormant s r → allJobs (loop_body s) !! r = allJobs s !! r.
Proof.
  intros (Hlt & Hnq & Hnf). unfold loop_body.
  destruct (queue s) as [|item rest] eqn:Hq; [done|].
  unfold queue_refs in Hnq. rewrite Hq in Hnq. csimpl in Hnq.
  apply not_elem_of_cons in Hnq as [Hne Hnq]. simpl.
  by rewrite list_lookup_alter_ne.
Qed.

Lemma drain_dormant_job s r : dormant s r → allJobs (drain s) !! r = allJobs s !! r.
Proof.
  unfold drain. destruct (paused s); [done|].
  generalize (length (queue s)) as fuel. intros fuel. revert s.
  induction fuel as [|fuel IH]; intros s Hd; simpl; [done|].
  destruct (loop_condition s); [|done].
  rewrite IH by by apply loop_body_dormant.
  by apply loop_body_dormant_job.
Qed.

Definition settlement_of (o : Outcome) : Settlement :=
  match o with Returned v => Fulfilled v | Threw msg => Rejected msg end.

Definition settled_job (o : Outcome) (j : Job) : Job :=
  match o with
  | Returned v => with_result v (with_status Completed j)
  | Threw msg => with_error msg (with_status Failed j)
  end.

(** *** The handlers of a settlement, one at a time *)

(** [startJob] chains a [then], a [catch] and a [finally] handler on the
    promise of the body. The [then] or [catch] handler settles the promise
    handed out by [enqueue]; the code that awaits that promise takes its
    turn before the [finally] handler deletes the job from the running map.
    A fine state keeps, beside the scheduler, the references of the jobs
    that are between their two handlers ([settled]); the entry of such a
    job is still in [inflight]. *)
Record Fine := mkFine {
  base : State;
  settled : list nat
}.

Definition start (maxParallel : Z) : Fine := mkFine (init maxParallel) [].

(** The [then] handler (the body returned) or the [catch] handler (it
    threw) of job [ref]; the handler runs once. *)
Definition then_step (ref : nat) (o : Outcome) (f : Fine) : Fine :=
  match take_inflight ref (inflight (base f)) with
  | Some (item, _) =>
      if bool_decide (ref ∈ settled f) then f
      else mkFine (then_catch item o (base f)) (settled f ++ [ref])
  | None => f
  end.

(** The [finally] handler of job [ref], which runs after the [then] or
    [catch] handler: [running.delete], then [k] for the rest. *)
Definition finally_with (k : State → State) (ref : nat) (f : Fine) : Fine :=
  match take_inflight ref (inflight (base f)) with
  | Some (item, rest) =>
      if bool_decide (ref ∈ settled f) then
        mkFine (k (finally_delete item (set_inflight rest (base f))))
               (filter (λ r, r ≠ ref) (settled f))
      else f
  | None => f
  end.

(** The [finally] handler up to its call of [drain]. *)
Definition delete_step : nat → Fine → Fine := finally_with id.

(** The [finally] handler: [running.delete] and [drain]. *)
Definition finally_step : nat → Fine → Fine := finally_with drain.

(** A call of the scheduler (or a piece of one) made in a fine state. *)
Definition call (op : Op) (f : Fine) : Fine :=
  mkFine (exec (base f) op) (settled f).

(** A step of a fine trace: a call, or one handler of a settlement. *)
Inductive Step :=
  | StepCall (op : Op)
  | StepThen (ref : nat) (o : Outcome)
  | StepDelete (ref : nat)
  | StepFinally (ref : nat).

(** In a fine trace a settlement [OpSettle] stands for the handlers that
    are still to run, back to back. *)
Definition fexec (f : Fine) (st : Step) : Fine :=
  match st with
  | StepCall (OpSettle ref o) => finally_step ref (then_step ref o f)
  | StepCall (OpHandlers ref o) => delete_step ref (then_step ref o f)
  | StepCall op => call op f
  | StepThen ref o => then_step ref o f
  | StepDelete ref => delete_step ref f
  | StepFinally ref => finally_step ref f
  end.

Definition frun (steps : list Step) (f : Fine) : Fine := foldl fexec f steps.

Definition is_settlement (op : Op) : bool :=
  match op with OpSettle _ _ | OpHandlers _ _ => true | _ => false end.

Definition step_uuid (st : Step) : list string :=
  match st with StepCall op => uuid_of op | _ => [] end.

(** The uuids drawn by the [enqueue] calls of a fine trace. *)
Definition step_uuids (steps : list Step) : list string := steps ≫= step_uuid.

(** Job [a] has completed and is still in the running map: the code that
    awaits its promise runs in this state. *)
Example between_the_handlers :
  let f := frun [StepCall (OpEnqueue "a" "A" "t" "d" None);
                 StepThen 0 (Returned "done")] (start 1) in
  status_of (base f) 0 = Some Completed ∧
  promises (base f) !! 0 = Some (Fulfilled "done") ∧
  running_refs (base f) = [0] ∧
  running_refs (base (fexec f (StepFinally 0))) = [].
Proof. vm_compute. done. Qed.

Lemma running_inflight N s r : Inv N s → r ∈ running_refs s → r ∈ inflight_refs s.
Proof.
  intros HI (k & item & Hin & <-)%elem_of_running_refs.
  by destruct (inv_running_entry _ _ HI _ _ Hin).
Qed.

(** What holds of the jobs in flight, before and after their [then] or
    [catch] handler. *)
Record Inv3 (f : Fine) : Prop := mkInv3 {
  inv_settled_inflight : ∀ r, r ∈ settled f → r ∈ inflight_refs (base f);
  inv_running_unsettled : ∀ r, r ∈ running_refs (base f) → r ∉ settled f →
    promises (base f) !! r = Some Unsettled;
  inv_active : ∀ r, r ∈ inflight_refs (base f) → r ∉ settled f →
    status_of (base f) r = Some Running ∨ status_of (base f) r = Some Cancelled;
  inv_settled_done : ∀ r, r ∈ settled f →
    (status_of (base f) r = Some Completed ∨ status_of (base f) r = Some Failed
     ∨ status_of (base f) r = Some Cancelled)
    ∧ ∃ p, promises (base f) !! r = Some p ∧ p ≠ Unsettled
}.

Lemma init_inv3 N : Inv3 (start N).
Proof. split; cbn; intros r Hr; by apply elem_of_nil in Hr. Qed.

Lemma startJob_inv3 N s st item rest :
  Inv N s → Inv3 (mkFine s st) → queue s = item :: rest →
  Inv3 (mkFine (startJob item (set_queue rest s)) st).
Proof.
  intros HI H3 Hq.
  assert (Hitemq : job item ∈ queue_refs s) by (unfold queue_refs; rewrite Hq; left).
  assert (Hnfl : job item ∉ inflight_refs s) by by apply (inv_queue_inflight _ _ HI).
  pose proof (inv_queue_lt _ _ HI _ Hitemq) as Hlt.
  split; cbn [base settled].
  - intros r Hr. unfold inflight_refs. simpl. rewrite fmap_app. apply elem_of_app.
    left. by apply (inv_settled_inflight _ H3).
  - intros r (k & it & Hin & <-)%elem_of_running_refs Hn. simpl in Hin |- *.
    apply JsMap.elem_of_set in Hin as [[= -> ->]|Hin].
    + by apply (inv_queue_unsettled _ _ HI).
    + apply (inv_running_unsettled _ H3); [|done].
      apply elem_of_running_refs. by exists k, it.
  - intros r Hr Hn. unfold inflight_refs in Hr. simpl in Hr. rewrite fmap_app in Hr.
    unfold status_of. simpl.
    apply elem_of_app in Hr as [Hr| ->%list_elem_of_singleton].
    + rewrite status_alter_ne; [by apply (inv_active _ H3)|]. by intros <-.
    + left. by apply status_alter_eq.
  - intros r Hr. destruct (inv_settled_done _ H3 r Hr) as [Hs Hp]. split; [|done].
    unfold status_of. simpl. rewrite status_alter_ne; [done|].
    intros <-. apply Hnfl. by apply (inv_settled_inflight _ H3).
Qed.

Lemma loop_body_inv3 N s st :
  Inv N s → Inv3 (mkFine s st) → Inv3 (mkFine (loop_body s) st).
Proof.
  intros HI H3. unfold loop_body.
  destruct (queue s) as [|item rest] eqn:Hq; [done|]. by apply (startJob_inv3 N).
Qed.

Lemma drain_loop_inv3 N fuel s st :
  Inv N s → Inv3 (mkFine s st) → Inv3 (mkFine (drain_loop fuel s) st).
Proof.
  revert s. induction fuel as [|fuel IH]; intros s HI H3; simpl; [done|].
  destruct (loop_condition s) eqn:E; [|done].
  apply IH; [by apply loop_body_inv|by apply (loop_body_inv3 N)].
Qed.

Lemma drain_inv3 N s st : Inv N s → Inv3 (mkFine s st) → Inv3 (mkFine (drain s) st).
Proof.
  intros HI H3. unfold drain. destruct (paused s); [done|].
  by apply (drain_loop_inv3 N).
Qed.

Lemma push_job_inv3 N s st uuid a t c corr :
  Inv N s → Inv3 (mkFine s st) → Inv3 (mkFine (push_job uuid a t c corr s) st).
Proof.
  intros HI H3. pose proof (inv_len _ _ HI) as Hlen.
  split; cbn [base settled].
  - exact (inv_settled_inflight _ H3).
  - intros r Hr Hn. simpl. rewrite lookup_app_l.
    + by apply (inv_running_unsettled _ H3).
    + rewrite Hlen. by apply (inv_inflight_lt _ _ HI), (running_inflight N).
  - intros r Hr Hn. unfold status_of. simpl.
    rewrite lookup_app_l by by apply (inv_inflight_lt _ _ HI).
    by apply (inv_active _ H3).
  - intros r Hr. destruct (inv_settled_done _ H3 r Hr) as [Hs (p & Hp & Hne)].
    pose proof (inv_settled_inflight _ H3 r Hr) as Hfl. split.
    + unfold status_of. simpl.
      by rewrite lookup_app_l by by apply (inv_inflight_lt _ _ HI).
    + exists p. split; [|done]. simpl. rewrite lookup_app_l; [done|].
      by apply lookup_lt_Some in Hp.
Qed.

Lemma set_paused_inv3 b s st : Inv3 (mkFine s st) → Inv3 (mkFine (set_paused b s) st).
Proof. intros []. by split. Qed.

Lemma cancel_inv3 N s st jobId :
  Inv N s → Inv3 (mkFine s st) → Inv3 (mkFine (cancel jobId s).2 st).
Proof.
  intros HI H3. unfold cancel.
  destruct (find_pending s jobId (queue s)) as [[item rest]|] eqn:E.
  - apply find_pending_Some in E as (Hid & l1 & l2 & Hq & ->). cbn [snd].
    assert (Hitem : job item ∈ queue_refs s).
    { unfold queue_refs. rewrite Hq, fmap_app, fmap_cons.
      apply elem_of_app. right. left. }
    assert (Hnfl : job item ∉ inflight_refs s) by by apply (inv_queue_inflight _ _ HI).
    assert (Hne : ∀ r, r ∈ inflight_refs s → job item ≠ r) by (by intros r Hr <-).
    split; cbn [base settled].
    + exact (inv_settled_inflight _ H3).
    + intros r Hr Hn. simpl. rewrite list_lookup_alter_ne.
      * by apply (inv_running_unsettled _ H3).
      * apply Hne. by apply (running_inflight N).
    + intros r Hr Hn. unfold status_of. simpl.
      rewrite status_alter_ne by by apply Hne. by apply (inv_active _ H3).
    + intros r Hr. pose proof (inv_settled_inflight _ H3 r Hr) as Hfl.
      destruct (inv_settled_done _ H3 r Hr) as [Hs Hp]. split.
      * unfold status_of. simpl. by rewrite status_alter_ne by by apply Hne.
      * simpl. by rewrite list_lookup_alter_ne by by apply Hne.
  - destruct (JsMap.get jobId (running s)) as [item|] eqn:G; cbn [snd]; [|done].
    apply JsMap.get_elem_of in G.
    destruct (inv_running_entry _ _ HI _ _ G) as [_ Hfl].
    pose proof (inv_inflight_lt _ _ HI _ Hfl) as Hlt.
    split; cbn [base settled].
    + exact (inv_settled_inflight _ H3).
    + exact (inv_running_unsettled _ H3).
    + intros r Hr Hn. unfold status_of. simpl.
      destruct (decide (job item = r)) as [<-|Hne].
      * right. by apply status_alter_eq.
      * rewrite status_alter_ne by done. by apply (inv_active _ H3).
    + intros r Hr. destruct (inv_settled_done _ H3 r Hr) as [Hs Hp]. split; [|done].
      unfold status_of. simpl. destruct (decide (job item = r)) as [<-|Hne].
      * right. right. by apply status_alter_eq.
      * by rewrite status_alter_ne.
Qed.

Lemma cancelAll_status_cases s r :
  status_of (cancelAll s) r = Some Cancelled
  ∨ status_of (cancelAll s) r = status_of s r.
Proof.
  rewrite cancelAll_pairs.
  change (status_of (set_running JsMap.empty ?x) r) with (status_of x r).
  destruct (cancel_pairs_status_cases
              (set_queue [] (cancel_pairs s
                 ((fun item => (id_of s (job item), item)) <$> queue s)))
              (running s) r) as [H|H]; [by left|].
  rewrite H. change (status_of (set_queue [] ?x) r) with (status_of x r).
  apply cancel_pairs_status_cases.
Qed.

Lemma cancelAll_inv3 s st : Inv3 (mkFine s st) → Inv3 (mkFine (cancelAll s) st).
Proof.
  intros H3. destruct (cancelAll_shape s) as (Hq & Hr & Hfl & _).
  split; cbn [base settled].
  - unfold inflight_refs. rewrite Hfl. exact (inv_settled_inflight _ H3).
  - unfold running_refs. rewrite Hr. by intros r ?%elem_of_nil.
  - intros r Hin Hn. unfold inflight_refs in Hin. rewrite Hfl in Hin.
    destruct (cancelAll_status_cases s r) as [H|H]; [by right|]. rewrite H.
    by apply (inv_active _ H3).
  - intros r Hin. destruct (inv_settled_done _ H3 r Hin) as [Hs (p & Hp & Hne)]. split.
    + destruct (cancelAll_status_cases s r) as [H|H]; [by right; right|]. by rewrite H.
    + exists p. split; [|done]. by apply cancelAll_settled.
Qed.

Lemma frame_inv N s s' :
  Inv N s → frame s s' →
  (∀ r, r ∈ queue_refs s → promises s' !! r = promises s !! r) → Inv N s'.
Proof.
  intros HI (Hq & Hr & Hfl & Hm & Hp & Hlp & Hids) Hun.
  pose proof (ids_length _ _ Hids) as Hlen.
  split.
  - rewrite Hm. apply (inv_max _ _ HI).
  - rewrite Hr. apply (inv_bound _ _ HI).
  - rewrite Hlp, Hlen. apply (inv_len _ _ HI).
  - unfold queue_refs. rewrite Hq. apply (inv_queue_nodup _ _ HI).
  - unfold queue_refs. rewrite Hq, Hlen. apply (inv_queue_lt _ _ HI).
  - unfold inflight_refs. rewrite Hfl, Hlen. apply (inv_inflight_lt _ _ HI).
  - unfold queue_refs, inflight_refs. rewrite Hq, Hfl.
    apply (inv_queue_inflight _ _ HI).
  - rewrite Hr. apply (inv_running_keys _ _ HI).
  - rewrite Hr. intros k item Hin.
    destruct (inv_running_entry _ _ HI _ _ Hin) as [Hk Hin2]. split.
    + rewrite Hk. symmetry. by apply id_of_ids.
    + unfold inflight_refs. by rewrite Hfl.
  - intros r Hr'. unfold queue_refs in Hr'. rewrite Hq in Hr'.
    rewrite Hun by done. by apply (inv_queue_unsettled _ _ HI).
Qed.

Lemma frame_inv2 s s' :
  Inv2 s → frame s s' →
  (∀ r, r ∈ queue_refs s → status_of s' r = status_of s r) → Inv2 s'.
Proof.
  intros H2 (Hq & Hr & Hfl & _) Hst. split.
  - intros r Hr'. unfold queue_refs in Hr'. rewrite Hq in Hr'.
    rewrite Hst by done. by apply (inv_pending _ H2).
  - unfold inflight_refs. rewrite Hfl. apply (inv_inflight_nodup _ H2).
Qed.

Lemma then_catch_frame item o s : frame s (then_catch item o s).
Proof.
  destruct o; repeat split; simpl; try done; try (by rewrite length_alter);
    unfold ids; simpl; by rewrite !fmap_id_alter.
Qed.

Lemma then_catch_status_ne item o s r :
  job item ≠ r → status_of (then_catch item o s) r = status_of s r.
Proof.
  intros Hne. unfold status_of.
  destruct o; simpl; rewrite status_alter_keep by done; by rewrite status_alter_ne.
Qed.

Lemma then_catch_status_eq item o s :
  job item < length (allJobs s) →
  status_of (then_catch item o s) (job item)
  = Some (match o with Returned _ => Completed | Threw _ => Failed end).
Proof.
  intros Hlt. unfold status_of.
  destruct o; simpl; rewrite status_alter_keep by done; by apply status_alter_eq.
Qed.

Lemma then_catch_promise_ne item o s r :
  job item ≠ r → promises (then_catch item o s) !! r = promises s !! r.
Proof. intros Hne. destruct o; simpl; by rewrite list_lookup_alter_ne. Qed.

Lemma then_catch_promise item o s r p :
  promises s !! r = Some p → p ≠ Unsettled →
  promises (then_catch item o s) !! r = Some p.
Proof. intros H Hp. destruct o; simpl; by apply alter_settled. Qed.

Lemma then_catch_promise_eq item o s :
  promises s !! job item = Some Unsettled →
  promises (then_catch item o s) !! job item = Some (settlement_of o).
Proof. intros H. destruct o; simpl; by rewrite list_lookup_alter_eq, H. Qed.

Lemma then_catch_promise_settled item o s :
  job item < length (promises s) →
  ∃ p, promises (then_catch item o s) !! job item = Some p ∧ p ≠ Unsettled.
Proof.
  intros Hlt. destruct (lookup_lt_is_Some_2 _ _ Hlt) as [q Hq].
  destruct o; simpl; rewrite list_lookup_alter_eq, Hq; simpl;
    destruct q; eexists; (split; [reflexivity|done]).
Qed.

(** The three invariants of a fine state. *)
Definition FInv (N : Z) (f : Fine) : Prop :=
  Inv N (base f) ∧ Inv2 (base f) ∧ Inv3 f.

Lemma start_inv N : (0 ≤ N)%Z → FInv N (start N).
Proof.
  intros HN. split; [by apply init_inv|]. split; [apply init_inv2|apply init_inv3].
Qed.

Lemma then_step_inv N ref o f : FInv N f → FInv N (then_step ref o f).
Proof.
  intros (HI & H2 & H3). unfold then_step.
  destruct (take_inflight ref (inflight (base f))) as [[item rest]|] eqn:E; [|done].
  destruct (decide (ref ∈ settled f)) as [Hin|Hnin].
  { rewrite bool_decide_eq_true_2 by done. done. }
  rewrite bool_decide_eq_false_2 by done.
  apply take_inflight_Some in E as (Hj & l1 & l2 & Hfl & _).
  assert (Hitem : job item ∈ inflight_refs (base f)).
  { unfold inflight_refs. rewrite Hfl, fmap_app, fmap_cons.
    apply elem_of_app. right. left. }
  pose proof (inv_inflight_lt _ _ HI _ Hitem) as Hlt.
  assert (Hnq : ∀ r, r ∈ queue_refs (base f) → job item ≠ r).
  { intros r Hr <-. by apply (inv_queue_inflight _ _ HI _ Hr). }
  pose proof (then_catch_frame item o (base f)) as HF.
  split; [|split]; cbn [base settled].
  - apply (frame_inv N (base f)); [done|done|].
    intros r Hr. apply then_catch_promise_ne. by apply Hnq.
  - apply (frame_inv2 (base f)); [done|done|].
    intros r Hr. apply then_catch_status_ne. by apply Hnq.
  - destruct HF as (Hq' & Hr' & Hfl' & _).
    split; cbn [base settled].
    + intros r [Hr| ->%list_elem_of_singleton]%elem_of_app;
        unfold inflight_refs; rewrite Hfl'.
      * by apply (inv_settled_inflight _ H3).
      * by rewrite <- Hj.
    + intros r Hr Hn. apply not_elem_of_app in Hn as [Hn [Hne _]%not_elem_of_cons].
      rewrite then_catch_promise_ne by congruence.
      apply (inv_running_unsettled _ H3); [|done].
      unfold running_refs in *. by rewrite Hr' in Hr.
    + intros r Hr Hn. apply not_elem_of_app in Hn as [Hn [Hne _]%not_elem_of_cons].
      rewrite then_catch_status_ne by congruence.
      apply (inv_active _ H3); [|done].
      unfold inflight_refs in *. by rewrite Hfl' in Hr.
    + intros r [Hr| ->%list_elem_of_singleton]%elem_of_app.
      * destruct (inv_settled_done _ H3 r Hr) as [Hs (p & Hp & Hne)].
        assert (job item ≠ r) by (intros Heq; apply Hnin; by rewrite <- Hj, Heq).
        split; [by rewrite then_catch_status_ne|].
        exists p. split; [|done]. by apply then_catch_promise.
      * rewrite <- Hj. split.
        -- rewrite then_catch_status_eq by done. destruct o; auto.
        -- apply then_catch_promise_settled. by rewrite (inv_len _ _ HI).
Qed.

Lemma finally_delete_inv N item l1 l2 f :
  FInv N f → inflight (base f) = l1 ++ item :: l2 →
  FInv N (mkFine (finally_delete item (set_inflight (l1 ++ l2) (base f)))
                 (filter (λ r, r ≠ job item) (settled f))).
Proof.
  intros (HI & H2 & H3) Hfl.
  destruct f as [s st]. cbn [base settled] in *.
  assert (Hnd : NoDup (inflight_refs s)) by apply (inv_inflight_nodup _ H2).
  unfold inflight_refs in Hnd. rewrite Hfl, fmap_app, fmap_cons in Hnd.
  apply NoDup_app in Hnd as (Hnd1 & Hdisj & [Hnot Hnd2]%NoDup_cons).
  assert (Hsub : ∀ r, r ∈ job <$> (l1 ++ l2) ↔ r ∈ inflight_refs s ∧ r ≠ job item).
  { intros r. unfold inflight_refs.
    rewrite Hfl, !fmap_app, fmap_cons, !elem_of_app, elem_of_cons. split.
    - intros [H1|H1]; (split; [tauto|]); intros ->; [|done].
      apply (Hdisj _ H1). left.
    - intros [[H1|[H1|H1]] Hne]; [by left|done|by right]. }
  split; [|split]; cbn [base settled].
  - by apply (settled_inv N s item l1 l2 (allJobs s) (promises s) (emitted s)).
  - split; unfold queue_refs, inflight_refs, status_of; simpl.
    + exact (inv_pending _ H2).
    + rewrite fmap_app. apply NoDup_app. split; [done|]. split; [|done].
      intros r H1 Hr2. apply (Hdisj _ H1). by right.
  - split; cbn [base settled].
    + intros r [Hne Hr]%list_elem_of_filter. apply Hsub. split; [|done].
      by apply (inv_settled_inflight _ H3).
    + intros r (k & it & Hin & <-)%elem_of_running_refs Hn.
      simpl in Hin. apply JsMap.elem_of_delete in Hin as [Hin Hk].
      destruct (inv_running_entry _ _ HI _ _ Hin) as [Hkey _].
      assert (Hne : job it ≠ job item).
      { intros Heq. apply Hk. simpl. by rewrite Hkey, Heq. }
      apply (inv_running_unsettled _ H3).
      * apply elem_of_running_refs. by exists k, it.
      * intros Hst. apply Hn. by apply list_elem_of_filter.
    + intros r Hr Hn. apply Hsub in Hr as [Hr Hne].
      apply (inv_active _ H3); [done|].
      intros Hst. apply Hn. by apply list_elem_of_filter.
    + intros r [Hne Hr]%list_elem_of_filter. by apply (inv_settled_done _ H3).
Qed.

Lemma finally_with_inv N k ref f :
  (∀ g, FInv N g → FInv N (mkFine (k (base g)) (settled g))) →
  FInv N f → FInv N (finally_with k ref f).
Proof.
  intros Hk HF. unfold finally_with.
  destruct (take_inflight ref (inflight (base f))) as [[item rest]|] eqn:E; [|done].
  destruct (bool_decide (ref ∈ settled f)); [|done].
  apply take_inflight_Some in E as (<- & l1 & l2 & Hfl & ->).
  apply (Hk (mkFine _ _)). by apply finally_delete_inv.
Qed.

Lemma drain_finv N g : FInv N g → FInv N (mkFine (drain (base g)) (settled g)).
Proof.
  destruct g as [s st]. intros (HI & H2 & H3). cbn [base settled] in *.
  split; [by apply drain_inv|]. split; [by apply (drain_inv2 N)|].
  by apply (drain_inv3 N).
Qed.

Lemma delete_step_inv N ref f : FInv N f → FInv N (delete_step ref f).
Proof. apply finally_with_inv. by intros [s st]. Qed.

Lemma finally_step_inv N ref f : FInv N f → FInv N (finally_step ref f).
Proof. apply finally_with_inv. intros g. apply drain_finv. Qed.

Lemma call_inv N op f : is_settlement op = false → FInv N f → FInv N (call op f).
Proof.
  intros Hop (HI & H2 & H3). destruct f as [s st]. unfold call.
  cbn [base settled] in *.
  split; [by apply exec_inv|]. split; [by apply (exec_inv2 N)|].
  destruct op; try done; cbn [exec].
  - apply (drain_inv3 N); [by apply push_job_inv|by apply (push_job_inv3 N)].
  - by apply set_paused_inv3.
  - unfold resume. apply (drain_inv3 N); [|by apply set_paused_inv3].
    destruct HI. by split.
  - by apply (cancel_inv3 N).
  - by apply cancelAll_inv3.
  - by apply (push_job_inv3 N).
  - unfold start_next. destruct (loop_condition s) eqn:E; [|done].
    by apply (loop_body_inv3 N).
  - by apply set_paused_inv3.
Qed.

Lemma fexec_inv N f st : FInv N f → FInv N (fexec f st).
Proof.
  intros HF. destruct st as [op|ref o|ref|ref]; cbn [fexec].
  - destruct op; try (by apply call_inv).
    + by apply finally_step_inv, then_step_inv.
    + by apply delete_step_inv, then_step_inv.
  - by apply then_step_inv.
  - by apply delete_step_inv.
  - by apply finally_step_inv.
Qed.

Lemma frun_inv N steps f : FInv N f → FInv N (frun steps f).
Proof.
  revert f. induction steps as [|st steps IH]; intros f HF; simpl; [done|].
  apply IH. by apply fexec_inv.
Qed.

Lemma fine_reachable N steps : (1 ≤ N)%Z → FInv N (frun steps (start N)).
Proof. intros HN. apply frun_inv, start_inv. lia. Qed.

(** *** Coarse traces are fine traces *)

Lemma filter_ne_singleton (ref : nat) : filter (λ r, r ≠ ref) [ref] = [].
Proof. by rewrite filter_cons_False by (by intros H). Qed.

Lemma then_finally_back_to_back k ref o s :
  finally_with k ref (then_step ref o (mkFine s []))
  = mkFine (match take_inflight ref (inflight s) with
            | Some (item, rest) => k (on_settled item o (set_inflight rest s))
            | None => s
            end) [].
Proof.
  unfold finally_with, then_step. cbn [base settled].
  destruct (take_inflight ref (inflight s)) as [[item rest]|] eqn:E.
  - rewrite bool_decide_eq_false_2 by apply not_elem_of_nil. cbn [base settled].
    assert (inflight (then_catch item o s) = inflight s) as -> by by destruct o.
    rewrite E. rewrite bool_decide_eq_true_2 by left.
    cbn [app]. rewrite filter_ne_singleton. f_equal. f_equal. by destruct o.
  - cbn [base settled]. by rewrite E.
Qed.

Lemma call_is_exec op s : fexec (mkFine s []) (StepCall op) = mkFine (exec s op) [].
Proof.
  destruct op; try done; cbn [fexec exec].
  - unfold finally_step. rewrite then_finally_back_to_back. unfold settle.
    by destruct (take_inflight ref (inflight s)) as [[item rest]|].
  - unfold delete_step. rewrite then_finally_back_to_back. unfold handlers.
    by destruct (take_inflight ref (inflight s)) as [[item rest]|].
Qed.

Lemma coarse_is_fine ops s :
  frun (StepCall <$> ops) (mkFine s []) = mkFine (run ops s) [].
Proof.
  revert s. induction ops as [|op ops IH]; intros s; [done|].
  change (frun (StepCall <$> op :: ops) (mkFine s []))
    with (frun (StepCall <$> ops) (fexec (mkFine s []) (StepCall op))).
  by rewrite call_is_exec, IH.
Qed.

Lemma reachable_inv3 N ops : (1 ≤ N)%Z → Inv3 (mkFine (run ops (init N)) []).
Proof.
  intros HN. rewrite <- coarse_is_fine. by apply (fine_reachable N).
Qed.

(** *** Ids, dormant jobs and settled promises along a fine trace *)

Lemma ids_then_step ref o f : ids (base (then_step ref o f)) = ids (base f).
Proof.
  unfold then_step. destruct (take_inflight _ _) as [[item rest]|]; [|done].
  destruct (bool_decide _); [done|]. apply then_catch_frame.
Qed.

Lemma ids_finally_with k ref f :
  (∀ s, ids (k s) = ids s) → ids (base (finally_with k ref f)) = ids (base f).
Proof.
  intros Hk. unfold finally_with. destruct (take_inflight _ _) as [[item rest]|]; [|done].
  destruct (bool_decide _); [|done]. cbn [base]. by rewrite Hk.
Qed.

Lemma ids_fexec f st : ids (base (fexec f st)) = ids (base f) ++ step_uuid st.
Proof.
  destruct st as [op|ref o|ref|ref]; cbn [fexec step_uuid]; rewrite ?app_nil_r.
  - destruct op; try apply ids_exec; cbn [uuid_of]; rewrite app_nil_r.
    + unfold finally_step. rewrite ids_finally_with by apply ids_drain.
      apply ids_then_step.
    + unfold delete_step. rewrite ids_finally_with by done. apply ids_then_step.
  - apply ids_then_step.
  - by apply ids_finally_with.
  - apply ids_finally_with, ids_drain.
Qed.

Lemma ids_frun steps f : ids (base (frun steps f)) = ids (base f) ++ step_uuids steps.
Proof.
  revert f. induction steps as [|st steps IH]; intros f; simpl.
  - by rewrite app_nil_r.
  - rewrite IH, ids_fexec, <- app_assoc. done.
Qed.

Lemma fine_distinct_ids (N : Z) (steps : list Step) (r1 r2 : nat) :
  NoDup (step_uuids steps) →
  let s := base (frun steps (start N)) in
  r1 < length (allJobs s) → r2 < length (allJobs s) →
  id_of s r1 = id_of s r2 → r1 = r2.
Proof.
  intros Hnd s H1 H2 Heq.
  assert (Hids : NoDup (ids s)) by (unfold s; by rewrite ids_frun).
  apply (NoDup_lookup _ _ _ (id_of s r2) Hids).
  - rewrite <- Heq. by apply id_of_lookup.
  - by apply id_of_lookup.
Qed.

Lemma then_step_dormant ref o f r :
  dormant (base f) r →
  dormant (base (then_step ref o f)) r
  ∧ status_of (base (then_step ref o f)) r = status_of (base f) r.
Proof.
  intros Hd. pose proof Hd as (Hlt & Hnq & Hnf). unfold then_step.
  destruct (take_inflight ref (inflight (base f))) as [[item rest]|] eqn:E; [|done].
  destruct (bool_decide _); [done|]. cbn [base].
  apply take_inflight_Some in E as (Hid & l1 & l2 & Hfl & _).
  assert (Hne : job item ≠ r).
  { intros <-. apply Hnf. unfold inflight_refs. rewrite Hfl, fmap_app, fmap_cons.
    apply elem_of_app. right. left. }
  destruct (then_catch_frame item o (base f)) as (Hq' & _ & Hfl' & _ & _ & _ & Hids).
  split; [|by apply then_catch_status_ne].
  split; [|split].
  - by rewrite (ids_length _ _ Hids).
  - unfold queue_refs. by rewrite Hq'.
  - unfold inflight_refs. by rewrite Hfl'.
Qed.

Lemma finally_with_dormant k ref f r :
  (∀ s, dormant s r → dormant (k s) r ∧ status_of (k s) r = status_of s r) →
  dormant (base f) r →
  dormant (base (finally_with k ref f)) r
  ∧ status_of (base (finally_with k ref f)) r = status_of (base f) r.
Proof.
  intros Hk Hd. pose proof Hd as (Hlt & Hnq & Hnf). unfold finally_with.
  destruct (take_inflight ref (inflight (base f))) as [[item rest]|] eqn:E; [|done].
  destruct (bool_decide _); [|done]. cbn [base].
  apply take_inflight_Some in E as (Hid & l1 & l2 & Hfl & ->).
  apply (Hk (finally_delete item (set_inflight (l1 ++ l2) (base f)))).
  split; [done|]. split; [done|].
  intros Hin. apply Hnf. unfold inflight_refs in *. simpl in Hin.
  rewrite Hfl, fmap_app, fmap_cons. rewrite fmap_app in Hin.
  apply elem_of_app in Hin as [?|?]; apply elem_of_app; [by left|right; by right].
Qed.

Lemma fexec_dormant N f st r :
  Inv N (base f) → dormant (base f) r →
  dormant (base (fexec f st)) r ∧ status_of (base (fexec f st)) r = status_of (base f) r.
Proof.
  intros HI Hd. destruct st as [op|ref o|ref|ref]; cbn [fexec].
  - destruct op; try (by apply (exec_dormant N)).
    + destruct (then_step_dormant ref o f r Hd) as [Hd1 Hst1].
      destruct (finally_with_dormant drain ref _ r (λ s, drain_dormant s r) Hd1)
        as [Hd2 Hst2].
      split; [done|]. unfold finally_step. by rewrite Hst2.
    + destruct (then_step_dormant ref o f r Hd) as [Hd1 Hst1].
      destruct (finally_with_dormant id ref _ r (λ s H, conj H eq_refl) Hd1)
        as [Hd2 Hst2].
      split; [done|]. unfold delete_step. by rewrite Hst2.
  - by apply then_step_dormant.
  - by apply (finally_with_dormant id).
  - apply (finally_with_dormant drain); [|done]. intros s. apply drain_dormant.
Qed.

Lemma frun_dormant N steps f r :
  FInv N f → dormant (base f) r →
  dormant (base (frun steps f)) r
  ∧ status_of (base (frun steps f)) r = status_of (base f) r.
Proof.
  revert f. induction steps as [|st steps IH]; intros f HF Hd; simpl; [done|].
  destruct (fexec_dormant N f st r (proj1 HF) Hd) as [Hd' Hst].
  destruct (IH (fexec f st) (fexec_inv N f st HF) Hd') as [Hd2 Hst2].
  split; [done|]. by rewrite Hst2.
Qed.

Lemma then_step_settled ref o f r p :
  promises (base f) !! r = Some p → p ≠ Unsettled →
  promises (base (then_step ref o f)) !! r = Some p.
Proof.
  intros H Hp. unfold then_step. destruct (take_inflight _ _) as [[item rest]|]; [|done].
  destruct (bool_decide _); [done|]. by apply then_catch_promise.
Qed.

Lemma promises_finally_with k ref f :
  (∀ s, promises (k s) = promises s) →
  promises (base (finally_with k ref f)) = promises (base f).
Proof.
  intros Hk. unfold finally_with. destruct (take_inflight _ _) as [[item rest]|]; [|done].
  destruct (bool_decide _); [|done]. cbn [base]. by rewrite Hk.
Qed.

Lemma fexec_settled f st r p :
  promises (base f) !! r = Some p → p ≠ Unsettled →
  promises (base (fexec f st)) !! r = Some p.
Proof.
  intros H Hp. destruct st as [op|ref o|ref|ref]; cbn [fexec].
  - destruct op; try (by apply settled_stable_exec).
    + unfold finally_step. rewrite promises_finally_with by apply promises_drain.
      by apply then_step_settled.
    + unfold delete_step. rewrite promises_finally_with by done.
      by apply then_step_settled.
  - by apply then_step_settled.
  - unfold delete_step. by rewrite promises_finally_with.
  - unfold finally_step. by rewrite promises_finally_with by apply promises_drain.
Qed.

Lemma frun_settled steps f r p :
  promises (base f) !! r = Some p → p ≠ Unsettled →
  promises (base (frun steps f)) !! r = Some p.
Proof.
  revert f. induction steps as [|st steps IH]; intros f H Hp; simpl; [done|].
  apply IH; [|done]. by apply fexec_settled.
Qed.

(** X4. When the body of a running job settles, the job and its future
    follow the body. In a state reached from the empty scheduler, for a
    job of the running map: a body that returns [v] makes the job
    [Completed] with result [v] and fulfils the future with [v]; a body
    that throws makes it [Failed] with the error message and rejects the
    future with it; either way the job leaves the running map and nothing
    else of the job changes. *)
Theorem settle_follows_body (N : Z) (ops : list Op) (ref : nat) (o : Outcome) :
  (1 ≤ N)%Z →
  let s := run ops (init N) in
  ref ∈ running_refs s →
  let s' := settle ref o s in
  promises s' !! ref = Some (settlement_of o) ∧
  allJobs s' !! ref = settled_job o <$> allJobs s !! ref ∧
  is_Some (allJobs s !! ref) ∧
  (ref ∉ running_refs s') ∧ (ref ∉ inflight_refs s').
Proof.
  intros HN s Hrun s'.
  assert (HI : Inv N s) by (apply run_inv, init_inv; lia).
  assert (H2 : Inv2 s) by (apply (run_inv2 N); [apply init_inv; lia|apply init_inv2]).
  assert (HI' : Inv N s') by by apply settle_inv.
  pose proof (inv_running_unsettled _ (reachable_inv3 N ops HN) _ Hrun
                (not_elem_of_nil _)) as Hun.
  change (promises s !! ref = Some Unsettled) in Hun.
  assert (Hfl : ref ∈ inflight_refs s).
  { apply elem_of_running_refs in Hrun as (k & item & Hin & <-).
    by destruct (inv_running_entry _ _ HI _ _ Hin). }
  pose proof (inv_inflight_lt _ _ HI _ Hfl) as Hlt.
  destruct (take_inflight_is_Some ref (inflight s) Hfl) as (item & rest & E).
  pose proof E as E'.
  apply take_inflight_Some in E' as (Hjob & l1 & l2 & Hl & ->).
  assert (Hnd : NoDup (inflight_refs s)) by apply (inv_inflight_nodup _ H2).
  unfold inflight_refs in Hnd. rewrite Hl, fmap_app, fmap_cons in Hnd.
  apply NoDup_app in Hnd as (Hnd1 & Hdisj & [Hnot Hnd2]%NoDup_cons).
  assert (Hd : dormant (on_settled item o (set_inflight (l1 ++ l2) s)) ref).
  { split; [|split].
    - by destruct o; simpl; rewrite ?length_alter.
    - unfold queue_refs. rewrite on_settled_queue. simpl.
      intros Hq. by apply (inv_queue_inflight _ _ HI _ Hq).
    - assert (Hin : inflight_refs (on_settled item o (set_inflight (l1 ++ l2) s))
                    = job <$> (l1 ++ l2)) by by destruct o.
      rewrite Hin, fmap_app. intros [H1|H1]%elem_of_app.
      + apply (Hdisj _ H1). rewrite Hjob. left.
      + apply Hnot. by rewrite Hjob. }
  assert (Hs' : s' = drain (on_settled item o (set_inflight (l1 ++ l2) s))).
  { unfold s', settle. by rewrite E. }
  destruct (drain_dormant _ ref Hd) as [(_ & _ & Hnf') _].
  rewrite Hs'. split; [|split; [|split; [|split]]].
  - rewrite promises_drain. rewrite <- Hjob.
    destruct o; simpl; by rewrite list_lookup_alter_eq, Hjob, Hun.
  - rewrite drain_dormant_job by done. rewrite <- Hjob.
    destruct o; simpl; rewrite !list_lookup_alter_eq;
      by destruct (allJobs s !! job item).
  - by apply lookup_lt_is_Some.
  - rewrite <- Hs'. intros (k & it & Hin & Hit)%elem_of_running_refs.
    destruct (inv_running_entry _ _ HI' _ _ Hin) as [_ Hin'].
    rewrite Hit, Hs' in Hin'. done.
  - done.
Qed.

Lemma settle_follows_body_witness :
  promises (settle 0 (Returned "r") (run two_jobs (init 1))) !! 0
  = Some (Fulfilled "r").
Proof.
  apply (settle_follows_body 1 two_jobs 0 (Returned "r")).
  - lia.
  - vm_compute. left.
Defined.

(** *** Cancelling one job *)

Lemma find_pending_ref s q ref :
  (∀ r, r ∈ job <$> q → id_of s r = id_of s ref → r = ref) →
  ref ∈ job <$> q →
  ∃ item rest, find_pending s (id_of s ref) q = Some (item, rest) ∧ job item = ref.
Proof.
  induction q as [|x q IH]; csimpl; intros Hinj Hin.
  - by apply elem_of_nil in Hin.
  - destruct (String.eqb_spec (id_of s (job x)) (id_of s ref)) as [Heq|Hne].
    + exists x, q. split; [done|]. apply Hinj; [left|done].
    + apply elem_of_cons in Hin as [->|Hin]; [done|].
      destruct IH as (item & rest & -> & Hj); [|done|by eexists _, _].
      intros r Hr. apply Hinj. by right.
Qed.

Lemma filter_all {A} (P : A → Prop) `{!∀ x, Decision (P x)} (l : list A) :
  Forall P l → filter P l = l.
Proof.
  induction 1 as [|x l Hx Hl IH]; [done|].
  rewrite filter_cons_True by done. by rewrite IH.
Qed.

Lemma reachable_inv (N : Z) (ops : list Op) :
  (1 ≤ N)%Z → Inv N (run ops (init N)) ∧ Inv2 (run ops (init N)).
Proof.
  intros HN. split.
  - apply run_inv, init_inv. lia.
  - apply (run_inv2 N); [apply init_inv; lia|apply init_inv2].
Qed.

Lemma distinct_ids (N : Z) (ops : list Op) (r1 r2 : nat) :
  NoDup (uuids ops) →
  let s := run ops (init N) in
  r1 < length (allJobs s) → r2 < length (allJobs s) →
  id_of s r1 = id_of s r2 → r1 = r2.
Proof.
  intros Hnd s H1 H2 Heq.
  assert (Hids : NoDup (ids s)) by (unfold s; by rewrite ids_run).
  apply (NoDup_lookup _ _ _ (id_of s r2) Hids).
  - rewrite <- Heq. by apply id_of_lookup.
  - by apply id_of_lookup.
Qed.

Lemma run_keeps_dormant N ops s r :
  Inv N s → dormant s r → dormant (run ops s) r.
Proof.
  revert s. induction ops as [|op ops IH]; intros s HI Hd; simpl; [done|].
  destruct (exec_dormant N s op r HI Hd) as [Hd' _].
  apply IH; [by apply exec_inv|done].
Qed.

(** X5. Cancelling a pending job. In a state reached from the empty
    scheduler with distinct uuids, [cancel] on the id of a job of the
    pending queue returns [true], takes that entry and no other out of the
    queue, marks the job [Cancelled], rejects its future with the
    cancellation message and leaves the running map as it was. The job is
    never started afterwards: through every later call and settlement it
    stays [Cancelled], out of the queue and out of the running map. *)
Theorem cancel_pending_job (N : Z) (ops later : list Op) (ref : nat) :
  (1 ≤ N)%Z → NoDup (uuids ops) →
  let s := run ops (init N) in
  ref ∈ queue_refs s →
  let s' := (cancel (id_of s ref) s).2 in
  (cancel (id_of s ref) s).1 = true ∧
  queue_refs s' = filter (λ r, r ≠ ref) (queue_refs s) ∧
  running s' = running s ∧
  status_of s' ref = Some Cancelled ∧
  promises s' !! ref = Some (Rejected (cancel_message (id_of s ref))) ∧
  status_of (run later s') ref = Some Cancelled ∧
  (ref ∉ queue_refs (run later s')) ∧ (ref ∉ running_refs (run later s')).
Proof.
  intros HN Hnd s Hq s'.
  destruct (reachable_inv N ops HN) as [HI H2]. fold s in HI, H2.
  destruct (find_pending_ref s (queue s) ref) as (item & rest & E & Hj); [|done|].
  { intros r Hr. apply (distinct_ids N ops); [done| |].
    - by apply (inv_queue_lt _ _ HI).
    - by apply (inv_queue_lt _ _ HI). }
  pose proof E as (_ & l1 & l2 & Hl & ->)%find_pending_Some.
  pose proof (inv_queue_nodup _ _ HI) as Hqn.
  unfold queue_refs in Hqn. rewrite Hl, fmap_app, fmap_cons in Hqn.
  apply NoDup_app in Hqn as (_ & Hdisj & [Hnot _]%NoDup_cons).
  pose proof (inv_queue_lt _ _ HI _ Hq) as Hlt.
  pose proof (inv_queue_unsettled _ _ HI _ Hq) as Hun.
  assert (Hs' : s' = reject (job item) (cancel_message (id_of s ref))
                       (emit (job_cancelled (id_of s ref) (correlationId item))
                          (set_status (job item) Cancelled (set_queue (l1 ++ l2) s)))).
  { unfold s', cancel. by rewrite E. }
  assert (Hqs : queue_refs s' = filter (λ r, r ≠ ref) (queue_refs s)).
  { assert (Hq' : queue s' = l1 ++ l2) by by rewrite Hs'.
    unfold queue_refs. rewrite Hq', Hl, !fmap_app, fmap_cons, filter_app.
    rewrite filter_cons_False by (intros H; by apply H).
    rewrite !filter_all; [done| |].
    - apply Forall_forall. intros r Hr ->. apply Hnot. by rewrite Hj.
    - apply Forall_forall. intros r Hr ->. apply (Hdisj _ Hr). rewrite Hj. left. }
  assert (Hst : status_of s' ref = Some Cancelled).
  { rewrite Hs'. unfold status_of. simpl. rewrite Hj, list_lookup_alter_eq.
    by destruct (lookup_lt_is_Some_2 _ _ Hlt) as [j ->]. }
  assert (HI' : Inv N s') by by apply cancel_inv.
  assert (Hd : dormant s' ref).
  { split; [|split].
    - rewrite Hs'. simpl. by rewrite length_alter.
    - rewrite Hqs. intros [Hne _]%list_elem_of_filter. by apply Hne.
    - rewrite Hs'. by apply (inv_queue_inflight _ _ HI). }
  assert (HIl : Inv N (run later s')) by by apply run_inv.
  destruct (run_keeps_dormant N later s' ref HI' Hd) as (_ & Hnq & Hnf).
  split; [unfold cancel; by rewrite E|].
  split; [done|]. split; [by rewrite Hs'|]. split; [done|].
  split; [|split; [|split]].
  - rewrite Hs'. simpl. rewrite Hj, list_lookup_alter_eq. simpl in Hun. by rewrite Hun.
  - by rewrite (run_dormant N).
  - done.
  - intros (k & it & Hin & Hit)%elem_of_running_refs.
    destruct (inv_running_entry _ _ HIl _ _ Hin) as [_ Hin'].
    by rewrite Hit in Hin'.
Qed.

Lemma cancel_pending_job_witness :
  status_of (run [OpSettle 0 (Returned "r")]
               (cancel (id_of (run two_jobs (init 1)) 1) (run two_jobs (init 1))).2) 1
  = Some Cancelled.
Proof.
  apply (cancel_pending_job 1 two_jobs [OpSettle 0 (Returned "r")] 1).
  - lia.
  - apply (bool_decide_unpack _). by vm_compute.
  - vm_compute. left.
Defined.

(** *** The log of all jobs *)

(** What [enqueue] is given for a job: its uuid, the unit's name, the task
    and the creation date. *)
Definition submission (j : Job) : string * string * string * string :=
  (job_id j, job_agentName j, job_task j, job_createdAt j).

Definition submitted (op : Op) : list (string * string * string * string) :=
  match op with
  | OpEnqueue u a t c _ | OpPush u a t c _ => [(u, a, t, c)]
  | _ => []
  end.

Definition submissions (s : State) : list (string * string * string * string) :=
  submission <$> allJobs s.

Lemma fmap_submission_alter (f : Job → Job) (i : nat) (l : list Job) :
  (∀ j, submission (f j) = submission j) →
  submission <$> alter f i l = submission <$> l.
Proof.
  intros Hf. apply list_eq. intros n. rewrite !list_lookup_fmap.
  destruct (decide (i = n)) as [->|Hne].
  - rewrite list_lookup_alter_eq. destruct (l !! n); simpl; [|done]. by rewrite Hf.
  - by rewrite list_lookup_alter_ne.
Qed.

Lemma submissions_loop_body s : submissions (loop_body s) = submissions s.
Proof.
  unfold loop_body. destruct (queue s); [done|].
  unfold submissions. simpl. by rewrite fmap_submission_alter.
Qed.

Lemma submissions_drain s : submissions (drain s) = submissions s.
Proof.
  unfold drain. destruct (paused s); [done|].
  generalize (length (queue s)) as fuel. intros fuel. revert s.
  induction fuel as [|fuel IH]; intros s; simpl; [done|].
  destruct (loop_condition s); [|done]. by rewrite IH, submissions_loop_body.
Qed.

Lemma submissions_handlers ref o s : submissions (handlers ref o s) = submissions s.
Proof.
  unfold handlers. destruct (take_inflight _ _) as [[item rest]|]; [|done].
  unfold submissions. destruct o; simpl; by rewrite !fmap_submission_alter.
Qed.

Lemma submissions_cancel_entry s k item :
  submissions (cancel_entry s k item) = submissions s.
Proof. unfold submissions. simpl. by rewrite fmap_submission_alter. Qed.

Lemma submissions_foldl {A} (f : State → A → State) (l : list A) (s : State) :
  (∀ acc x, submissions (f acc x) = submissions acc) →
  submissions (foldl f s l) = submissions s.
Proof.
  intros Hf. revert s. induction l as [|x l IH]; intros s; simpl; [done|].
  by rewrite IH, Hf.
Qed.

Lemma submissions_cancelAll s : submissions (cancelAll s) = submissions s.
Proof.
  unfold cancelAll.
  change (submissions (foldl (λ acc e, cancel_entry acc e.1 e.2)
            (set_queue [] (foldl (λ acc item, cancel_entry acc (id_of acc (job item)) item)
                             s (queue s)))
            (running (set_queue [] (foldl (λ acc item,
                        cancel_entry acc (id_of acc (job item)) item) s (queue s)))))
          = submissions s).
  rewrite submissions_foldl by (intros; apply submissions_cancel_entry).
  change (submissions (foldl (λ acc item, cancel_entry acc (id_of acc (job item)) item)
                         s (queue s)) = submissions s).
  apply submissions_foldl. intros. apply submissions_cancel_entry.
Qed.

Lemma submissions_exec s op : submissions (exec s op) = submissions s ++ submitted op.
Proof.
  destruct op; cbn [exec submitted]; rewrite ?app_nil_r.
  - unfold enqueue. cbn [snd]. rewrite submissions_drain.
    unfold submissions. simpl. by rewrite fmap_app.
  - done.
  - unfold resume. by rewrite submissions_drain.
  - unfold cancel. destruct (find_pending _ _ _) as [[item rest]|]; simpl.
    + unfold submissions. simpl. by rewrite fmap_submission_alter.
    + destruct (JsMap.get _ _); simpl; [|done].
      unfold submissions. simpl. by rewrite fmap_submission_alter.
  - apply submissions_cancelAll.
  - unfold settle. destruct (take_inflight _ _) as [[item rest]|] eqn:E; [|done].
    rewrite submissions_drain. pose proof (submissions_handlers ref o s) as H.
    unfold handlers in H. by rewrite E in H.
  - unfold submissions. simpl. by rewrite fmap_app.
  - unfold start_next. destruct (loop_condition s); [|done].
    apply submissions_loop_body.
  - done.
  - apply submissions_handlers.
Qed.

Lemma submissions_run ops s :
  submissions (run ops s) = submissions s ++ ops ≫= submitted.
Proof.
  revert s. induction ops as [|op ops IH]; intros s; simpl.
  - by rewrite app_nil_r.
  - rewrite IH, submissions_exec, <- app_assoc. done.
Qed.

(** X7. [getAllJobs] is the log of the [enqueue] calls. After any sequence
    of calls and settlements on an empty scheduler, the jobs it returns
    are, in order, one per [enqueue] call, each with the uuid, unit name,
    task and creation date it was enqueued with: no job is ever dropped,
    reordered or given another identity, whatever happens to it. *)
Theorem getAllJobs_is_enqueue_log (N : Z) (ops : list Op) :
  submission <$> getAllJobs (run ops (init N)) = ops ≫= submitted.
Proof. apply (submissions_run ops (init N)). Qed.

(** *** The jobs in progress *)


(** *** Cancellation and final statuses, in fine states *)

Lemma fine_lt N f r :
  FInv N f → r ∈ queue_refs (base f) ∨ r ∈ running_refs (base f) →
  r < length (allJobs (base f)).
Proof.
  intros (HI & _ & _) [Hq|Hr]; [by apply (inv_queue_lt _ _ HI)|].
  by apply (inv_inflight_lt _ _ HI), (running_inflight N).
Qed.

(** C2, as the code has it. In every state the scheduler reaches, also
    between the two handlers of a settlement, [cancelAll] empties the queue
    and the running map and gives status [Cancelled] to every job that was
    pending or in the running map. The jobs among them whose body has not
    settled (all the pending ones, and the running ones whose [then] or
    [catch] handler has not run) had an unsettled promise, and [cancelAll]
    itself rejects it with the message naming the job's id; no later step
    changes that rejection. A job that has settled and is still in the
    running map keeps the settlement it has: the [reject] of [cancelAll]
    does nothing to it. The bodies of the jobs that were running are not
    interrupted: they stay in flight. *)
Theorem cancelAll_rejects_pending_and_running (N : Z) (steps : list Step) :
  (1 ≤ N)%Z →
  let f := frun steps (start N) in
  let s := base f in
  let s' := cancelAll s in
  queue s' = [] ∧ running s' = JsMap.empty ∧ inflight s' = inflight s ∧
  (∀ ref, ref ∈ queue_refs s ∨ ref ∈ running_refs s →
     status_of s' ref = Some Cancelled) ∧
  (∀ ref, ref ∈ queue_refs s ∨ (ref ∈ running_refs s ∧ ref ∉ settled f) →
     promises s !! ref = Some Unsettled ∧
     promises s' !! ref = Some (Rejected (cancel_message (id_of s ref))) ∧
     ∀ later, promises (base (frun later (call OpCancelAll f))) !! ref
              = Some (Rejected (cancel_message (id_of s ref)))) ∧
  (∀ ref, ref ∈ running_refs s → ref ∈ settled f →
     ∃ p, p ≠ Unsettled ∧ promises s !! ref = Some p ∧
          promises s' !! ref = Some p ∧
          ∀ later, promises (base (frun later (call OpCancelAll f))) !! ref = Some p) ∧
  (∀ ref, ref ∈ running_refs s → ref ∈ inflight_refs s').
Proof.
  intros HN f s s'.
  pose proof (fine_reachable N steps HN) as HF. fold f in HF.
  pose proof HF as (HI & H2 & H3). fold s in HI, H2.
  destruct (cancelAll_shape s) as (Hq & Hr & Hfl & _).
  set (lq := (fun item => (id_of s (job item), item)) <$> queue s).
  assert (Hlq : job <$> lq.*2 = queue_refs s).
  { unfold lq, queue_refs. rewrite <- !list_fmap_compose. by apply list_fmap_ext. }
  assert (Hkq : ∀ e, e ∈ lq → e.1 = id_of s (job e.2)).
  { intros e (item & -> & _)%list_elem_of_fmap. done. }
  assert (Hkr : ∀ e, e ∈ running s → e.1 = id_of s (job e.2)).
  { intros [k item] Hin. by destruct (inv_running_entry _ _ HI _ _ Hin). }
  assert (F1 : frame s (cancel_pairs s lq)).
  { apply foldl_frame. intros. apply cancel_entry_frame. }
  destruct F1 as (_ & Hrun1 & _ & _ & _ & _ & Hids1).
  assert (Hs' : s' = set_running JsMap.empty
            (cancel_pairs (set_queue [] (cancel_pairs s lq)) (running s))).
  { unfold s'. by rewrite cancelAll_pairs. }
  split; [done|]. split; [done|]. split; [done|]. split; [|split; [|split]].
  - intros ref Href. pose proof (fine_lt N f ref HF Href) as Hlt. fold s in Hlt.
    rewrite Hs'. unfold status_of. simpl. destruct Href as [Hin|Hin].
    + apply (cancel_pairs_status_keep (set_queue [] (cancel_pairs s lq))).
      apply (cancel_pairs_status s lq); [by rewrite Hlq|done].
    + apply (cancel_pairs_status (set_queue [] (cancel_pairs s lq))); [done|].
      simpl. by rewrite (ids_length _ _ Hids1).
  - intros ref Href.
    assert (Hun : promises s !! ref = Some Unsettled).
    { destruct Href as [Hin|[Hin Hn]]; [by apply (inv_queue_unsettled _ _ HI)|].
      by apply (inv_running_unsettled _ H3). }
    destruct (cancel_pairs_promise s s lq ref Hkq (or_introl Hun)) as [P1 P1'].
    assert (Hrej : promises s' !! ref
                   = Some (Rejected (cancel_message (id_of s ref)))).
    { rewrite Hs'. simpl. destruct Href as [Hin|[Hin _]].
      - apply cancel_pairs_settled; [|done]. simpl. apply P1'. by rewrite Hlq.
      - by apply (cancel_pairs_promise s (set_queue [] (cancel_pairs s lq))
                    (running s) ref Hkr P1). }
    split; [done|]. split; [done|]. intros later. by apply frun_settled.
  - intros ref Hin Hst.
    destruct (inv_settled_done _ H3 ref Hst) as [_ (p & Hp & Hne)].
    exists p. split; [done|]. split; [done|].
    assert (Hp' : promises s' !! ref = Some p) by by apply cancelAll_settled.
    split; [done|]. intros later. by apply frun_settled.
  - intros ref Hin. unfold inflight_refs, s'. rewrite Hfl.
    by apply (running_inflight N).
Qed.

Lemma cancelAll_rejects_pending_and_running_witness :
  (1 ≤ 1)%Z ∧
  queue (cancelAll (base (frun (StepCall <$> two_jobs) (start 1)))) = [] ∧
  running (cancelAll (base (frun (StepCall <$> two_jobs) (start 1)))) = JsMap.empty.
Proof.
  split; [lia|].
  destruct (cancelAll_rejects_pending_and_running 1 (StepCall <$> two_jobs))
    as (H1 & H2 & _); [lia|]. by split.
Defined.

(** Job [a] has completed and is still in the running map when
    [cancelAll] is called: the job is marked [Cancelled] and its promise
    stays fulfilled. *)
Example cancelAll_after_completion :
  let f := frun [StepCall (OpEnqueue "a" "A" "t" "d" None);
                 StepThen 0 (Returned "done")] (start 1) in
  running_refs (base f) = [0] ∧
  status_of (base f) 0 = Some Completed ∧
  status_of (cancelAll (base f)) 0 = Some Cancelled ∧
  promises (cancelAll (base f)) !! 0 = Some (Fulfilled "done").
Proof. vm_compute. done. Qed.

Lemma terminal_dormant N f ref :
  FInv N f →
  status_of (base f) ref = Some Completed ∨ status_of (base f) ref = Some Failed
    ∨ status_of (base f) ref = Some Cancelled →
  ref ∉ inflight_refs (base f) →
  dormant (base f) ref.
Proof.
  intros (HI & H2 & H3) Hst Hnf. split; [|split; [|done]].
  - unfold status_of in Hst. apply lookup_lt_is_Some.
    destruct (allJobs (base f) !! ref); [by eexists|].
    destruct Hst as [?|[?|?]]; done.
  - intros Hq. pose proof (inv_pending _ H2 _ Hq) as Hp.
    destruct Hst as [?|[?|?]]; congruence.
Qed.

(** C3, as the code has it. A status [Completed], [Failed] or [Cancelled]
    is final once the job has left the scheduler: in every state the
    scheduler reaches, a job with one of these statuses whose entry is not
    in flight (its [finally] handler has run, or it was cancelled while
    pending) keeps its status through every later call and handler, and
    never comes back to the queue, the running map or the bodies in
    flight. *)
Theorem terminal_status_final (N : Z) (steps later : list Step) (ref : nat) :
  (1 ≤ N)%Z →
  let f := frun steps (start N) in
  status_of (base f) ref = Some Completed ∨ status_of (base f) ref = Some Failed
    ∨ status_of (base f) ref = Some Cancelled →
  ref ∉ inflight_refs (base f) →
  let f' := frun later f in
  status_of (base f') ref = status_of (base f) ref ∧
  (ref ∉ queue_refs (base f')) ∧ (ref ∉ running_refs (base f')) ∧
  (ref ∉ inflight_refs (base f')).
Proof.
  intros HN f Hst Hnf f'.
  pose proof (fine_reachable N steps HN) as HF. fold f in HF.
  pose proof (terminal_dormant N f ref HF Hst Hnf) as Hd.
  destruct (frun_dormant N later f ref HF Hd) as [(_ & Hnq & Hnf') Heq].
  split; [done|]. split; [done|]. split; [|done].
  intros Hr. apply Hnf'.
  apply (running_inflight N); [|done]. by apply (frun_inv N later f HF).
Qed.

Definition finished_job : list Step :=
  [StepCall (OpEnqueue "a" "A" "t" "d" None); StepThen 0 (Returned "r");
   StepFinally 0].

Lemma terminal_status_final_witness :
  status_of (base (frun [StepCall OpCancelAll; StepCall (OpEnqueue "c" "C" "t" "d" None)]
                     (frun finished_job (start 1)))) 0
  = Some Completed.
Proof.
  destruct (terminal_status_final 1 finished_job
              [StepCall OpCancelAll; StepCall (OpEnqueue "c" "C" "t" "d" None)] 0)
    as [H _].
  - lia.
  - left. reflexivity.
  - vm_compute. by intros ?%elem_of_nil.
  - rewrite H. reflexivity.
Defined.

(** Between the [then] handler and the [finally] handler of a job, the
    status [Completed] is not final: [cancel] on the job's id and
    [cancelAll] find the job in the running map and mark it [Cancelled],
    and the [finally] handler leaves it so. *)
Example completed_status_overwritten :
  let f := frun [StepCall (OpEnqueue "a" "A" "t" "d" None);
                 StepThen 0 (Returned "done")] (start 1) in
  status_of (base f) 0 = Some Completed ∧
  (cancel "a" (base f)).1 = true ∧
  status_of (base (frun [StepCall (OpCancel "a")] f)) 0 = Some Cancelled ∧
  status_of (base (frun [StepCall OpCancelAll] f)) 0 = Some Cancelled ∧
  status_of (base (frun [StepCall (OpCancel "a"); StepFinally 0] f)) 0
    = Some Cancelled.
Proof. vm_compute. done. Qed.



(** X6. Cancelling a job of the running map only marks it. With distinct
    uuids, in every state the scheduler reaches, [cancel] on the id of a
    job of the running map returns [true] and sets the job's status to
    [Cancelled]; the job keeps its slot in the running map, its body stays
    in flight, and no future is settled: queue, running map and promises
    are unchanged. The future of the job is unsettled when its [then] or
    [catch] handler has not run; when that handler has run and the
    [finally] handler has not, the future is settled already and the
    completed or failed job is marked [Cancelled] all the same. *)
Theorem cancel_running_job (N : Z) (steps : list Step) (ref : nat) :
  (1 ≤ N)%Z → NoDup (step_uuids steps) →
  let f := frun steps (start N) in
  let s := base f in
  ref ∈ running_refs s →
  let s' := (cancel (id_of s ref) s).2 in
  (cancel (id_of s ref) s).1 = true ∧
  status_of s' ref = Some Cancelled ∧
  (∀ r, r ≠ ref → status_of s' r = status_of s r) ∧
  queue s' = queue s ∧ running s' = running s ∧
  inflight s' = inflight s ∧ promises s' = promises s ∧
  (ref ∉ settled f → promises s' !! ref = Some Unsettled) ∧
  (ref ∈ settled f → ∃ p, promises s' !! ref = Some p ∧ p ≠ Unsettled).
Proof.
  intros HN Hnd f s Hrun s'.
  pose proof (fine_reachable N steps HN) as HF. fold f in HF.
  pose proof HF as (HI & H2 & H3). fold s in HI, H2.
  pose proof (inv_running_unsettled _ H3 _ Hrun) as Hun.
  pose proof (inv_settled_done _ H3 ref) as Hdone.
  apply elem_of_running_refs in Hrun as (k & item & Hin & Hj).
  destruct (inv_running_entry _ _ HI _ _ Hin) as [Hk Hfl].
  rewrite Hj in Hk, Hfl. subst k.
  pose proof (inv_inflight_lt _ _ HI _ Hfl) as Hlt.
  assert (Hnone : find_pending s (id_of s ref) (queue s) = None).
  { apply find_pending_None.
    intros (rq & Heq & Hq)%list_elem_of_fmap.
    apply (inv_queue_inflight _ _ HI _ Hq).
    rewrite (fine_distinct_ids N steps rq ref); [done|done| |done|by symmetry].
    by apply (inv_queue_lt _ _ HI). }
  assert (Hget : JsMap.get (id_of s ref) (running s) = Some item).
  { apply JsMap.elem_of_get; [apply (inv_running_keys _ _ HI)|done]. }
  assert (Hs' : s' = emit (job_cancelled (id_of s ref) (correlationId item))
                       (set_status ref Cancelled s)).
  { unfold s', cancel. by rewrite Hnone, Hget, Hj. }
  split; [unfold cancel; by rewrite Hnone, Hget|].
  rewrite Hs'. split; [|split; [|split; [|split; [|split; [|split; [|split]]]]]];
    try done.
  - unfold status_of. simpl. rewrite list_lookup_alter_eq.
    by destruct (lookup_lt_is_Some_2 _ _ Hlt) as [j ->].
  - intros r Hne. unfold status_of. simpl. by rewrite list_lookup_alter_ne.
  - intros Hst. by destruct (Hdone Hst) as [_ Hp].
Qed.

Lemma cancel_running_job_witness :
  status_of (cancel (id_of (base (frun (StepCall <$> two_jobs) (start 1))) 0)
               (base (frun (StepCall <$> two_jobs) (start 1)))).2 0
  = Some Cancelled.
Proof.
  apply (cancel_running_job 1 (StepCall <$> two_jobs) 0).
  - lia.
  - apply (bool_decide_unpack _). by vm_compute.
  - vm_compute. left.
Defined.



(** Job [a] has completed and is still in the running map: [getJobs]
    returns it among the active jobs, with status [Completed]. *)
Example getJobs_after_completion :
  let f := frun [StepCall (OpEnqueue "a" "A" "t" "d" None);
                 StepThen 0 (Returned "done")] (start 1) in
  job_status <$> getJobs (base f) = [Completed].
Proof. vm_compute. done. Qed.

(** X29. The concurrency bound holds between the handlers of a settlement
    too. In every state the scheduler reaches, also when the code that
    awaits a job's promise runs before the [finally] handler of that job,
    the running map holds at most [N] entries under distinct keys, no job
    is both pending and in the running map, and every job of the running
    map has been started and has not had its [finally] handler run. *)
Theorem running_bounded_between_handlers (N : Z) (steps : list Step) :
  (1 ≤ N)%Z →
  let s := base (frun steps (start N)) in
  (Z.of_nat (activeCount s) ≤ N)%Z ∧
  NoDup (JsMap.keys (running s)) ∧
  (∀ ref, ref ∈ queue_refs s → ref ∉ running_refs s) ∧
  (∀ ref, ref ∈ running_refs s → ref ∈ inflight_refs s).
Proof.
  intros HN s.
  destruct (fine_reachable N steps HN) as (HI & _ & _). fold s in HI.
  split; [apply (inv_bound _ _ HI)|]. split; [apply (inv_running_keys _ _ HI)|].
  split.
  - intros ref Hq Hr. by apply (running_not_queued _ _ _ HI Hr).
  - intros ref Hr. by apply (running_inflight N).
Qed.

Lemma running_bounded_between_handlers_witness :
  (1 ≤ 1)%Z ∧
  (Z.of_nat (activeCount (base (frun [StepCall (OpEnqueue "a" "A" "t" "d" None);
                                       StepCall (OpEnqueue "b" "B" "t" "d" None);
                                       StepThen 0 (Returned "done")] (start 1)))) ≤ 1)%Z.
Proof.
  split; [lia|].
  apply (running_bounded_between_handlers 1
           [StepCall (OpEnqueue "a" "A" "t" "d" None);
            StepCall (OpEnqueue "b" "B" "t" "d" None);
            StepThen 0 (Returned "done")]). lia.
Defined.

(** *** Job bodies run inside [startJob] *)

(** [item.execute()] runs the body of the job up to its first [await]
    before [startJob] returns, and that code may use every service it
    holds, the scheduler included. [W] is the state of those services, of
    which the scheduler is one part ([sched], [with_sched]);
    [execute ref w] is what the body of job [ref] does to them before its
    first [await]. The [while] loop of [drain] reads the queue and the
    running map again after each body; nothing bounds its turns, and
    [fuel] is the number of turns taken. *)
Section Bodies.
Context {W : Type}.
Variable sched : W → State.
Variable with_sched : State → W → W.
Variable execute : nat → W → W.

Fixpoint drain_loop_with (fuel : nat) (w : W) : W :=
  match fuel with
  | O => w
  | S fuel' =>
      if loop_condition (sched w) then
        match queue (sched w) with
        | item :: rest =>
            drain_loop_with fuel'
              (execute (job item)
                 (with_sched (startJob item (set_queue rest (sched w))) w))
        | [] => w
        end
      else w
  end.

Definition drain_with (fuel : nat) (w : W) : W :=
  if paused (sched w) then w else drain_loop_with fuel w.

Definition enqueue_with (fuel : nat) (uuid agentName task createdAt : string)
    (corr : option string) (w : W) : nat * W :=
  (length (allJobs (sched w)),
   drain_with fuel (with_sched (push_job uuid agentName task createdAt corr (sched w)) w)).



(** What the scheduler and the bodies preserve is preserved. *)
Lemma drain_with_preserves (P : W → Prop) (fuel : nat) (w : W) :
  (∀ item rest w, queue (sched w) = item :: rest → P w →
     P (with_sched (startJob item (set_queue rest (sched w))) w)) →
  (∀ r w, P w → P (execute r w)) →
  P w → P (drain_with fuel w).
Proof.
  intros Hs He. unfold drain_with. destruct (paused (sched w)); [done|].
  revert w. induction fuel as [|fuel IH]; intros w Hw; simpl; [done|].
  destruct (loop_condition (sched w)); [|done].
  destruct (queue (sched w)) as [|item rest] eqn:Hq; [done|].
  apply IH, He. by apply Hs.
Qed.

Hypothesis sched_with : ∀ s w, sched (with_sched s w) = s.

(** Bodies that only add jobs to the log: the log only grows. *)
Lemma drain_with_log (fuel : nat) (w : W) :
  (∀ r w, submissions (sched w) `prefix_of` submissions (sched (execute r w))) →
  submissions (sched w) `prefix_of` submissions (sched (drain_with fuel w)).
Proof.
  intros He. unfold drain_with. destruct (paused (sched w)); [done|].
  revert w. induction fuel as [|fuel IH]; intros w; simpl; [done|].
  destruct (loop_condition (sched w)) eqn:Hc; [|done].
  destruct (queue (sched w)) as [|item rest] eqn:Hq; [done|].
  etrans; [|apply IH]. etrans; [|apply He]. rewrite sched_with.
  pose proof (submissions_loop_body (sched w)) as H. unfold loop_body in H.
  rewrite Hq in H. by rewrite H.
Qed.

Lemma enqueue_with_log fuel u a t d corr (w : W) :
  (∀ r w, submissions (sched w) `prefix_of` submissions (sched (execute r w))) →
  (submissions (sched w) ++ [(u, a, t, d)])
    `prefix_of` submissions (sched (enqueue_with fuel u a t d corr w).2).
Proof.
  intros He. unfold enqueue_with. cbn [snd].
  etrans; [|by apply drain_with_log]. rewrite sched_with.
  unfold submissions. simpl. by rewrite fmap_app.
Qed.

(** Bodies that add no job to the log: [enqueue_with] adds one. *)
Lemma enqueue_with_log_one fuel u a t d corr (w : W) :
  (∀ r w, submissions (sched (execute r w)) = submissions (sched w)) →
  submissions (sched (enqueue_with fuel u a t d corr w).2)
  = submissions (sched w) ++ [(u, a, t, d)].
Proof.
  intros He. unfold enqueue_with. cbn [snd].
  set (w1 := with_sched (push_job u a t d corr (sched w)) w).
  assert (H1 : submissions (sched w1) = submissions (sched w) ++ [(u, a, t, d)]).
  { unfold w1. rewrite sched_with. unfold submissions. simpl. by rewrite fmap_app. }
  rewrite <- H1.
  apply (drain_with_preserves (fun w' => submissions (sched w') = submissions (sched w1)));
    [| |done].
  - intros item rest w' Hq Hw'. rewrite sched_with, <- Hw'.
    pose proof (submissions_loop_body (sched w')) as H. unfold loop_body in H.
    by rewrite Hq in H.
  - intros r w' Hw'. by rewrite He.
Qed.

(** Bodies that leave the scheduler alone: the scheduler goes through the
    turns of [drain_loop]. *)
Lemma drain_loop_with_quiet (fuel : nat) (w : W) :
  (∀ r w, sched (execute r w) = sched w) →
  sched (drain_loop_with fuel w) = drain_loop fuel (sched w).
Proof.
  intros He. revert w. induction fuel as [|fuel IH]; intros w; simpl; [done|].
  destruct (loop_condition (sched w)) eqn:Hc; [|done]. unfold loop_body.
  unfold loop_condition in Hc.
  destruct (queue (sched w)) as [|item rest].
  - simpl in Hc. by rewrite andb_false_r in Hc.
  - by rewrite IH, He, sched_with.
Qed.

End Bodies.

Lemma drain_loop_enough (fuel fuel' : nat) (s : State) :
  length (queue s) ≤ fuel → length (queue s) ≤ fuel' →
  drain_loop fuel s = drain_loop fuel' s.
Proof.
  revert fuel' s. induction fuel as [|fuel IH]; intros fuel' s H1 H2.
  - assert (Hc : loop_condition s = false).
    { unfold loop_condition. destruct (queue s); [|simpl in H1; lia].
      simpl. apply andb_false_r. }
    destruct fuel'; simpl; [done|]. by rewrite Hc.
  - simpl. destruct (loop_condition s) eqn:Hc; [|destruct fuel'; simpl; by rewrite ?Hc].
    assert (Hq : ∃ item rest, queue s = item :: rest).
    { unfold loop_condition in Hc. destruct (queue s) as [|item rest]; [|by eauto].
      simpl in Hc. by rewrite andb_false_r in Hc. }
    destruct Hq as (item & rest & Hq). rewrite Hq in H1, H2. simpl in H1, H2.
    destruct fuel' as [|fuel']; [lia|]. simpl. rewrite Hc.
    apply IH; unfold loop_body; rewrite Hq; simpl; lia.
Qed.

(** With bodies that leave the scheduler alone and as many turns as there
    are pending jobs, [enqueue_with] does to the scheduler what [enqueue]
    does. *)
Lemma enqueue_with_quiet {W} (sched : W → State) (with_sched : State → W → W)
    (execute : nat → W → W) fuel u a t d corr (w : W) :
  (∀ s w, sched (with_sched s w) = s) →
  (∀ r w, sched (execute r w) = sched w) →
  S (length (queue (sched w))) ≤ fuel →
  (enqueue_with sched with_sched execute fuel u a t d corr w).1
    = (enqueue u a t d corr (sched w)).1 ∧
  sched (enqueue_with sched with_sched execute fuel u a t d corr w).2
    = (enqueue u a t d corr (sched w)).2.
Proof.
  intros Hsw He Hfuel. split; [done|]. unfold enqueue_with, enqueue, drain_with, drain.
  cbn [snd]. rewrite Hsw.
  destruct (paused (push_job u a t d corr (sched w))); [by rewrite Hsw|].
  rewrite drain_loop_with_quiet, Hsw by done.
  apply drain_loop_enough; simpl; rewrite length_app; simpl; lia.
Qed.

(** The scheduler on its own, with bodies that do nothing. *)
Example enqueue_with_no_bodies :
  (enqueue_with id (fun s _ => s) (fun _ s => s) 1 "a" "A" "t" "d" None (init 1)).2
  = (enqueue "a" "A" "t" "d" None (init 1)).2.
Proof. reflexivity. Qed.

End Scheduler.

(** ** Claim graph (claim-graph.ts) *)

Module ClaimGraph.

Inductive ClaimLinkType := supports | challenges.

Record ClaimLink := mkLink {
  targetClaimId : string;
  type : ClaimLinkType
}.

Record Claim := mkClaim {
  id : string;
  statement : string;
  evidence : list string;
  confidence : Q;
  author : string;
  links : list ClaimLink;
  createdAt : string
}.

Inductive Event :=
  | claim_created (claimId : string)
  | claim_challenged (claimId challengerId : string)
  | claim_supported (claimId supporterId : string).

Record State := mkState {
  claims : JsMap.t Claim;
  emitted : list Event
}.

Definition init : State := mkState JsMap.empty [].

Record ClaimSummary := mkSummary {
  total : nat;
  consensus : list string;
  conflicts : list string;
  sorted_claims : list Claim
}.

Definition with_confidence (q : Q) (c : Claim) : Claim :=
  mkClaim (id c) (statement c) (evidence c) q (author c) (links c) (createdAt c).

Definition push_link (l : ClaimLink) (c : Claim) : Claim :=
  mkClaim (id c) (statement c) (evidence c) (confidence c) (author c)
          (links c ++ [l]) (createdAt c).

Definition emit (e : Event) (g : State) : State :=
  mkState (claims g) (emitted g ++ [e]).

Definition set_claims (m : JsMap.t Claim) (g : State) : State :=
  mkState m (emitted g).

(** [addClaim]; the caller's [evidence = []] and [confidence = 0.5]
    defaults are [addClaim_default]. *)
Definition addClaim (uuid statement author : string) (evidence : list string)
    (confidence : Q) (createdAt : string) (g : State) : Claim * State :=
  let claim := mkClaim uuid statement evidence confidence author [] createdAt in
  (claim, emit (claim_created uuid) (set_claims (JsMap.set uuid claim (claims g)) g)).

Definition addClaim_default (uuid statement author createdAt : string) (g : State)
    : Claim * State :=
  addClaim uuid statement author [] (5 # 10) createdAt g.

Definition getClaim (i : string) (g : State) : option Claim :=
  JsMap.get i (claims g).

Definition listClaims (g : State) : list Claim := JsMap.values (claims g).

Definition not_found (i : string) : string := ("Claim not found: " ++ i)%string.

(** [addLink]: [inl] is the thrown error. The link is pushed on the source
    claim, which the map holds by reference. *)
Definition addLink (targetId sourceId : string) (ty : ClaimLinkType) (g : State)
    : string + State :=
  match getClaim targetId g, getClaim sourceId g with
  | Some _, Some source =>
      inr (set_claims
             (JsMap.set sourceId (push_link (mkLink targetId ty) source) (claims g)) g)
  | None, _ => inl (not_found targetId)
  | Some _, None => inl (not_found sourceId)
  end.

(** [Math.max(0, x)] and [Math.min(1, x)] *)
Definition math_max (a b : Q) : Q := if Qle_bool a b then b else a.
Definition math_min (a b : Q) : Q := if Qle_bool a b then a else b.

Definition adjust (f : Q → Q) (targetId : string) (g : State) : State :=
  match getClaim targetId g with
  | Some target =>
      set_claims (JsMap.set targetId (with_confidence (f (confidence target)) target)
                            (claims g)) g
  | None => g
  end.

Definition challengeClaim (targetClaimId challengerClaimId : string) (g : State)
    : string + State :=
  match addLink targetClaimId challengerClaimId challenges g with
  | inl err => inl err
  | inr g1 =>
      let g2 := adjust (fun c => math_max 0 (c - (1 # 10))) targetClaimId g1 in
      inr (emit (claim_challenged targetClaimId challengerClaimId) g2)
  end.

Definition supportClaim (targetClaimId supporterClaimId : string) (g : State)
    : string + State :=
  match addLink targetClaimId supporterClaimId supports g with
  | inl err => inl err
  | inr g1 =>
      let g2 := adjust (fun c => math_min 1 (c + (1 # 10))) targetClaimId g1 in
      inr (emit (claim_supported targetClaimId supporterClaimId) g2)
  end.

(** The two nested [for] loops of [summarize] that fill [challengedIds]. *)
Definition add_challenged (acc : gset string) (l : ClaimLink) : gset string :=
  match type l with
  | challenges => {[ targetClaimId l ]} ∪ acc
  | supports => acc
  end.

Definition challengedIds (all : list Claim) : gset string :=
  foldl (fun acc claim => foldl add_challenged acc (links claim)) ∅ all.

Definition is_challenged (all : list Claim) (c : Claim) : bool :=
  bool_decide (id c ∈ challengedIds all).

(** The claims kept by the two [filter] calls of [summarize]. *)
Definition consensus_claims (g : State) : list Claim :=
  List.filter
    (fun c => Qle_bool (7 # 10) (confidence c) && negb (is_challenged (listClaims g) c))
    (listClaims g).

Definition conflict_claims (g : State) : list Claim :=
  List.filter (is_challenged (listClaims g)) (listClaims g).

(** [[...all].sort((a, b) => b.confidence - a.confidence)]: a stable sort,
    by confidence, descending. *)
Fixpoint insert_desc (c : Claim) (l : list Claim) : list Claim :=
  match l with
  | [] => [c]
  | x :: l' =>
      if Qle_bool (confidence c) (confidence x) then x :: insert_desc c l'
      else c :: x :: l'
  end.

Definition sort_desc (l : list Claim) : list Claim :=
  foldl (fun acc c => insert_desc c acc) [] l.

Definition summarize (g : State) : ClaimSummary :=
  let all := listClaims g in
  mkSummary (length all)
            (statement <$> consensus_claims g)
            (statement <$> conflict_claims g)
            (sort_desc all).

Definition clear (g : State) : State := set_claims JsMap.empty g.

Inductive Op :=
  | OpAddClaim (uuid statement author : string) (evidence : list string)
               (confidence : Q) (createdAt : string)
  | OpChallenge (targetClaimId challengerClaimId : string)
  | OpSupport (targetClaimId supporterClaimId : string).

(** A call that throws leaves the graph as it was. *)
Definition exec (g : State) (op : Op) : State :=
  match op with
  | OpAddClaim u st a ev c d => (addClaim u st a ev c d g).2
  | OpChallenge t c => match challengeClaim t c g with inl _ => g | inr g' => g' end
  | OpSupport t c => match supportClaim t c g with inl _ => g | inr g' => g' end
  end.

Definition run (ops : list Op) (g : State) : State := foldl exec g ops.

(** Scenario 3 of the spec: 0.6 challenged once gives 0.5, in conflicts. *)
Example challenge_lowers_confidence :
  let g := run [OpAddClaim "e1" "E1" "a" [] (6 # 10) "d";
                OpAddClaim "e2" "E2" "b" [] (5 # 10) "d";
                OpChallenge "e1" "e2"] init in
  (confidence <$> getClaim "e1" g) = Some (50 # 100) ∧
  conflicts (summarize g) = ["E1"%string] ∧ consensus (summarize g) = [].
Proof. vm_compute. done. Qed.

(** *** The set of challenged ids *)

Lemma elem_of_inner_loop (i : string) (ls : list ClaimLink) (acc : gset string) :
  i ∈ foldl add_challenged acc ls ↔
  i ∈ acc ∨ ∃ l, l ∈ ls ∧ type l = challenges ∧ targetClaimId l = i.
Proof.
  revert acc. induction ls as [|l ls IH]; intros acc; simpl.
  - split; [by left|]. intros [?|(l & ?%elem_of_nil & _)]; done.
  - rewrite IH. unfold add_challenged. split.
    + intros [Hacc|(l' & Hin & Hty & Htg)].
      * destruct (type l) eqn:Hty; [by left|].
        apply elem_of_union in Hacc as [->%elem_of_singleton|?]; [|by left].
        right. exists l. split; [left|done].
      * right. exists l'. split; [by right|done].
    + intros [Hacc|(l' & [->|Hin]%elem_of_cons & Hty & Htg)].
      * left. destruct (type l); [done|]. apply elem_of_union. by right.
      * left. rewrite Hty. apply elem_of_union. left. by apply elem_of_singleton.
      * right. by exists l'.
Qed.

Lemma elem_of_outer_loop (i : string) (cs : list Claim) (acc : gset string) :
  i ∈ foldl (fun acc claim => foldl add_challenged acc (links claim)) acc cs ↔
  i ∈ acc ∨ ∃ c l, c ∈ cs ∧ l ∈ links c ∧ type l = challenges ∧ targetClaimId l = i.
Proof.
  revert acc. induction cs as [|c cs IH]; intros acc; simpl.
  - split; [by left|]. intros [?|(c & l & ?%elem_of_nil & _)]; done.
  - rewrite IH, elem_of_inner_loop. split.
    + intros [[?|(l & Hin & Hty & Htg)]|(c' & l & Hc & Hrest)].
      * by left.
      * right. exists c, l. split; [left|done].
      * right. exists c', l. split; [by right|done].
    + intros [?|(c' & l & [->|Hc]%elem_of_cons & Hl & Hty & Htg)].
      * left. by left.
      * left. right. by exists l.
      * right. by exists c', l.
Qed.

(** Some claim of the graph, possibly [c] itself, holds a [challenges]
    link whose target is the id of [c]. *)
Definition challenged_by_some (g : State) (c : Claim) : Prop :=
  ∃ c' l, c' ∈ listClaims g ∧ l ∈ links c' ∧
          type l = challenges ∧ targetClaimId l = id c.

Lemma is_challenged_iff g c :
  is_challenged (listClaims g) c = true ↔ challenged_by_some g c.
Proof.
  unfold is_challenged, challenged_by_some, challengedIds.
  rewrite bool_decide_eq_true, elem_of_outer_loop. split.
  - intros [?%elem_of_empty|H]; done.
  - intros H. by right.
Qed.

(** C5, as the code has it. [summarize] lists in [conflicts] the
    statements of exactly the claims whose id is the target of a
    [challenges] link held by some claim of the graph (the claim itself
    included), lists in [consensus] the statements of exactly the claims
    with confidence at least 0.7 that are not such a target, and selects
    no claim for both lists. *)
Theorem summarize_selects (g : State) :
  conflicts (summarize g) = statement <$> conflict_claims g ∧
  consensus (summarize g) = statement <$> consensus_claims g ∧
  (∀ c, c ∈ conflict_claims g ↔ c ∈ listClaims g ∧ challenged_by_some g c) ∧
  (∀ c, c ∈ consensus_claims g ↔
        c ∈ listClaims g ∧ (7 # 10 <= confidence c)%Q ∧ ¬ challenged_by_some g c) ∧
  (∀ c, c ∈ consensus_claims g → c ∉ conflict_claims g).
Proof.
  assert (Hconf : ∀ c, c ∈ conflict_claims g ↔
                       c ∈ listClaims g ∧ challenged_by_some g c).
  { intros c. unfold conflict_claims.
    rewrite list_elem_of_In, filter_In, <- list_elem_of_In.
    by rewrite is_challenged_iff. }
  assert (Hcons : ∀ c, c ∈ consensus_claims g ↔
            c ∈ listClaims g ∧ (7 # 10 <= confidence c)%Q ∧ ¬ challenged_by_some g c).
  { intros c. unfold consensus_claims.
    rewrite list_elem_of_In, filter_In, <- list_elem_of_In.
    rewrite andb_true_iff, Qle_bool_iff, negb_true_iff.
    rewrite <- is_challenged_iff. destruct (is_challenged (listClaims g) c).
    - split; [by intros (_ & _ & ?)|]. intros (_ & _ & H). by destruct H.
    - split; [|by intros (? & ? & _)]. intros (? & ? & _).
      split; [done|]. split; [done|]. discriminate. }
  split; [done|]. split; [done|]. split; [done|]. split; [done|].
  intros c (_ & _ & Hno)%Hcons (_ & Hyes)%Hconf. by apply Hno.
Qed.

(** C5 as the spec has it fails: a claim that challenges itself is listed
    in [conflicts] although no other claim links to it (the graph holds
    that claim alone). *)
Lemma self_challenge_in_conflicts :
  let g := run [OpAddClaim "c1" "S1" "a" [] (5 # 10) "d"; OpChallenge "c1" "c1"] init in
  conflicts (summarize g) = ["S1"%string] ∧
  (id <$> listClaims g) = ["c1"%string] ∧
  (links <$> listClaims g) = [[mkLink "c1" challenges]].
Proof. vm_compute. done. Qed.

(** The two lists hold statements: two claims with the same statement can
    put it in both. *)
Example same_statement_in_both_lists :
  let g := run [OpAddClaim "c1" "X" "a" [] (9 # 10) "d";
                OpAddClaim "c2" "X" "b" [] (5 # 10) "d";
                OpChallenge "c2" "c1"] init in
  consensus (summarize g) = ["X"%string] ∧ conflicts (summarize g) = ["X"%string].
Proof. vm_compute. done. Qed.

(** *** Confidence range *)

Definition in_range (q : Q) : Prop := (0 <= q)%Q ∧ (q <= 1)%Q.

Definition all_in_range (g : State) : Prop :=
  ∀ c, c ∈ listClaims g → in_range (confidence c).

(** The [addClaim] calls of a trace are given a confidence in [0,1]. *)
Definition valid_op (op : Op) : Prop :=
  match op with
  | OpAddClaim _ _ _ _ c _ => in_range c
  | _ => True
  end.

Lemma elem_of_values_set k (v c : Claim) (m : JsMap.t Claim) :
  c ∈ JsMap.values (JsMap.set k v m) → c = v ∨ c ∈ JsMap.values m.
Proof.
  unfold JsMap.values.
  intros [[k' c'] [-> [[= -> ->]|Hin]%JsMap.elem_of_set]]%list_elem_of_fmap.
  - by left.
  - right. apply list_elem_of_fmap. by exists (k', c').
Qed.

Lemma get_values k (c : Claim) (m : JsMap.t Claim) :
  JsMap.get k m = Some c → c ∈ JsMap.values m.
Proof.
  intros H%JsMap.get_elem_of. unfold JsMap.values.
  apply list_elem_of_fmap. by exists (k, c).
Qed.

Lemma challenge_step_in_range q :
  in_range q → in_range (math_max 0 (q - (1 # 10))).
Proof.
  intros [H0 H1]. unfold math_max, in_range.
  destruct (Qle_bool 0 (q - (1 # 10))) eqn:E.
  - apply Qle_bool_iff in E. split; lra.
  - split; lra.
Qed.

Lemma support_step_in_range q :
  in_range q → in_range (math_min 1 (q + (1 # 10))).
Proof.
  intros [H0 H1]. unfold math_min, in_range.
  destruct (Qle_bool 1 (q + (1 # 10))) eqn:E.
  - split; lra.
  - assert (¬ (1 <= q + (1 # 10))%Q) as Hn.
    { intros H%Qle_bool_iff. congruence. }
    split; lra.
Qed.

Lemma addLink_in_range t src ty g g' :
  all_in_range g → addLink t src ty g = inr g' → all_in_range g'.
Proof.
  unfold addLink, getClaim. intros Hg.
  destruct (JsMap.get t (claims g)) as [tc|]; [|done].
  destruct (JsMap.get src (claims g)) as [sc|] eqn:Hs; [|done].
  intros [= <-] c [->|Hin]%elem_of_values_set.
  - simpl. apply Hg. by apply (get_values src).
  - by apply Hg.
Qed.

Lemma adjust_in_range f t g :
  (∀ q, in_range q → in_range (f q)) → all_in_range g → all_in_range (adjust f t g).
Proof.
  intros Hf Hg. unfold adjust, getClaim.
  destruct (JsMap.get t (claims g)) as [tc|] eqn:Ht; [|done].
  intros c [->|Hin]%elem_of_values_set.
  - simpl. apply Hf, Hg. by apply (get_values t).
  - by apply Hg.
Qed.

Lemma exec_in_range g op : valid_op op → all_in_range g → all_in_range (exec g op).
Proof.
  intros Hop Hg. destruct op as [u st a ev q d|t c|t c]; simpl.
  - intros c [->|Hin]%elem_of_values_set; [exact Hop|by apply Hg].
  - unfold challengeClaim.
    destruct (addLink t c challenges g) as [err|g1] eqn:E; [done|].
    apply (adjust_in_range _ t g1); [apply challenge_step_in_range|].
    by apply (addLink_in_range _ _ _ _ _ Hg E).
  - unfold supportClaim.
    destruct (addLink t c supports g) as [err|g1] eqn:E; [done|].
    apply (adjust_in_range _ t g1); [apply support_step_in_range|].
    by apply (addLink_in_range _ _ _ _ _ Hg E).
Qed.

Lemma run_in_range ops g :
  Forall valid_op ops → all_in_range g → all_in_range (run ops g).
Proof.
  revert g. induction ops as [|op ops IH]; intros g Hops Hg; simpl; [done|].
  apply Forall_cons in Hops as [Hop Hops]. apply IH; [done|]. by apply exec_in_range.
Qed.

(** C6. A claim is created with a confidence from 0 to 1 (the data model
    of [Claim]); any sequence of addClaim / challengeClaim / supportClaim
    calls then leaves the confidence of every claim of the graph within
    [0,1]: a challenge subtracts 0.1 and stops at 0, a support adds 0.1 and
    stops at 1. *)
Theorem confidence_stays_in_range (ops : list Op) :
  Forall valid_op ops →
  ∀ c, c ∈ listClaims (run ops init) →
       (0 <= confidence c)%Q ∧ (confidence c <= 1)%Q.
Proof.
  intros Hops. apply (run_in_range ops init Hops).
  by intros c ?%elem_of_nil.
Qed.

Definition support_twice : list Op :=
  [OpAddClaim "c1" "S1" "a" [] (95 # 100) "d";
   OpAddClaim "c2" "S2" "b" [] (5 # 100) "d";
   OpSupport "c1" "c2"; OpSupport "c1" "c2"; OpChallenge "c2" "c1"].

Lemma confidence_stays_in_range_witness :
  Forall valid_op support_twice ∧
  ∀ c, c ∈ listClaims (run support_twice init) →
       (0 <= confidence c)%Q ∧ (confidence c <= 1)%Q.
Proof.
  assert (H : Forall valid_op support_twice).
  { repeat constructor; vm_compute; discriminate. }
  split; [exact H|]. exact (confidence_stays_in_range support_twice H).
Defined.

(** The same holds claim by claim: the confidence of a claim is within
    [0,1] when the [addClaim] calls that created it (the calls whose uuid
    is its id) were given a confidence within [0,1], whatever the other
    claims were given. *)
Definition added_in_range (cid : string) (op : Op) : Prop :=
  match op with
  | OpAddClaim u _ _ _ c _ => u = cid → in_range c
  | _ => True
  end.

Definition in_range_at (cid : string) (g : State) : Prop :=
  ∀ c, c ∈ listClaims g → id c = cid → in_range (confidence c).

Lemma addLink_in_range_at cid t src ty g g' :
  in_range_at cid g → addLink t src ty g = inr g' → in_range_at cid g'.
Proof.
  unfold addLink, getClaim. intros Hg.
  destruct (JsMap.get t (claims g)) as [tc|]; [|done].
  destruct (JsMap.get src (claims g)) as [sc|] eqn:Hs; [|done].
  intros [= <-] c [->|Hin]%elem_of_values_set.
  - simpl. apply Hg. by apply (get_values src).
  - by apply Hg.
Qed.

Lemma adjust_in_range_at cid f t g :
  (∀ q, in_range q → in_range (f q)) → in_range_at cid g →
  in_range_at cid (adjust f t g).
Proof.
  intros Hf Hg. unfold adjust, getClaim.
  destruct (JsMap.get t (claims g)) as [tc|] eqn:Ht; [|done].
  intros c [->|Hin]%elem_of_values_set.
  - simpl. intros Hid. apply Hf, Hg; [|done]. by apply (get_values t).
  - by apply Hg.
Qed.

Lemma exec_in_range_at cid g op :
  added_in_range cid op → in_range_at cid g → in_range_at cid (exec g op).
Proof.
  intros Hop Hg. destruct op as [u st a ev q d|t c|t c]; simpl.
  - intros c [->|Hin]%elem_of_values_set; [exact Hop|by apply Hg].
  - unfold challengeClaim.
    destruct (addLink t c challenges g) as [err|g1] eqn:E; [done|].
    apply (adjust_in_range_at cid _ t g1); [apply challenge_step_in_range|].
    by apply (addLink_in_range_at _ _ _ _ _ _ Hg E).
  - unfold supportClaim.
    destruct (addLink t c supports g) as [err|g1] eqn:E; [done|].
    apply (adjust_in_range_at cid _ t g1); [apply support_step_in_range|].
    by apply (addLink_in_range_at _ _ _ _ _ _ Hg E).
Qed.

(** X30. The confidence of a claim depends on that claim alone. After any
    sequence of addClaim / challengeClaim / supportClaim calls, a claim of
    the graph has a confidence within [0,1] when every [addClaim] call made
    with its id was given a confidence within [0,1]; the confidences given
    to the other claims do not matter. *)
Theorem confidence_of_claim_in_range (ops : list Op) (cid : string) :
  Forall (added_in_range cid) ops →
  ∀ c, c ∈ listClaims (run ops init) → id c = cid →
       (0 <= confidence c)%Q ∧ (confidence c <= 1)%Q.
Proof.
  intros Hops.
  assert (H : ∀ g, in_range_at cid g → in_range_at cid (run ops g)).
  { induction Hops as [|op ops Hop Hops IH]; intros g Hg; simpl; [done|].
    apply IH. by apply exec_in_range_at. }
  apply H. by intros c ?%elem_of_nil.
Qed.

Definition one_claim_out_of_range : list Op :=
  [OpAddClaim "c1" "S1" "a" [] (5 # 10) "d";
   OpAddClaim "c2" "S2" "b" [] 5 "d";
   OpChallenge "c1" "c2"; OpChallenge "c2" "c1"].

Lemma confidence_of_claim_in_range_witness :
  Forall (added_in_range "c1") one_claim_out_of_range ∧
  ∀ c, c ∈ listClaims (run one_claim_out_of_range init) → id c = "c1"%string →
       (0 <= confidence c)%Q ∧ (confidence c <= 1)%Q.
Proof.
  assert (H : Forall (added_in_range "c1") one_claim_out_of_range).
  { repeat constructor; simpl; try done; intros _; vm_compute; split; discriminate. }
  split; [exact H|]. exact (confidence_of_claim_in_range one_claim_out_of_range "c1" H).
Defined.

(** [addClaim] stores the confidence it is given and does not check it.
    For values outside the data model: a claim added with confidence 5 and
    then challenged has confidence 4.9; a claim added with confidence -3
    and then supported has confidence -2.9. *)
Example addClaim_keeps_given_confidence :
  let g := run [OpAddClaim "c1" "S1" "a" [] 5 "d";
                OpAddClaim "c2" "S2" "b" [] (-3) "d";
                OpChallenge "c1" "c2"; OpSupport "c2" "c1"] init in
  (confidence <$> getClaim "c1" g) = Some (49 # 10) ∧ (1 < 49 # 10)%Q ∧
  (confidence <$> getClaim "c2" g) = Some (-29 # 10) ∧ (-29 # 10 < 0)%Q.
Proof. vm_compute. done. Qed.

(** *** The sorted list of [summarize] *)

(** [a] may come before [b] in the sorted list. *)
Definition desc (a b : Claim) : Prop := (confidence b <= confidence a)%Q.

Definition same_confidence (q : Q) (c : Claim) : bool := Qeq_bool (confidence c) q.

Lemma insert_desc_perm c l : insert_desc c l ≡ₚ c :: l.
Proof.
  induction l as [|x l IH]; simpl; [done|].
  destruct (Qle_bool (confidence c) (confidence x)); [|done].
  rewrite IH. apply Permutation_swap.
Qed.

Lemma fold_insert_perm l acc :
  foldl (fun acc c => insert_desc c acc) acc l ≡ₚ acc ++ l.
Proof.
  revert acc. induction l as [|c l IH]; intros acc; simpl.
  - by rewrite app_nil_r.
  - rewrite IH, insert_desc_perm. by rewrite <- Permutation_middle.
Qed.

Lemma insert_desc_sorted c l :
  StronglySorted desc l → StronglySorted desc (insert_desc c l).
Proof.
  induction 1 as [|x l Hl IH Hx]; simpl.
  - repeat constructor.
  - destruct (Qle_bool (confidence c) (confidence x)) eqn:E.
    + apply Qle_bool_iff in E. constructor; [done|].
      rewrite insert_desc_perm. by constructor.
    + assert (Hlt : (confidence x < confidence c)%Q).
      { apply Qnot_le_lt. intros H%Qle_bool_iff. congruence. }
      constructor; [by constructor|]. constructor.
      * unfold desc. lra.
      * eapply Forall_impl; [exact Hx|]. unfold desc. intros y Hy. lra.
Qed.

Lemma fold_insert_sorted l acc :
  StronglySorted desc acc →
  StronglySorted desc (foldl (fun acc c => insert_desc c acc) acc l).
Proof.
  revert acc. induction l as [|c l IH]; intros acc Hacc; simpl; [done|].
  by apply IH, insert_desc_sorted.
Qed.

Lemma filter_below q l :
  Forall (λ y, (confidence y < q)%Q) l → List.filter (same_confidence q) l = [].
Proof.
  induction 1 as [|y l Hy Hl IH]; simpl; [done|].
  unfold same_confidence at 1. destruct (Qeq_bool (confidence y) q) eqn:E; [|done].
  apply Qeq_bool_iff in E. lra.
Qed.

Lemma filter_insert_desc q c l :
  StronglySorted desc l →
  List.filter (same_confidence q) (insert_desc c l)
  = List.filter (same_confidence q) l ++ List.filter (same_confidence q) [c].
Proof.
  induction 1 as [|x l Hl IH Hx]; [done|].
  cbn [insert_desc]. destruct (Qle_bool (confidence c) (confidence x)) eqn:E.
  - cbn [List.filter]. rewrite IH.
    destruct (same_confidence q x); [done|done].
  - assert (Hlt : (confidence x < confidence c)%Q).
    { apply Qnot_le_lt. intros H%Qle_bool_iff. congruence. }
    change (c :: x :: l) with ([c] ++ x :: l). rewrite List.filter_app.
    destruct (same_confidence q c) eqn:Hc.
    + rewrite (filter_below q (x :: l)); [by rewrite app_nil_r|].
      apply Qeq_bool_iff in Hc. constructor; [lra|].
      eapply Forall_impl; [exact Hx|]. unfold desc. intros y Hy. lra.
    + cbn [List.filter]. rewrite Hc. by rewrite app_nil_r.
Qed.

Lemma filter_fold_insert q l acc :
  StronglySorted desc acc →
  List.filter (same_confidence q) (foldl (fun acc c => insert_desc c acc) acc l)
  = List.filter (same_confidence q) acc ++ List.filter (same_confidence q) l.
Proof.
  revert acc. induction l as [|c l IH]; intros acc Hacc.
  - by rewrite app_nil_r.
  - cbn [foldl]. rewrite IH by by apply insert_desc_sorted.
    rewrite filter_insert_desc by done. rewrite <- app_assoc.
    by rewrite <- List.filter_app.
Qed.

(** X9. The claims of a summary are the claims of the graph sorted by
    confidence. For every graph, [summarize().claims] is a rearrangement
    of [listClaims()], no claim has a higher confidence than a claim
    before it, claims of equal confidence keep the order they were added
    in, and [total] is the number of claims. *)
Theorem summary_sorted_by_confidence (g : State) :
  sorted_claims (summarize g) ≡ₚ listClaims g ∧
  StronglySorted desc (sorted_claims (summarize g)) ∧
  (∀ q, List.filter (same_confidence q) (sorted_claims (summarize g))
        = List.filter (same_confidence q) (listClaims g)) ∧
  total (summarize g) = length (sorted_claims (summarize g)).
Proof.
  cbn [summarize sorted_claims total]. unfold sort_desc.
  split; [|split; [|split]].
  - apply (fold_insert_perm (listClaims g) []).
  - apply fold_insert_sorted. constructor.
  - intros q. by rewrite filter_fold_insert by constructor.
  - by rewrite (fold_insert_perm (listClaims g) []).
Qed.

(** *** Links and confidence *)

(** The claim a successful [challengeClaim] or [supportClaim] leaves under
    the id [i], given the claim [c] that was there. *)
Definition linked (ty : ClaimLinkType) (f : Q → Q) (t src i : string) (c : Claim)
    : Claim :=
  let c1 := if String.eqb i src then push_link (mkLink t ty) c else c in
  if String.eqb i t then with_confidence (f (confidence c1)) c1 else c1.

Definition link_and_adjust (ty : ClaimLinkType) (f : Q → Q) (t src : string)
    (g : State) : string + State :=
  match addLink t src ty g with
  | inl err => inl err
  | inr g1 => inr (adjust f t g1)
  end.

Lemma link_and_adjust_spec ty f t src g :
  match getClaim t g, getClaim src g with
  | None, _ => link_and_adjust ty f t src g = inl (not_found t)
  | Some _, None => link_and_adjust ty f t src g = inl (not_found src)
  | Some _, Some _ =>
      ∃ g', link_and_adjust ty f t src g = inr g' ∧
            (∀ i, getClaim i g' = linked ty f t src i <$> getClaim i g) ∧
            JsMap.keys (claims g') = JsMap.keys (claims g) ∧
            emitted g' = emitted g
  end.
Proof.
  unfold link_and_adjust, addLink.
  destruct (getClaim t g) as [target|] eqn:Ht; [|done].
  destruct (getClaim src g) as [source|] eqn:Hs; [|done].
  set (g1 := set_claims _ g).
  assert (H1 : ∀ i, getClaim i g1
    = (λ c, if String.eqb i src then push_link (mkLink t ty) c else c) <$> getClaim i g).
  { intros i. unfold getClaim in *. unfold g1. simpl.
    destruct (String.eqb_spec i src) as [->|Hne].
    - by rewrite JsMap.get_set_eq, Hs.
    - rewrite JsMap.get_set_ne by done. by destruct (JsMap.get i (claims g)). }
  assert (K1 : JsMap.keys (claims g1) = JsMap.keys (claims g)).
  { unfold g1. simpl. apply JsMap.keys_set_in. by apply (JsMap.get_Some_keys _ source). }
  assert (E1 : emitted g1 = emitted g) by done.
  pose proof (H1 t) as Ht1. rewrite Ht in Ht1.
  clearbody g1. unfold adjust. rewrite Ht1. cbn [fmap option_fmap option_map].
  eexists. split; [done|]. split; [|split].
  - intros i. unfold linked. unfold getClaim at 1. cbn [claims set_claims].
    destruct (String.eqb_spec i t) as [->|Hne].
    + rewrite JsMap.get_set_eq. by rewrite Ht.
    + rewrite JsMap.get_set_ne by done. apply H1.
  - cbn [claims set_claims]. rewrite JsMap.keys_set_in; [done|].
    rewrite K1. by apply (JsMap.get_Some_keys _ target).
  - done.
Qed.

(** X10. What [challengeClaim] does. It throws "Claim not found" naming
    the target when the target is missing, and naming the challenger when
    only the challenger is missing. Otherwise it succeeds: the challenger
    gains one [challenges] link to the target at the end of its links, the
    target's confidence becomes [max 0 (confidence - 0.1)], every other
    claim and the order of the claims are unchanged, and one
    [claim:challenged] event is emitted. *)
Theorem challengeClaim_effect (t c : string) (g : State) :
  match getClaim t g, getClaim c g with
  | None, _ => challengeClaim t c g = inl (not_found t)
  | Some _, None => challengeClaim t c g = inl (not_found c)
  | Some _, Some _ =>
      ∃ g', challengeClaim t c g = inr g' ∧
        (∀ i, getClaim i g'
              = linked challenges (fun q => math_max 0 (q - (1 # 10))) t c i
                  <$> getClaim i g) ∧
        JsMap.keys (claims g') = JsMap.keys (claims g) ∧
        emitted g' = emitted g ++ [claim_challenged t c]
  end.
Proof.
  pose proof (link_and_adjust_spec challenges
                (fun q => math_max 0 (q - (1 # 10))) t c g) as H.
  unfold link_and_adjust in H. unfold challengeClaim.
  destruct (getClaim t g); [|by destruct (addLink t c challenges g); inversion H].
  destruct (getClaim c g); [|by destruct (addLink t c challenges g); inversion H].
  destruct H as (g' & H & Hget & Hkeys & Hem).
  destruct (addLink t c challenges g) as [|g1]; [done|].
  injection H as <-. eexists. split; [done|]. split; [done|]. split; [done|].
  simpl. by rewrite Hem.
Qed.

(** X11. What [supportClaim] does. It throws "Claim not found" naming the
    target when the target is missing, and naming the supporter when only
    the supporter is missing. Otherwise it succeeds: the supporter gains
    one [supports] link to the target at the end of its links, the
    target's confidence becomes [min 1 (confidence + 0.1)], every other
    claim and the order of the claims are unchanged, and one
    [claim:supported] event is emitted. *)
Theorem supportClaim_effect (t c : string) (g : State) :
  match getClaim t g, getClaim c g with
  | None, _ => supportClaim t c g = inl (not_found t)
  | Some _, None => supportClaim t c g = inl (not_found c)
  | Some _, Some _ =>
      ∃ g', supportClaim t c g = inr g' ∧
        (∀ i, getClaim i g'
              = linked supports (fun q => math_min 1 (q + (1 # 10))) t c i
                  <$> getClaim i g) ∧
        JsMap.keys (claims g') = JsMap.keys (claims g) ∧
        emitted g' = emitted g ++ [claim_supported t c]
  end.
Proof.
  pose proof (link_and_adjust_spec supports
                (fun q => math_min 1 (q + (1 # 10))) t c g) as H.
  unfold link_and_adjust in H. unfold supportClaim.
  destruct (getClaim t g); [|by destruct (addLink t c supports g); inversion H].
  destruct (getClaim c g); [|by destruct (addLink t c supports g); inversion H].
  destruct H as (g' & H & Hget & Hkeys & Hem).
  destruct (addLink t c supports g) as [|g1]; [done|].
  injection H as <-. eexists. split; [done|]. split; [done|]. split; [done|].
  simpl. by rewrite Hem.
Qed.

(** *** The claims of the graph *)

(** What [addClaim] fixes of a claim: its id, statement, author, evidence
    and creation date. *)
Definition origin (c : Claim) : string * string * string * list string * string :=
  (id c, statement c, author c, evidence c, createdAt c).

Definition added (op : Op) : list (string * string * string * list string * string) :=
  match op with
  | OpAddClaim u st a ev _ d => [(u, st, a, ev, d)]
  | _ => []
  end.

Definition new_id (op : Op) : list string :=
  match op with
  | OpAddClaim u _ _ _ _ _ => [u]
  | _ => []
  end.

Lemma origin_values_set k (v v' : Claim) (m : JsMap.t Claim) :
  JsMap.get k m = Some v → origin v' = origin v →
  origin <$> JsMap.values (JsMap.set k v' m) = origin <$> JsMap.values m.
Proof.
  unfold JsMap.values. intros Hget Ho.
  induction m as [|[k0 v0] m IH]; [done|]. simpl in Hget |- *.
  destruct (String.eqb k0 k).
  - injection Hget as ->. csimpl. by rewrite Ho.
  - csimpl. by rewrite IH.
Qed.

Lemma addLink_origin t src ty g g' :
  addLink t src ty g = inr g' →
  origin <$> listClaims g' = origin <$> listClaims g ∧
  JsMap.keys (claims g') = JsMap.keys (claims g).
Proof.
  unfold addLink, getClaim.
  destruct (JsMap.get t (claims g)) as [tc|]; [|done].
  destruct (JsMap.get src (claims g)) as [sc|] eqn:Hs; [|done].
  intros [= <-]. split.
  - by apply (origin_values_set src sc).
  - apply JsMap.keys_set_in. by apply (JsMap.get_Some_keys _ sc).
Qed.

Lemma adjust_origin f t g :
  origin <$> listClaims (adjust f t g) = origin <$> listClaims g ∧
  JsMap.keys (claims (adjust f t g)) = JsMap.keys (claims g).
Proof.
  unfold adjust, getClaim.
  destruct (JsMap.get t (claims g)) as [tc|] eqn:Ht; [|done]. split.
  - by apply (origin_values_set t tc).
  - apply JsMap.keys_set_in. by apply (JsMap.get_Some_keys _ tc).
Qed.

Lemma exec_origin g op :
  (∀ u, u ∈ new_id op → u ∉ JsMap.keys (claims g)) →
  origin <$> listClaims (exec g op) = (origin <$> listClaims g) ++ added op ∧
  JsMap.keys (claims (exec g op)) = JsMap.keys (claims g) ++ new_id op.
Proof.
  intros Hnew. destruct op as [u st a ev q d|t c|t c]; cbn [exec added new_id];
    rewrite ?app_nil_r.
  - assert (Hu : u ∉ JsMap.keys (claims g)) by (apply Hnew; left).
    unfold listClaims. simpl. rewrite JsMap.keys_set_notin by done.
    rewrite JsMap.set_notin by done. unfold JsMap.values.
    by rewrite !fmap_app.
  - unfold challengeClaim.
    destruct (addLink t c challenges g) as [err|g1] eqn:E; [done|].
    destruct (addLink_origin _ _ _ _ _ E) as [<- <-].
    apply (adjust_origin _ t g1).
  - unfold supportClaim.
    destruct (addLink t c supports g) as [err|g1] eqn:E; [done|].
    destruct (addLink_origin _ _ _ _ _ E) as [<- <-].
    apply (adjust_origin _ t g1).
Qed.

Lemma run_origin ops g :
  NoDup (JsMap.keys (claims g) ++ ops ≫= new_id) →
  origin <$> listClaims (run ops g) = (origin <$> listClaims g) ++ ops ≫= added ∧
  JsMap.keys (claims (run ops g)) = JsMap.keys (claims g) ++ ops ≫= new_id.
Proof.
  revert g. induction ops as [|op ops IH]; intros g Hnd.
  - simpl. by rewrite !app_nil_r.
  - change (run (op :: ops) g) with (run ops (exec g op)).
    rewrite bind_cons in Hnd.
    destruct (exec_origin g op) as [Ho Hk].
    { intros u Hu Hin. apply NoDup_app in Hnd as (_ & Hd & _).
      apply (Hd _ Hin). apply elem_of_app. by left. }
    destruct (IH (exec g op)) as [Ho' Hk'].
    { by rewrite Hk, <- app_assoc. }
    rewrite Ho', Hk', Ho, Hk, !bind_cons, <- !app_assoc. done.
Qed.

(** X12. The claims of the graph are the [addClaim] calls. After any
    sequence of addClaim / challengeClaim / supportClaim calls on an empty
    graph, with distinct uuids, [listClaims] returns one claim per
    [addClaim] call, in call order, each with the id, statement, author,
    evidence and creation date it was added with, stored under its own id:
    challenges and supports change confidences and links only. *)
Theorem listClaims_is_addClaim_log (ops : list Op) :
  NoDup (ops ≫= new_id) →
  origin <$> listClaims (run ops init) = ops ≫= added ∧
  JsMap.keys (claims (run ops init)) = id <$> listClaims (run ops init) ∧
  total (summarize (run ops init)) = length (ops ≫= added).
Proof.
  intros Hnd. destruct (run_origin ops init Hnd) as [Ho Hk]. simpl in Ho, Hk.
  split; [done|]. split.
  - rewrite Hk.
    assert (H : fst <$> (fst <$> (fst <$> (fst <$> (origin <$> listClaims (run ops init)))))
                = id <$> listClaims (run ops init)).
    { rewrite <- !list_fmap_compose. done. }
    rewrite <- H, Ho. clear.
    induction ops as [|op ops IH]; [done|].
    rewrite !bind_cons, !fmap_app, IH. by destruct op.
  - cbn [summarize total]. by rewrite <- Ho, length_fmap.
Qed.

Lemma listClaims_is_addClaim_log_witness :
  origin <$> listClaims (run support_twice init) = support_twice ≫= added.
Proof.
  apply (listClaims_is_addClaim_log support_twice).
  apply (bool_decide_unpack _). by vm_compute.
Defined.

End ClaimGraph.

(** ** Policies and definitions (types.ts), registry (registry.ts) *)

(** Counts ([maxParallel], [maxMessagesPerSecond]) are integers; budgets
    and usage are rationals. *)
Record Policy := mkPolicy {
  maxParallel : option Z;
  maxTokens : option Q;
  maxCost : option Q;
  toolAllowlist : option (list string);
  maxMessagesPerSecond : option Z
}.

Definition no_policy : Policy := mkPolicy None None None None None.

(** [executor] is [true] when the definition carries a custom executor. *)
Record AgentDefinition := mkAgent {
  name : string;
  prompt : string;
  tools : list string;
  policy : Policy;
  mcpServers : list string;
  executor : bool
}.

(** The double quote character, for error messages. *)
Definition dq : string := String (Ascii.ascii_of_nat 34) EmptyString.

Module Registry.

Record State := mkState {
  agents : JsMap.t AgentDefinition;
  registered_tools : JsMap.t unit;
  mcps : JsMap.t unit
}.

Definition hasAgent (n : string) (r : State) : bool := JsMap.has n (agents r).
Definition hasTool (n : string) (r : State) : bool := JsMap.has n (registered_tools r).
Definition hasMCP (n : string) (r : State) : bool := JsMap.has n (mcps r).
Definition listAgents (r : State) : list AgentDefinition := JsMap.values (agents r).
Definition listMCPs (r : State) : list string := JsMap.keys (mcps r).

(** [registerAgent]: [inl] is the error thrown for a duplicate name. *)
Definition registerAgent (def : AgentDefinition) (r : State) : string + State :=
  if hasAgent (name def) r
  then inl ("Agent " ++ dq ++ name def ++ dq ++ " is already registered.")%string
  else inr (mkState (JsMap.set (name def) def (agents r)) (registered_tools r) (mcps r)).

Definition registerTool (n : string) (r : State) : string + State :=
  if hasTool n r
  then inl ("Tool " ++ dq ++ n ++ dq ++ " is already registered.")%string
  else inr (mkState (agents r) (JsMap.set n tt (registered_tools r)) (mcps r)).


Definition getAgent (n : string) (r : State) : option AgentDefinition :=
  JsMap.get n (agents r).

Definition init : State := mkState JsMap.empty JsMap.empty JsMap.empty.

(** Successive [registerAgent] calls; a call that throws leaves the
    registry as it was. *)
Definition register_all (defs : list AgentDefinition) (r : State) : State :=
  foldl (fun acc def => match registerAgent def acc with
                        | inl _ => acc
                        | inr acc' => acc'
                        end) r defs.

(** Every definition is stored under its own name, once. *)
Definition well_keyed (r : State) : Prop :=
  JsMap.keys (agents r) = name <$> listAgents r ∧ NoDup (JsMap.keys (agents r)).

Lemma has_get {V} (n : string) (m : JsMap.t V) :
  JsMap.has n m = true ↔ is_Some (JsMap.get n m).
Proof.
  unfold JsMap.has. by destruct (JsMap.get n m); split; try done; intros [? ?].
Qed.

Lemma registerAgent_spec def r :
  match getAgent (name def) r with
  | Some _ => ∃ err, registerAgent def r = inl err
  | None =>
      ∃ r', registerAgent def r = inr r' ∧ agents r' = agents r ++ [(name def, def)]
  end.
Proof.
  unfold registerAgent, hasAgent, JsMap.has, getAgent.
  destruct (JsMap.get (name def) (agents r)) eqn:Hg; [by eexists|].
  eexists. split; [done|]. simpl. apply JsMap.set_notin.
  intros Hin%JsMap.get_is_Some. rewrite Hg in Hin. by destruct Hin.
Qed.

Lemma get_app_notin {V} (n k : string) (v : V) (m : JsMap.t V) :
  JsMap.get n (m ++ [(k, v)])
  = match JsMap.get n m with
    | Some x => Some x
    | None => if String.eqb k n then Some v else None
    end.
Proof.
  induction m as [|[k0 v0] m IH]; simpl; [done|].
  by destruct (String.eqb k0 n).
Qed.

Lemma register_all_spec defs r :
  well_keyed r →
  well_keyed (register_all defs r) ∧
  (∀ n, getAgent n (register_all defs r)
        = match getAgent n r with
          | Some d => Some d
          | None => List.find (fun d => String.eqb (name d) n) defs
          end) ∧
  ∃ new, listAgents (register_all defs r) = listAgents r ++ new.
Proof.
  revert r. induction defs as [|def defs IH]; intros r Hwk.
  - split; [done|]. split; [|exists []; by rewrite app_nil_r].
    intros n. simpl. by destruct (getAgent n r).
  - change (register_all (def :: defs) r)
      with (register_all defs (match registerAgent def r with
                               | inl _ => r
                               | inr acc' => acc'
                               end)).
    pose proof (registerAgent_spec def r) as Hreg.
    destruct (getAgent (name def) r) as [d0|] eqn:Hg.
    + destruct Hreg as [err ->]. destruct (IH r Hwk) as (H1 & H2 & H3).
      split; [done|]. split; [|done]. intros n. rewrite (H2 n).
      destruct (getAgent n r) eqn:Hn; [done|]. simpl.
      destruct (String.eqb_spec (name def) n) as [<-|Hne]; [congruence|done].
    + destruct Hreg as (r' & -> & Hr').
      assert (Hwk' : well_keyed r').
      { destruct Hwk as [Hk Hnd].
        unfold well_keyed, listAgents, JsMap.keys, JsMap.values in Hk, Hnd |- *.
        rewrite Hr', !fmap_app. csimpl. split.
        - by rewrite Hk.
        - apply NoDup_app. split; [done|]. split; [|apply NoDup_singleton].
          intros x Hx ->%list_elem_of_singleton.
          apply JsMap.get_is_Some in Hx. unfold getAgent in Hg. rewrite Hg in Hx.
          by destruct Hx. }
      destruct (IH r' Hwk') as (H1 & H2 & new & H3).
      split; [done|]. split.
      * intros n. rewrite (H2 n). unfold getAgent. rewrite Hr', get_app_notin.
        destruct (JsMap.get n (agents r)) eqn:Hn; [done|]. simpl.
        by destruct (String.eqb (name def) n).
      * exists (def :: new). rewrite H3. unfold listAgents, JsMap.values.
        rewrite Hr', fmap_app, <- app_assoc. done.
Qed.

(** X18. The first registration of a name wins. After any sequence of
    [registerAgent] calls on an empty registry, [getAgent n] is the first
    definition of the sequence named [n]; a later definition with the same
    name is refused and replaces nothing. The names of [listAgents] are
    distinct, and every definition is stored under its own name. *)
Theorem first_registration_wins (defs : list AgentDefinition) (n : string) :
  getAgent n (register_all defs init)
  = List.find (fun d => String.eqb (name d) n) defs ∧
  NoDup (name <$> listAgents (register_all defs init)) ∧
  (∀ def, hasAgent (name def) (register_all defs init) = true →
          ∃ err, registerAgent def (register_all defs init) = inl err).
Proof.
  assert (Hwk : well_keyed init) by (split; [done|constructor]).
  destruct (register_all_spec defs init Hwk) as ([Hk Hnd] & Hget & _).
  split; [apply Hget|]. split; [by rewrite <- Hk|].
  intros def Hhas. unfold registerAgent. rewrite Hhas. by eexists.
Qed.

End Registry.

(** ** Budget tracker (policy-enforcer.ts) *)

Module PolicyEnforcer.

Record AgentBudget := mkBudget {
  budget_policy : Policy;
  tokensUsed : Q;
  costUsed : Q
}.

(** [boundHandler] holds the [resolveAgent] callback of [startListening]
    while the enforcer listens for [llm:response] events. *)
Record State := mkState {
  budgets : gmap string AgentBudget;
  boundHandler : option (string → option string)
}.

Definition init : State := mkState ∅ None.

(** The two errors [checkBudget] throws, with the figures of the message. *)
Inductive BudgetError :=
  | TokenBudgetExceeded (agentName : string) (used limit : Q)
  | CostBudgetExceeded (agentName : string) (used limit : Q).

(** State and exception monad of the enforcer's methods. *)
Definition M (A : Type) : Type := State → (BudgetError + A) * State.

Definition ret {A} (a : A) : M A := fun s => (inr a, s).
Definition throw {A} (e : BudgetError) : M A := fun s => (inl e, s).
Definition bind {A B} (m : M A) (f : A → M B) : M B :=
  fun s => match m s with
           | (inl e, s') => (inl e, s')
           | (inr a, s') => f a s'
           end.
Definition gets {A} (f : State → A) : M A := fun s => (inr (f s), s).
Definition modify (f : State → State) : M unit := fun s => (inr tt, f s).

Notation "'let*' x ':=' m 'in' k" := (bind m (fun x => k))
  (at level 10, x binder, k at level 200).

Definition set_budgets (b : gmap string AgentBudget) (s : State) : State :=
  mkState b (boundHandler s).

Definition registerAgent (agentName : string) (p : Policy) : M unit :=
  modify (fun s => set_budgets (<[agentName := mkBudget p 0 0]> (budgets s)) s).

Definition exceeds (limit : option Q) (used : Q) : bool :=
  match limit with
  | Some l => Qle_bool l used
  | None => false
  end.

Definition checkBudget (agentName : string) : M unit :=
  let* budget := gets (fun s => budgets s !! agentName) in
  match budget with
  | None => ret tt
  | Some b =>
      if exceeds (maxTokens (budget_policy b)) (tokensUsed b)
      then throw (TokenBudgetExceeded agentName (tokensUsed b)
                    (default 0%Q (maxTokens (budget_policy b))))
      else if exceeds (maxCost (budget_policy b)) (costUsed b)
      then throw (CostBudgetExceeded agentName (costUsed b)
                    (default 0%Q (maxCost (budget_policy b))))
      else ret tt
  end.

Definition add_tokens (q : Q) (b : AgentBudget) : AgentBudget :=
  mkBudget (budget_policy b) (tokensUsed b + q) (costUsed b).

Definition add_cost (q : Q) (b : AgentBudget) : AgentBudget :=
  mkBudget (budget_policy b) (tokensUsed b) (costUsed b + q).

Definition addTokenUsage (agentName : string) (tokens : Q) : M unit :=
  modify (fun s => set_budgets (alter (add_tokens tokens) agentName (budgets s)) s).

Definition addCostUsage (agentName : string) (cost : Q) : M unit :=
  modify (fun s => set_budgets (alter (add_cost cost) agentName (budgets s)) s).

Definition getUsage (agentName : string) : M (option (Q * Q)) :=
  gets (fun s => (fun b => (tokensUsed b, costUsed b)) <$> budgets s !! agentName).

Definition startListening (resolveAgent : string → option string) : M unit :=
  modify (fun s => mkState (budgets s) (Some resolveAgent)).

Definition truthy_string (x : string) : bool := negb (String.eqb x "").

Definition truthy_number (q : Q) : bool := negb (Qeq_bool q 0).

(** The handler installed by [startListening], called by the event bus with
    an [llm:response] event. *)
Definition on_llm_response (correlationId : string) (totalTokens : option Q)
    : M unit :=
  let* handler := gets boundHandler in
  match handler, totalTokens with
  | Some resolveAgent, Some tokens =>
      if truthy_string correlationId && truthy_number tokens
      then match resolveAgent correlationId with
           | Some agentName =>
               if truthy_string agentName then addTokenUsage agentName tokens
               else ret tt
           | None => ret tt
           end
      else ret tt
  | _, _ => ret tt
  end.

Definition clear : M unit := modify (fun _ => mkState ∅ None).

(** The pair [(tokensUsed, costUsed)] that [getUsage] returns. *)
Definition usage (s : State) (agentName : string) : option (Q * Q) :=
  match (getUsage agentName s).1 with
  | inr u => u
  | inl _ => None
  end.

(** The tests of policy-enforcer.test.ts on the token budget. *)
Example token_budget_reached :
  let s := (let* _ := registerAgent "A" (mkPolicy None (Some 100%Q) None None None) in
            let* _ := addTokenUsage "A" 40 in addTokenUsage "A" 40) init in
  (checkBudget "A" s.2).1 = inr tt ∧
  (checkBudget "A" (addTokenUsage "A" 30 s.2).2).1
    = inl (TokenBudgetExceeded "A" (0 + 40 + 40 + 30) 100).
Proof. vm_compute. done. Qed.

Lemma exceeds_iff (limit : option Q) (used : Q) :
  exceeds limit used = true ↔ ∃ l, limit = Some l ∧ (l <= used)%Q.
Proof.
  unfold exceeds. destruct limit as [l|].
  - rewrite Qle_bool_iff. split; [by exists l|]. by intros (l' & [= ->] & ?).
  - split; [done|]. by intros (l' & ? & _).
Qed.

Lemma checkBudget_state (s : State) (agentName : string) :
  (checkBudget agentName s).2 = s.
Proof.
  unfold checkBudget, bind, gets. simpl.
  destruct (budgets s !! agentName) as [b|]; simpl; [|done].
  destruct (exceeds _ _); [done|]. by destruct (exceeds _ _).
Qed.

(** C8. [checkBudget] throws exactly when the unit is registered and, for
    a limit set in its policy ([maxTokens] or [maxCost]), the matching
    counter has reached that limit; it throws nothing when no limit is
    configured; and it returns the enforcer state it was given, so no
    counter is modified. *)
Theorem checkBudget_throws_iff (s : State) (agentName : string) :
  (checkBudget agentName s).2 = s ∧
  ((∃ e, (checkBudget agentName s).1 = inl e) ↔
   ∃ b, budgets s !! agentName = Some b ∧
        ((∃ l, maxTokens (budget_policy b) = Some l ∧ (l <= tokensUsed b)%Q) ∨
         (∃ l, maxCost (budget_policy b) = Some l ∧ (l <= costUsed b)%Q))) ∧
  ((∀ b, budgets s !! agentName = Some b →
         maxTokens (budget_policy b) = None ∧ maxCost (budget_policy b) = None) →
   (checkBudget agentName s).1 = inr tt).
Proof.
  unfold checkBudget, bind, gets. simpl.
  destruct (budgets s !! agentName) as [b|] eqn:Hb; simpl.
  - destruct (exceeds (maxTokens (budget_policy b)) (tokensUsed b)) eqn:Et;
      [|destruct (exceeds (maxCost (budget_policy b)) (costUsed b)) eqn:Ec]; simpl.
    + split; [done|]. split.
      * split; [|by eauto]. intros _. exists b. split; [done|].
        left. by apply exceeds_iff.
      * intros H. destruct (H b eq_refl) as [Hn _]. rewrite Hn in Et. done.
    + split; [done|]. split.
      * split; [|by eauto]. intros _. exists b. split; [done|].
        right. by apply exceeds_iff.
      * intros H. destruct (H b eq_refl) as [_ Hn]. rewrite Hn in Ec. done.
    + split; [done|]. split; [|done]. split; [by intros [e ?]|].
      intros (b' & [= <-] & [H|H]); apply exceeds_iff in H; congruence.
  - split; [done|]. split; [|done]. split; [by intros [e ?]|].
    by intros (b' & ? & _).
Qed.

(** *** Traces of enforcer calls *)

Inductive Op :=
  | OpRegister (agentName : string) (p : Policy)
  | OpAddTokens (agentName : string) (tokens : Q)
  | OpAddCost (agentName : string) (cost : Q)
  | OpCheck (agentName : string)
  | OpGetUsage (agentName : string)
  | OpClear.

(** The state a call leaves, whether it returns or throws. *)
Definition exec (s : State) (op : Op) : State :=
  match op with
  | OpRegister a p => (registerAgent a p s).2
  | OpAddTokens a q => (addTokenUsage a q s).2
  | OpAddCost a q => (addCostUsage a q s).2
  | OpCheck a => (checkBudget a s).2
  | OpGetUsage a => (getUsage a s).2
  | OpClear => (clear s).2
  end.

Definition run (ops : list Op) (s : State) : State := foldl exec s ops.

(** The calls that replace or drop the budget of [a]. *)
Definition resets (a : string) (op : Op) : bool :=
  match op with
  | OpRegister a' _ => String.eqb a' a
  | OpClear => true
  | _ => false
  end.

Definition tokens_for (a : string) (op : Op) : list Q :=
  match op with
  | OpAddTokens a' q => if String.eqb a' a then [q] else []
  | _ => []
  end.

Definition costs_for (a : string) (op : Op) : list Q :=
  match op with
  | OpAddCost a' q => if String.eqb a' a then [q] else []
  | _ => []
  end.

(** [x += q] for each [q] in turn. *)
Definition add_all (x : Q) (qs : list Q) : Q := foldl Qplus x qs.

Lemma exec_budget (a : string) (b : AgentBudget) (s : State) (op : Op) :
  resets a op = false → budgets s !! a = Some b →
  budgets (exec s op) !! a
  = Some (mkBudget (budget_policy b) (add_all (tokensUsed b) (tokens_for a op))
                   (add_all (costUsed b) (costs_for a op))).
Proof.
  intros Hr Hb. destruct op as [a' p|a' q|a' q|a'|a'|]; cbn [exec resets] in *.
  - simpl. destruct (String.eqb_spec a' a) as [->|Hne]; [done|].
    rewrite lookup_insert_ne by done. rewrite Hb. by destruct b.
  - simpl. destruct (String.eqb_spec a' a) as [->|Hne].
    + rewrite lookup_alter_eq, Hb. done.
    + rewrite lookup_alter_ne by done. rewrite Hb. by destruct b.
  - simpl. destruct (String.eqb_spec a' a) as [->|Hne].
    + rewrite lookup_alter_eq, Hb. done.
    + rewrite lookup_alter_ne by done. rewrite Hb. by destruct b.
  - rewrite checkBudget_state, Hb. by destruct b.
  - simpl. rewrite Hb. by destruct b.
  - done.
Qed.

Lemma run_budget (a : string) (ops : list Op) (b : AgentBudget) (s : State) :
  Forall (λ op, resets a op = false) ops → budgets s !! a = Some b →
  budgets (run ops s) !! a
  = Some (mkBudget (budget_policy b)
                   (add_all (tokensUsed b) (ops ≫= tokens_for a))
                   (add_all (costUsed b) (ops ≫= costs_for a))).
Proof.
  intros Hops. revert b s.
  induction Hops as [|op ops Hop Hops IH]; intros b s Hb.
  - simpl. rewrite Hb. by destruct b.
  - change (run (op :: ops) s) with (run ops (exec s op)).
    rewrite (IH _ _ (exec_budget a b s op Hop Hb)). cbn [budget_policy tokensUsed costUsed].
    rewrite !bind_cons. unfold add_all. by rewrite !foldl_app.
Qed.

(** X13. Usage is the sum of what was recorded since registration. After
    [registerAgent a p], and through any sequence of calls that neither
    registers [a] again nor clears the enforcer, [getUsage a] returns the
    tokens recorded for [a] added up from zero in call order, and likewise
    the costs; the policy of [a] stays [p]. What is recorded for other
    units, and budget checks whether they throw or not, do not count. *)
Theorem usage_accumulates (a : string) (p : Policy) (ops : list Op) (s : State) :
  Forall (λ op, resets a op = false) ops →
  let s' := run ops (registerAgent a p s).2 in
  usage s' a = Some (add_all 0 (ops ≫= tokens_for a), add_all 0 (ops ≫= costs_for a)) ∧
  budget_policy <$> budgets s' !! a = Some p.
Proof.
  intros Hops s'.
  assert (H : budgets s' !! a
              = Some (mkBudget p (add_all 0 (ops ≫= tokens_for a))
                               (add_all 0 (ops ≫= costs_for a)))).
  { apply (run_budget a ops (mkBudget p 0 0)); [done|]. simpl. apply lookup_insert_eq. }
  unfold usage, getUsage, gets. simpl. by rewrite H.
Qed.

Definition some_usage : list Op :=
  [OpAddTokens "A" 40; OpAddCost "B" 1; OpCheck "A"; OpAddTokens "A" 70;
   OpRegister "B" no_policy; OpAddCost "A" (1 # 2)].

Lemma usage_accumulates_witness :
  usage (run some_usage (registerAgent "A" no_policy init).2) "A"
  = Some (add_all 0 (some_usage ≫= tokens_for "A"),
          add_all 0 (some_usage ≫= costs_for "A")).
Proof.
  apply (usage_accumulates "A" no_policy some_usage init).
  repeat constructor.
Defined.

(** *** A budget that is spent stays spent *)

Definition non_negative (op : Op) : Prop :=
  match op with
  | OpAddTokens _ q | OpAddCost _ q => (0 <= q)%Q
  | _ => True
  end.

Lemma add_all_le (x : Q) (qs : list Q) :
  Forall (λ q, (0 <= q)%Q) qs → (x <= add_all x qs)%Q.
Proof.
  intros H. revert x. unfold add_all.
  induction H as [|q qs Hq Hqs IH]; intros x; simpl; [lra|].
  specialize (IH (x + q)%Q). lra.
Qed.

Lemma tokens_for_non_negative a ops :
  Forall non_negative ops → Forall (λ q, (0 <= q)%Q) (ops ≫= tokens_for a).
Proof.
  induction 1 as [|op ops Hop Hops IH]; [constructor|].
  rewrite bind_cons. apply Forall_app. split; [|done].
  destruct op; simpl; try constructor.
  destruct (String.eqb _ _); repeat constructor. exact Hop.
Qed.

Lemma costs_for_non_negative a ops :
  Forall non_negative ops → Forall (λ q, (0 <= q)%Q) (ops ≫= costs_for a).
Proof.
  induction 1 as [|op ops Hop Hops IH]; [constructor|].
  rewrite bind_cons. apply Forall_app. split; [|done].
  destruct op; simpl; try constructor.
  destruct (String.eqb _ _); repeat constructor. exact Hop.
Qed.

Definition throws {A} (r : (BudgetError + A) * State) : Prop :=
  ∃ e, r.1 = inl e.

Lemma checkBudget_throws (s : State) (a : string) :
  throws (checkBudget a s) ↔
  ∃ b, budgets s !! a = Some b ∧
       (exceeds (maxTokens (budget_policy b)) (tokensUsed b) = true ∨
        exceeds (maxCost (budget_policy b)) (costUsed b) = true).
Proof.
  unfold throws, checkBudget, bind, gets. simpl.
  destruct (budgets s !! a) as [b|]; simpl.
  - destruct (exceeds (maxTokens _) _) eqn:Et; [|destruct (exceeds (maxCost _) _) eqn:Ec];
      simpl.
    + split; [|by eauto]. intros _. exists b. auto.
    + split; [|by eauto]. intros _. exists b. auto.
    + split; [by intros [e ?]|]. intros (b' & [= <-] & [?|?]); congruence.
  - split; [by intros [e ?]|]. by intros (b' & ? & _).
Qed.

(** X14. A spent budget stays spent. Once [checkBudget a] throws, it
    throws after every further sequence of calls that record non-negative
    amounts and neither register [a] again nor clear the enforcer: no
    call gives budget back. *)
Theorem spent_budget_stays_spent (a : string) (ops : list Op) (s : State) :
  Forall (λ op, resets a op = false) ops →
  Forall non_negative ops →
  throws (checkBudget a s) →
  throws (checkBudget a (run ops s)).
Proof.
  intros Hr Hnn (b & Hb & Hex)%checkBudget_throws.
  apply checkBudget_throws. rewrite (run_budget a ops b s Hr Hb).
  eexists. split; [done|]. cbn [budget_policy tokensUsed costUsed].
  pose proof (add_all_le (tokensUsed b) _ (tokens_for_non_negative a ops Hnn)).
  pose proof (add_all_le (costUsed b) _ (costs_for_non_negative a ops Hnn)).
  destruct Hex as [(l & Hl & Hle)%exceeds_iff|(l & Hl & Hle)%exceeds_iff].
  - left. apply exceeds_iff. exists l. split; [done|]. lra.
  - right. apply exceeds_iff. exists l. split; [done|]. lra.
Qed.

Definition spent : State :=
  run [OpAddTokens "A" 100]
      (registerAgent "A" (mkPolicy None (Some 100%Q) None None None) init).2.

Lemma spent_budget_stays_spent_witness :
  throws (checkBudget "A" (run [OpAddTokens "A" 5; OpAddCost "A" 1; OpCheck "A"] spent)).
Proof.
  apply (spent_budget_stays_spent "A" [OpAddTokens "A" 5; OpAddCost "A" 1; OpCheck "A"]).
  - repeat constructor.
  - repeat constructor; vm_compute; discriminate.
  - eexists. vm_compute. reflexivity.
Defined.

(** *** The [llm:response] listener *)

(** X15. One call of the listener installed by [startListening]. The
    listener never throws and never checks a budget. With resolver [r]
    installed, an event with a non-empty correlation id, a non-zero token
    count [q] and a resolved non-empty unit name [a] adds [q] to the
    tokens used by [a] and changes nothing else; an event with an empty
    correlation id, no token count, a zero count or an unresolved id
    changes nothing. *)
Theorem llm_response_adds_tokens (r : string → option string) (cid : string)
    (tok : option Q) (s : State) :
  boundHandler s = Some r →
  (on_llm_response cid tok s).1 = inr tt ∧
  (∀ a q, cid ≠ ""%string → tok = Some q → ¬ (q == 0)%Q →
          r cid = Some a → a ≠ ""%string →
          (on_llm_response cid tok s).2 = (addTokenUsage a q s).2 ∧
          budgets (on_llm_response cid tok s).2 !! a
          = add_tokens q <$> budgets s !! a ∧
          ∀ a', a' ≠ a →
            budgets (on_llm_response cid tok s).2 !! a' = budgets s !! a') ∧
  (cid = ""%string ∨ tok = None ∨ (∃ q, tok = Some q ∧ (q == 0)%Q)
   ∨ r cid = None ∨ r cid = Some ""%string →
   (on_llm_response cid tok s).2 = s).
Proof.
  intros Hh.
  assert (Hts : ∀ x, truthy_string x = false ↔ x = ""%string).
  { intros x. unfold truthy_string. by destruct (String.eqb_spec x ""). }
  assert (Htn : ∀ q, truthy_number q = false ↔ (q == 0)%Q).
  { intros q. unfold truthy_number. rewrite <- Qeq_bool_iff.
    by destruct (Qeq_bool q 0). }
  unfold on_llm_response, bind, gets. cbn [fst snd]. rewrite Hh.
  destruct tok as [q|].
  2: { split; [done|]. split; [|done]. intros a q _ [=]. }
  destruct (truthy_string cid) eqn:Hc.
  2: { apply Hts in Hc. split; [done|]. split; [|done]. by intros a q' Hn. }
  destruct (truthy_number q) eqn:Hq.
  2: { apply Htn in Hq. split; [done|]. split; [|done].
       intros a q' _ [= <-] Hn. by destruct Hn. }
  cbn [andb]. destruct (r cid) as [a|] eqn:Hr.
  2: { split; [done|]. split; [|done]. by intros a q' _ _ _ [=]. }
  destruct (truthy_string a) eqn:Ha.
  2: { apply Hts in Ha. split; [done|]. split; [|done].
       by intros a' q' _ _ _ [= <-] Hn. }
  split; [done|]. split.
  - intros a0 q0 _ [= <-] _ [= <-] _. split; [done|]. split.
    + simpl. by rewrite lookup_alter_eq.
    + intros a' Hne. simpl. by rewrite lookup_alter_ne.
  - intros [H|[H|[(q' & [= <-] & H)|[H|[= ->]]]]].
    + apply Hts in H. congruence.
    + done.
    + apply Htn in H. congruence.
    + done.
    + assert (truthy_string "" = false) by done. congruence.
Qed.

Lemma llm_response_adds_tokens_witness :
  (on_llm_response "run-1" (Some 12%Q)
     (startListening (λ _, Some "A"%string) (registerAgent "A" no_policy init).2).2).1
  = inr tt.
Proof.
  apply (llm_response_adds_tokens (λ _, Some "A"%string)). reflexivity.
Defined.

End PolicyEnforcer.

(** ** Message router (message-router.ts) *)

Module MessageRouter.

Record AgentMessage := mkMessage {
  msg_id : string;
  msg_from : string;
  msg_to : string;
  msg_payload : string;
  msg_timestamp : string
}.

Inductive Event :=
  | message_sent (m : AgentMessage)
  | message_received (m : AgentMessage).

(** [handlers] keeps the names that have a handler, whatever the handler
    is; a call of the handler of [to] is recorded in [delivered]. *)
Record State := mkState {
  sendTimestamps : gmap string (list Z);
  policies : gmap string Policy;
  handlers : gset string;
  emitted : list Event;
  delivered : list AgentMessage
}.

Definition init : State := mkState ∅ ∅ ∅ [] [].

Inductive RateLimitError :=
  | RateLimitExceeded (agentName : string) (maxPerSecond : Z).

Definition registerHandler (agentName : string) (s : State) : State :=
  mkState (sendTimestamps s) (policies s) ({[agentName]} ∪ handlers s)
          (emitted s) (delivered s).

Definition setPolicy (agentName : string) (p : Policy) (s : State) : State :=
  mkState (sendTimestamps s) (<[agentName := p]> (policies s)) (handlers s)
          (emitted s) (delivered s).

(** [this.sendTimestamps.get(agentName) ?? []] *)
Definition timestamps_of (s : State) (agentName : string) : list Z :=
  default [] (sendTimestamps s !! agentName).

Definition recentCount (s : State) (agentName : string) (now : Z) : nat :=
  length (List.filter (fun t => (now - t <? 1000)%Z) (timestamps_of s agentName)).

(** [checkRateLimit]: [Some] is the error thrown; [now] is [Date.now()]. *)
Definition checkRateLimit (agentName : string) (now : Z) (s : State)
    : option RateLimitError :=
  match policies s !! agentName ≫= maxMessagesPerSecond with
  | None => None
  | Some maxPerSecond =>
      if (maxPerSecond <=? Z.of_nat (recentCount s agentName now))%Z
      then Some (RateLimitExceeded agentName maxPerSecond)
      else None
  end.

Definition recordSend (agentName : string) (now : Z) (s : State) : State :=
  let recent := List.filter (fun t => (now - t <? 2000)%Z) (timestamps_of s agentName) in
  mkState (<[agentName := recent ++ [now]]> (sendTimestamps s)) (policies s)
          (handlers s) (emitted s) (delivered s).

Definition emit (e : Event) (s : State) : State :=
  mkState (sendTimestamps s) (policies s) (handlers s) (emitted s ++ [e]) (delivered s).

Definition deliver (m : AgentMessage) (s : State) : State :=
  mkState (sendTimestamps s) (policies s) (handlers s) (emitted s)
          (delivered s ++ [m]).

(** What one call of [sendMessage] reads from its environment: the uuid,
    the ISO date of the message, and the two readings of [Date.now()], in
    [checkRateLimit] and in [recordSend]. *)
Record Send := mkSend {
  to : string;
  payload : string;
  uuid : string;
  iso : string;
  t_check : Z;
  t_record : Z
}.

(** [sendMessage] when the handler of the recipient returns and leaves the
    router alone, as the handler [() => {}] registered by [spawnAgent]
    does; [sendMessageH] below takes any handler. *)
Definition sendMessage (from : string) (a : Send) (s : State)
    : (RateLimitError + AgentMessage) * State :=
  match checkRateLimit from (t_check a) s with
  | Some err => (inl err, s)
  | None =>
      let message := mkMessage (uuid a) from (to a) (payload a) (iso a) in
      let s1 := recordSend from (t_record a) s in
      let s2 := emit (message_sent message) s1 in
      let s3 := if bool_decide (to a ∈ handlers s2)
                then emit (message_received message) (deliver message s2)
                else s2 in
      (inr message, s3)
  end.

Definition clear (s : State) : State := mkState ∅ ∅ ∅ (emitted s) (delivered s).

Definition is_sent (r : RateLimitError + AgentMessage) : bool :=
  match r with inr _ => true | inl _ => false end.

(** Successive calls of [sendMessage] by the same sender. *)
Fixpoint send_all (from : string) (l : list Send) (s : State)
    : list (RateLimitError + AgentMessage) * State :=
  match l with
  | [] => ([], s)
  | a :: l' =>
      let (r, s1) := sendMessage from a s in
      let (rs, s2) := send_all from l' s1 in
      (r :: rs, s2)
  end.

Definition limit (k : Z) : Policy := mkPolicy None None None None (Some k).

Definition at_time (t : Z) : Send := mkSend "A" "hi" "m" "d" t t.

(** Scenario 6 of the spec: limit 2, three immediate sends, one more after
    the window. *)
Example two_per_second :
  let s := setPolicy "S" (limit 2) (registerHandler "A" init) in
  let r := send_all "S" [at_time 0; at_time 1; at_time 2; at_time 1001] s in
  is_sent <$> r.1 = [true; true; false; true].
Proof. vm_compute. done. Qed.

(** *** The sliding window *)

Section Window.
Variable T0 : Z.

(** A recorded timestamp is either out of every window that starts at
    [T0] or later, or inside the window [T0, T0 + 1000). *)
Definition placed (t : Z) : Prop :=
  (t + 1000 ≤ T0)%Z ∨ (T0 ≤ t < T0 + 1000)%Z.

Definition in_window (t : Z) : Prop := (T0 ≤ t < T0 + 1000)%Z.

Definition news (ts : list Z) : nat :=
  length (List.filter (fun t => (T0 <=? t)%Z) ts).

Lemma count_in_window (ts : list Z) (c : Z) :
  Forall placed ts → in_window c →
  length (List.filter (fun t => (c - t <? 1000)%Z) ts) = news ts.
Proof.
  unfold news, in_window. intros Hts Hc.
  induction Hts as [|t ts Ht Hts IH]; simpl; [done|].
  destruct Ht as [Hold|Hnew].
  - destruct (Z.ltb_spec (c - t) 1000); [lia|].
    destruct (Z.leb_spec T0 t); [lia|]. exact IH.
  - destruct (Z.ltb_spec (c - t) 1000); [|lia].
    destruct (Z.leb_spec T0 t); [|lia]. simpl. by rewrite IH.
Qed.

Lemma news_record (ts : list Z) (r : Z) :
  Forall placed ts → in_window r →
  Forall placed (List.filter (fun t => (r - t <? 2000)%Z) ts ++ [r]) ∧
  news (List.filter (fun t => (r - t <? 2000)%Z) ts ++ [r]) = S (news ts).
Proof.
  unfold news, in_window. intros Hts Hr.
  induction Hts as [|t ts Ht Hts [IH1 IH2]]; simpl.
  - split; [apply Forall_singleton; by right|].
    destruct (Z.leb_spec T0 r); [done|lia].
  - destruct (Z.ltb_spec (r - t) 2000); simpl.
    + split; [by apply Forall_cons|].
      destruct (Z.leb_spec T0 t); simpl; by rewrite IH2.
    + split; [done|]. destruct Ht as [Hold|Hnew]; [|lia].
      destruct (Z.leb_spec T0 t); [lia|]. exact IH2.
Qed.

Lemma count_after_window (ts : list Z) (c : Z) :
  Forall placed ts → (T0 + 2000 ≤ c)%Z →
  length (List.filter (fun t => (c - t <? 1000)%Z) ts) = 0.
Proof.
  intros Hts Hc. induction Hts as [|t ts Ht Hts IH]; simpl; [done|].
  destruct (Z.ltb_spec (c - t) 1000); [|exact IH].
  destruct Ht; lia.
Qed.

(** State of the sender [from] during a burst: its policy is [p], its
    recorded timestamps are placed, [j] of them inside the window. *)
Record Win (from : string) (p : Policy) (j : nat) (s : State) : Prop := mkWin {
  win_policy : policies s !! from = Some p;
  win_placed : Forall placed (timestamps_of s from);
  win_news : news (timestamps_of s from) = j
}.

Lemma timestamps_recorded from a s :
  checkRateLimit from (t_check a) s = None →
  timestamps_of (sendMessage from a s).2 from
  = List.filter (fun t => (t_record a - t <? 2000)%Z) (timestamps_of s from)
    ++ [t_record a]
  ∧ policies (sendMessage from a s).2 = policies s.
Proof.
  intros Hc. unfold sendMessage. rewrite Hc. simpl.
  destruct (bool_decide _); simpl; unfold timestamps_of; simpl;
    by rewrite lookup_insert_eq.
Qed.

Lemma sendMessage_in_window from p (k j : nat) a s :
  maxMessagesPerSecond p = Some (Z.of_nat k) →
  Win from p j s → in_window (t_check a) → in_window (t_record a) →
  if j <? k
  then is_sent (sendMessage from a s).1 = true ∧ Win from p (S j) (sendMessage from a s).2
  else is_sent (sendMessage from a s).1 = false ∧ (sendMessage from a s).2 = s.
Proof.
  intros Hk [Hp Hpl Hn] Hc Hr.
  assert (Hcount : recentCount s from (t_check a) = j).
  { unfold recentCount. by rewrite count_in_window. }
  assert (Hchk : checkRateLimit from (t_check a) s
                 = if (Z.of_nat k <=? Z.of_nat j)%Z
                   then Some (RateLimitExceeded from (Z.of_nat k)) else None).
  { unfold checkRateLimit. rewrite Hp. simpl. by rewrite Hk, Hcount. }
  destruct (Nat.ltb_spec j k) as [Hlt|Hge].
  - destruct (Z.leb_spec (Z.of_nat k) (Z.of_nat j)); [lia|].
    destruct (timestamps_recorded from a s Hchk) as [Hts Hpol].
    split; [unfold sendMessage; by rewrite Hchk|].
    destruct (news_record _ _ Hpl Hr) as [H1 H2].
    split; [by rewrite Hpol|by rewrite Hts|by rewrite Hts, H2, Hn].
  - destruct (Z.leb_spec (Z.of_nat k) (Z.of_nat j)); [|lia].
    unfold sendMessage. by rewrite Hchk.
Qed.

Lemma send_all_in_window from p (k : nat) (sends : list Send) :
  maxMessagesPerSecond p = Some (Z.of_nat k) →
  (∀ a, a ∈ sends → in_window (t_check a) ∧ in_window (t_record a)) →
  ∀ j s, Win from p j s →
  is_sent <$> (send_all from sends s).1
    = replicate (min (k - j) (length sends)) true
      ++ replicate (length sends - (k - j)) false
  ∧ ∃ j', Win from p j' (send_all from sends s).2.
Proof.
  intros Hk. induction sends as [|a sends IH]; intros Hin j s HW.
  - simpl. rewrite Nat.min_0_r. split; [done|]. by exists j.
  - destruct (Hin a) as [Hc Hr]; [left|].
    assert (Hin' : ∀ b, b ∈ sends → in_window (t_check b) ∧ in_window (t_record b)).
    { intros b Hb. apply Hin. by right. }
    pose proof (sendMessage_in_window from p k j a s Hk HW Hc Hr) as Hstep.
    cbn [send_all].
    destruct (sendMessage from a s) as [r s1]. cbn [fst snd] in Hstep.
    destruct (Nat.ltb_spec j k) as [Hlt|Hge].
    + destruct Hstep as [Hsent HW1].
      destruct (IH Hin' (S j) s1 HW1) as [Hres Hfin].
      destruct (send_all from sends s1) as [rs s2]. cbn [fst snd] in *.
      split; [|exact Hfin]. rewrite fmap_cons, Hsent, Hres.
      replace (k - j) with (S (k - S j)) by lia. done.
    + destruct Hstep as [Hsent ->].
      destruct (IH Hin' j s HW) as [Hres Hfin].
      destruct (send_all from sends s) as [rs s2]. cbn [fst snd] in *.
      split; [|exact Hfin]. rewrite fmap_cons, Hsent, Hres.
      replace (k - j) with 0 by lia.
      rewrite !Nat.min_0_l, !Nat.sub_0_r. done.
Qed.

End Window.

Lemma news_old (T0 : Z) (ts : list Z) :
  Forall (fun t => (t + 1000 ≤ T0)%Z) ts → news T0 ts = 0 ∧ Forall (placed T0) ts.
Proof.
  unfold news. induction 1 as [|t ts Ht Hts [IH1 IH2]]; simpl; [done|].
  destruct (Z.leb_spec T0 t); [lia|]. split; [done|].
  apply Forall_cons. split; [by left|done].
Qed.

Lemma sendMessage_succeeds_iff (s : State) (from : string) (p : Policy) (k : nat)
    (a : Send) :
  policies s !! from = Some p →
  maxMessagesPerSecond p = Some (Z.of_nat k) →
  is_sent (sendMessage from a s).1 = true ↔ recentCount s from (t_check a) < k.
Proof.
  intros Hp Hk. unfold sendMessage, checkRateLimit. rewrite Hp. simpl. rewrite Hk.
  destruct (Z.leb_spec (Z.of_nat k) (Z.of_nat (recentCount s from (t_check a))));
    simpl; split; intros; try done; lia.
Qed.

(** C9, as the code has it. Let the sender have [maxMessagesPerSecond = k].
    A [sendMessage] call succeeds exactly when fewer than [k] of its
    recorded sends are less than 1000ms old, and throws the rate-limit
    error otherwise. So, when no recorded send is less than 1000ms old at
    time [T0], of any number of calls whose clock readings all fall in the
    window [T0, T0 + 1000) the first [k] succeed and every later one
    throws. When [k ≥ 1], a send made once the window has passed succeeds
    again. *)
Theorem rate_limit_window (s : State) (from : string) (p : Policy) (k : nat)
    (T0 : Z) (sends : list Send) (next : Send) :
  policies s !! from = Some p →
  maxMessagesPerSecond p = Some (Z.of_nat k) →
  Forall (fun t => (t + 1000 ≤ T0)%Z) (timestamps_of s from) →
  Forall (fun a => (T0 ≤ t_check a < T0 + 1000)%Z ∧ (T0 ≤ t_record a < T0 + 1000)%Z)
         sends →
  (is_sent (sendMessage from next s).1 = true ↔ recentCount s from (t_check next) < k)
  ∧ is_sent <$> (send_all from sends s).1
    = replicate (min k (length sends)) true ++ replicate (length sends - k) false
  ∧ (1 ≤ k → (T0 + 2000 ≤ t_check next)%Z →
     is_sent (sendMessage from next (send_all from sends s).2).1 = true).
Proof.
  intros Hp Hk Hold Hsends.
  split; [by apply (sendMessage_succeeds_iff s from p)|].
  destruct (news_old T0 _ Hold) as [Hn Hpl].
  assert (HW : Win T0 from p 0 s) by by split.
  assert (Hin : ∀ a, a ∈ sends →
            in_window T0 (t_check a) ∧ in_window T0 (t_record a)).
  { intros a Ha. by apply (proj1 (Forall_forall _ _) Hsends). }
  destruct (send_all_in_window T0 from p k sends Hk Hin 0 s HW) as [Hres [j' HW']].
  rewrite Nat.sub_0_r in Hres. split; [exact Hres|].
  intros Hk1 Hnext. destruct HW' as [Hp' Hpl' _].
  apply (sendMessage_succeeds_iff _ from p k next Hp' Hk).
  unfold recentCount. rewrite (count_after_window T0) by done. lia.
Qed.

Lemma rate_limit_window_witness :
  is_sent <$> (send_all "S" [at_time 0; at_time 1; at_time 2]
                 (setPolicy "S" (limit 2) init)).1
    = [true; true; false]
  ∧ is_sent (sendMessage "S" (at_time 2000)
               (send_all "S" [at_time 0; at_time 1; at_time 2]
                  (setPolicy "S" (limit 2) init)).2).1 = true.
Proof.
  destruct (rate_limit_window (setPolicy "S" (limit 2) init) "S" (limit 2) 2 0
              [at_time 0; at_time 1; at_time 2] (at_time 2000)) as (_ & H1 & H2).
  - reflexivity.
  - reflexivity.
  - apply Forall_nil_2.
  - repeat constructor; simpl; lia.
  - split; [exact H1|]. apply H2; [lia|simpl; lia].
Defined.

(** C9 as the spec has it fails for [maxMessagesPerSecond = 0]: no send
    succeeds, and none succeeds after the window has passed either. *)
Lemma zero_limit_never_recovers :
  let s := setPolicy "S" (limit 0) (registerHandler "A" init) in
  (sendMessage "S" (at_time 0) s).1 = inl (RateLimitExceeded "S" 0) ∧
  (sendMessage "S" (at_time 5000) (sendMessage "S" (at_time 0) s).2).1
    = inl (RateLimitExceeded "S" 0).
Proof. vm_compute. done. Qed.

(** *** Delivery *)

(** A handler is any function of the message. It may throw, and it may
    use the router before it returns (the router is handed to every unit):
    [h m s] is the run of the handler on message [m] from the router state
    [s], with the error it throws, if any, and the router state it
    leaves. *)
Definition Handler : Type := AgentMessage → State → option string * State.

(** The handler [() => {}], which [spawnAgent] registers for every unit. *)
Definition returns : Handler := fun _ s => (None, s).

Inductive SendError :=
  | RateLimit (e : RateLimitError)
  | HandlerThrew (err : string).

(** [sendMessage] when the handler of the recipient is [h]. The call of
    the handler comes after [recordSend] and [message:sent]; an error of
    the handler leaves [sendMessage] there, before [message:received]. *)
Definition sendMessageH (h : Handler) (from : string) (a : Send) (s : State)
    : (SendError + AgentMessage) * State :=
  match checkRateLimit from (t_check a) s with
  | Some err => (inl (RateLimit err), s)
  | None =>
      let message := mkMessage (uuid a) from (to a) (payload a) (iso a) in
      let s1 := recordSend from (t_record a) s in
      let s2 := emit (message_sent message) s1 in
      if bool_decide (to a ∈ handlers s2) then
        match h message (deliver message s2) with
        | (Some err, s3) => (inl (HandlerThrew err), s3)
        | (None, s3) => (inr message, emit (message_received message) s3)
        end
      else (inr message, s2)
  end.

(** A handler that throws: the send is recorded and [message:sent] is
    emitted, [message:received] is not, and the call throws. *)
Example throwing_handler :
  let s := registerHandler "A" init in
  let r := sendMessageH (fun _ s => (Some "boom"%string, s)) "S" (at_time 0) s in
  r.1 = inl (HandlerThrew "boom") ∧
  emitted r.2 = [message_sent (mkMessage "m" "S" "A" "hi" "d")] ∧
  sendTimestamps r.2 !! "S"%string = Some [0%Z].
Proof. vm_compute. done. Qed.

(** X16. What a [sendMessage] call leaves behind. A call refused by the
    rate limit throws and leaves the router as it was. Otherwise the send
    is recorded for the rate limit and [message:sent] is emitted, and then:
    when the recipient has no handler the call returns the message built
    from its arguments and the message is handed to nobody; when it has
    one, the handler is called with the message, a handler that returns is
    followed by [message:received] and the call returns the message, and a
    handler that throws makes the call throw that error, with the send
    recorded and [message:sent] emitted and without [message:received]. A
    sender with no policy, or with a policy without
    [maxMessagesPerSecond], is never refused by the rate limit. With the
    handler [() => {}] the call is [sendMessage] above. *)
Theorem sendMessage_delivery (h : Handler) (from : string) (a : Send) (s : State) :
  let m := mkMessage (uuid a) from (to a) (payload a) (iso a) in
  let r := sendMessageH h from a s in
  let sent := emit (message_sent m) (recordSend from (t_record a) s) in
  (∀ e, checkRateLimit from (t_check a) s = Some e → r = (inl (RateLimit e), s)) ∧
  (checkRateLimit from (t_check a) s = None →
     emitted sent = emitted s ++ [message_sent m] ∧
     delivered sent = delivered s ∧
     timestamps_of sent from
       = List.filter (fun t => (t_record a - t <? 2000)%Z) (timestamps_of s from)
         ++ [t_record a] ∧
     (to a ∉ handlers s → r = (inr m, sent)) ∧
     (to a ∈ handlers s →
        (∀ err s3, h m (deliver m sent) = (Some err, s3) →
           r = (inl (HandlerThrew err), s3)) ∧
        (∀ s3, h m (deliver m sent) = (None, s3) →
           r = (inr m, emit (message_received m) s3)))) ∧
  (policies s !! from ≫= maxMessagesPerSecond = None →
     checkRateLimit from (t_check a) s = None) ∧
  sendMessageH returns from a s
    = (match (sendMessage from a s).1 with
       | inl e => inl (RateLimit e)
       | inr m' => inr m'
       end, (sendMessage from a s).2).
Proof.
  intros m r sent. unfold r, sendMessageH, sendMessage.
  split; [|split; [|split]].
  - intros e ->. done.
  - intros ->. fold m. fold sent.
    split; [done|]. split; [done|]. split.
    { unfold timestamps_of. simpl. by rewrite lookup_insert_eq. }
    change (handlers sent) with (handlers s). split.
    + intros Hto. by rewrite bool_decide_eq_false_2.
    + intros Hto. rewrite bool_decide_eq_true_2 by done.
      split; [intros err s3 ->|intros s3 ->]; done.
  - unfold checkRateLimit. by intros ->.
  - destruct (checkRateLimit from (t_check a) s); [done|].
    cbv zeta. by case_bool_decide.
Qed.

(** *** The rate limit over a whole history *)

(** Calls of [sendMessage] by any senders, in order. *)
Fixpoint route (l : list (string * Send)) (s : State)
    : list (RateLimitError + AgentMessage) * State :=
  match l with
  | [] => ([], s)
  | (from, a) :: l' =>
      let (r, s1) := sendMessage from a s in
      let (rs, s2) := route l' s1 in
      (r :: rs, s2)
  end.

(** The times at which the calls of [from] that returned were recorded. *)
Fixpoint accepted (from : string) (l : list (string * Send)) (s : State) : list Z :=
  match l with
  | [] => []
  | (sender, a) :: l' =>
      (if String.eqb sender from && is_sent (sendMessage sender a s).1
       then [t_record a] else [])
      ++ accepted from l' (sendMessage sender a s).2
  end.

(** The clock does not go back: every reading is at least the one before. *)
Fixpoint monotone (t0 : Z) (l : list (string * Send)) : Prop :=
  match l with
  | [] => True
  | (_, a) :: l' => (t0 ≤ t_check a)%Z ∧ (t_check a ≤ t_record a)%Z ∧ monotone (t_record a) l'
  end.

(** [t] lies in the window of 1000ms that ends at [T]. *)
Definition within (T t : Z) : bool := (T - t <? 1000)%Z && (t <=? T)%Z.

Lemma filter_length_le {A} (f g : A → bool) (l : list A) :
  (∀ x, x ∈ l → f x = true → g x = true) →
  length (List.filter f l) ≤ length (List.filter g l).
Proof.
  induction l as [|x l IH]; intros H; simpl; [done|].
  assert (IH' : length (List.filter f l) ≤ length (List.filter g l)).
  { apply IH. intros y Hy. apply H. by right. }
  destruct (f x) eqn:Ef.
  - rewrite (H x) by (done || left). simpl. lia.
  - destruct (g x); simpl; lia.
Qed.

Lemma filter_ext_in {A} (f g : A → bool) (l : list A) :
  (∀ x, x ∈ l → f x = g x) → List.filter f l = List.filter g l.
Proof.
  induction l as [|x l IH]; intros H; simpl; [done|].
  rewrite (H x) by left. rewrite IH; [done|]. intros y Hy. apply H. by right.
Qed.

Lemma filter_filter_keep {A} (f g : A → bool) (l : list A) :
  (∀ x, f x = true → g x = true) →
  List.filter f (List.filter g l) = List.filter f l.
Proof.
  intros H. induction l as [|x l IH]; simpl; [done|].
  destruct (g x) eqn:Eg; simpl.
  - by rewrite IH.
  - destruct (f x) eqn:Ef; [|done]. rewrite (H x Ef) in Eg. done.
Qed.

(** What the history so far has made true for the sender [from]: [sent]
    are the times of its accepted sends, [last] the latest clock reading. *)
Record Hist (from : string) (p : Policy) (k : nat) (sent : list Z) (last : Z)
    (s : State) : Prop := mkHist {
  hist_policy : policies s !! from = Some p;
  hist_before : Forall (λ t, (t ≤ last)%Z) sent;
  hist_bound : ∀ T, length (List.filter (within T) sent) ≤ k;
  hist_stored : ∀ T, (last ≤ T)%Z →
    List.filter (λ t, (T - t <? 1000)%Z) (timestamps_of s from)
    = List.filter (λ t, (T - t <? 1000)%Z) sent
}.

Lemma hist_later from p k sent last last' s :
  (last ≤ last')%Z → Hist from p k sent last s → Hist from p k sent last' s.
Proof.
  intros Hle [H1 H2 H3 H4]. split; [done| |done|].
  - eapply Forall_impl; [exact H2|]. simpl. intros. lia.
  - intros T HT. apply H4. lia.
Qed.

Lemma sendMessage_other from sender a s :
  sender ≠ from →
  timestamps_of (sendMessage sender a s).2 from = timestamps_of s from ∧
  policies (sendMessage sender a s).2 = policies s.
Proof.
  intros Hne. unfold sendMessage.
  destruct (checkRateLimit sender (t_check a) s); [done|]. simpl.
  destruct (bool_decide _); simpl; unfold timestamps_of; simpl;
    by rewrite lookup_insert_ne.
Qed.

Lemma sendMessage_hist from p (k : nat) sent last sender a s :
  maxMessagesPerSecond p = Some (Z.of_nat k) →
  (last ≤ t_check a)%Z → (t_check a ≤ t_record a)%Z →
  Hist from p k sent last s →
  Hist from p k
       (sent ++ if String.eqb sender from && is_sent (sendMessage sender a s).1
                then [t_record a] else [])
       (t_record a) (sendMessage sender a s).2.
Proof.
  intros Hk Hc Hr HH.
  destruct (String.eqb_spec sender from) as [->|Hne]; cbn [andb].
  2: { rewrite app_nil_r. destruct (sendMessage_other from sender a s Hne) as [Ht Hp].
       apply (hist_later from p k sent last); [lia|].
       destruct HH as [H1 H2 H3 H4]. split; [by rewrite Hp|done|done|].
       intros T HT. rewrite Ht. by apply H4. }
  destruct (is_sent (sendMessage from a s).1) eqn:Hsent.
  2: { rewrite app_nil_r.
       assert ((sendMessage from a s).2 = s) as ->.
       { unfold sendMessage in *. by destruct (checkRateLimit from (t_check a) s). }
       apply (hist_later from p k sent last); [lia|done]. }
  destruct HH as [H1 H2 H3 H4].
  assert (Hlt : recentCount s from (t_check a) < k).
  { by apply (sendMessage_succeeds_iff s from p k a H1 Hk). }
  assert (Hchk : checkRateLimit from (t_check a) s = None).
  { unfold sendMessage in Hsent.
    by destruct (checkRateLimit from (t_check a) s). }
  destruct (timestamps_recorded from a s Hchk) as [Hts Hpol].
  split.
  - by rewrite Hpol.
  - apply Forall_app. split; [|by apply Forall_singleton].
    eapply Forall_impl; [exact H2|]. simpl. intros. lia.
  - intros T. rewrite List.filter_app, length_app.
    destruct (Z.leb_spec (t_record a) T) as [HT|HT].
    + assert (Hle : length (List.filter (within T) sent) ≤ recentCount s from (t_check a)).
      { unfold recentCount. rewrite H4 by done.
        apply filter_length_le. intros t Ht.
        pose proof (proj1 (Forall_forall _ _) H2 t Ht) as Hb. simpl in Hb.
        unfold within. intros [H5 H6]%andb_true_iff.
        apply Z.ltb_lt in H5. apply Z.ltb_lt. lia. }
      pose proof (length_filter (within T) [t_record a]) as Hone.
      simpl in Hone |- *. destruct (within T (t_record a)); simpl; lia.
    + assert (within T (t_record a) = false) as Hout.
      { unfold within. apply andb_false_iff. right. apply Z.leb_gt. lia. }
      simpl. rewrite Hout. simpl. specialize (H3 T). lia.
  - intros T HT. rewrite Hts, !List.filter_app. f_equal.
    rewrite filter_filter_keep.
    + apply H4. lia.
    + intros t H5%Z.ltb_lt. apply Z.ltb_lt. lia.
Qed.

Lemma route_hist from p (k : nat) l :
  maxMessagesPerSecond p = Some (Z.of_nat k) →
  ∀ sent last s, monotone last l → Hist from p k sent last s →
  ∃ last', Hist from p k (sent ++ accepted from l s) last' (route l s).2.
Proof.
  intros Hk. induction l as [|[sender a] l IH]; intros sent last s Hm HH.
  - exists last. simpl. by rewrite app_nil_r.
  - destruct Hm as (Hc & Hr & Hm).
    pose proof (sendMessage_hist from p k sent last sender a s Hk Hc Hr HH) as H1.
    destruct (IH _ _ _ Hm H1) as [last' H2]. exists last'.
    cbn [route accepted]. destruct (sendMessage sender a s) as [r s1].
    cbn [fst snd] in *. destruct (route l s1) as [rs s2]. cbn [fst snd] in *.
    by rewrite app_assoc.
Qed.

(** X17. The rate limit holds over every window. Let the sender have
    [maxMessagesPerSecond = k] and no recorded send, and let the clock
    never go back. Through any history of [sendMessage] calls, by this
    sender and by others, at most [k] of the sender's calls that returned
    were recorded within any window of 1000ms, wherever the window ends. *)
Theorem at_most_k_per_window (s : State) (from : string) (p : Policy) (k : nat)
    (t0 : Z) (l : list (string * Send)) (T : Z) :
  policies s !! from = Some p →
  maxMessagesPerSecond p = Some (Z.of_nat k) →
  timestamps_of s from = [] →
  monotone t0 l →
  length (List.filter (within T) (accepted from l s)) ≤ k.
Proof.
  intros Hp Hk Hts Hm.
  assert (HH : Hist from p k [] t0 s).
  { split; [done|constructor|simpl; lia|]. intros T' _. by rewrite Hts. }
  destruct (route_hist from p k l Hk [] t0 s Hm HH) as [last' H].
  apply (hist_bound _ _ _ _ _ _ H T).
Qed.

Definition busy_history : list (string * Send) :=
  [("S"%string, at_time 0); ("S"%string, at_time 400); ("R"%string, at_time 500);
   ("S"%string, at_time 900); ("S"%string, at_time 1100);
   ("S"%string, at_time 1200); ("S"%string, at_time 1450)].

Lemma at_most_k_per_window_witness :
  length (List.filter (within 1450)
            (accepted "S" busy_history (setPolicy "S" (limit 2) init))) ≤ 2.
Proof.
  apply (at_most_k_per_window (setPolicy "S" (limit 2) init) "S" (limit 2) 2 0).
  - reflexivity.
  - reflexivity.
  - reflexivity.
  - simpl. lia.
Defined.

Example busy_history_accepted :
  accepted "S" busy_history (setPolicy "S" (limit 2) init) = [0; 400; 1100; 1450]%Z.
Proof. vm_compute. done. Qed.

End MessageRouter.

(** ** The services shared by a run, and dynamic spawning (agent-runtime.ts) *)

Inductive AgentEvent :=
  | agent_spawned (agentName parentAgent correlationId : string)
  | agent_started (agentName correlationId : string)
  | agent_thinking (agentName correlationId : string)
  | agent_idle (agentName correlationId : string)
  | agent_error (agentName error correlationId : string)
  | run_started (task correlationId : string)
  | run_completed (status correlationId : string).

(** The objects an [AgentRuntime] holds by reference; every runtime of a
    run shares them. *)
Record World := mkWorld {
  registry : Registry.State;
  policyEnforcer : PolicyEnforcer.State;
  messageRouter : MessageRouter.State;
  scheduler : Scheduler.State;
  bus : list AgentEvent
}.

Module AgentRuntime.

(** [definition.tools.map(name => registry.getTool(name)).filter(Boolean)],
    captured by the body of the job. *)
Definition resolve_tools (definition : AgentDefinition) (r : Registry.State)
    : list string :=
  List.filter (fun n => Registry.hasTool n r) (tools definition).

Definition with_scheduler (s : Scheduler.State) (w : World) : World :=
  mkWorld (registry w) (policyEnforcer w) (messageRouter w) s (bus w).

Definition emit (e : AgentEvent) (w : World) : World :=
  mkWorld (registry w) (policyEnforcer w) (messageRouter w) (scheduler w)
          (bus w ++ [e]).

(** [spawnAgent] of the runtime of agent [agentName] with correlation id
    [correlationId], up to its call of [scheduler.enqueue]: the definition
    is registered when its name is not known, the budget and the router
    policy are registered in every case, and [agent:spawned] is emitted.
    [inl] is a rejection. *)
Definition spawn_prepare (agentName correlationId : string)
    (definition : AgentDefinition) (w : World) : string + World :=
  match (if Registry.hasAgent (name definition) (registry w)
         then inr (registry w)
         else Registry.registerAgent definition (registry w)) with
  | inl err => inl err
  | inr reg =>
      let pe := (PolicyEnforcer.registerAgent (name definition) (policy definition)
                   (policyEnforcer w)).2 in
      let mr := MessageRouter.setPolicy (name definition) (policy definition)
                  (MessageRouter.registerHandler (name definition) (messageRouter w)) in
      inr (mkWorld reg pe mr (scheduler w)
                   (bus w ++ [agent_spawned (name definition) agentName correlationId]))
  end.

Section Spawn.

(** [executor_prefix definition task w]: what
    [definition.executor(childRuntime, task)] does to the services before
    its first [await]; the child runtime holds the same services. *)
Variable executor_prefix : AgentDefinition → string → World → World.

(** The bodies of the jobs enqueued by other calls, by job reference, up
    to their first [await]. *)
Variable bodies : nat → World → World.

(** The body [spawnAgent] hands to [enqueue], up to its first [await]:
    [checkBudget] may throw, which ends the body; a definition without an
    executor gets the stub result, and its body has no [await]. *)
Definition spawned_body (correlationId : string) (definition : AgentDefinition)
    (task : string) (w : World) : World :=
  match (PolicyEnforcer.checkBudget (name definition) (policyEnforcer w)).1 with
  | inl _ => w
  | inr _ =>
      let w1 := emit (agent_started (name definition) correlationId) w in
      let w2 := emit (agent_thinking (name definition) correlationId) w1 in
      if executor definition then executor_prefix definition task w2
      else emit (agent_idle (name definition) correlationId) w2
  end.

(** The bodies the scheduler holds once the job of [spawnAgent] has
    reference [ref]. *)
Definition bodies_with (ref : nat) (correlationId : string)
    (definition : AgentDefinition) (task : string) (r : nat) : World → World :=
  if Nat.eqb r ref then spawned_body correlationId definition task else bodies r.

(** [spawnAgent]; [uuid] and [createdAt] are read by [enqueue], and [fuel]
    is the number of turns of its [drain] loop. The result is the reference
    of the promise of the new job. The scheduler starts the job inside
    [enqueue] when a slot is free, and the body then runs up to its first
    [await] before [spawnAgent] returns. *)
Definition spawnAgent (fuel : nat) (agentName correlationId : string)
    (definition : AgentDefinition) (task uuid createdAt : string) (w : World)
    : string + nat * World :=
  match spawn_prepare agentName correlationId definition w with
  | inl err => inl err
  | inr w1 =>
      inr (Scheduler.enqueue_with scheduler with_scheduler
             (bodies_with (length (Scheduler.allJobs (scheduler w1)))
                          correlationId definition task)
             fuel uuid (name definition) task createdAt (Some correlationId) w1)
  end.

End Spawn.





Definition known_agent : AgentDefinition := mkAgent "A" "p" [] no_policy [] false.

(** Unit [A] is registered and has used 50 tokens. *)
Definition world_with_usage : World :=
  mkWorld (Registry.mkState [("A"%string, known_agent)] [] [])
          (PolicyEnforcer.bind (PolicyEnforcer.registerAgent "A" no_policy)
             (fun _ => PolicyEnforcer.addTokenUsage "A" 50) PolicyEnforcer.init).2
          MessageRouter.init (Scheduler.init 5) [].


(** The job of [spawnAgent] is started inside [spawnAgent] when a slot is
    free, and its body runs there up to its first [await]: the events of
    the stub body are on the bus when [spawnAgent] returns, and an executor
    that registers the budget of another unit has reset that unit's
    counters by then. *)
Example spawn_runs_body :
  match spawnAgent (fun _ _ w => w) (fun _ w => w) 1
                   "P" "run" (mkAgent "B" "p" [] no_policy [] false) "t" "u" "d"
                   world_with_usage with
  | inr (_, w') => bus w'
  | inl _ => []
  end = [agent_spawned "B" "P" "run"; agent_started "B" "run";
         agent_thinking "B" "run"; agent_idle "B" "run"] ∧
  match spawnAgent
          (fun _ _ w =>
             mkWorld (registry w)
                     (PolicyEnforcer.registerAgent "A" no_policy (policyEnforcer w)).2
                     (messageRouter w) (scheduler w) (bus w))
          (fun _ w => w) 1
          "P" "run" (mkAgent "B" "p" [] no_policy [] true) "t" "u" "d"
          world_with_usage with
  | inr (_, w') => PolicyEnforcer.usage (policyEnforcer w') "A"
  | inl _ => None
  end = Some (0, 0)%Q.
Proof. vm_compute. done. Qed.


(** *** Tool calls *)

Definition tool_not_found (agent tool : string) : string :=
  ("Agent " ++ dq ++ agent ++ dq ++ ": tool " ++ dq ++ tool ++ dq ++ " not found.")%string.

Definition tool_not_allowed (agent tool : string) : string :=
  ("Agent " ++ dq ++ agent ++ dq ++ ": tool " ++ dq ++ tool ++ dq
   ++ " is not on the allowlist.")%string.

(** [executeTool] up to its call of [tool.execute(input)]: [inl] is the
    error thrown, [inr tt] means the tool is run. [rt_tools] are the names
    of the tools the runtime was built with. *)
Definition executeTool (definition : AgentDefinition) (rt_tools : list string)
    (toolName : string) : string + unit :=
  match List.find (fun t => String.eqb t toolName) rt_tools with
  | None => inl (tool_not_found (name definition) toolName)
  | Some _ =>
      match toolAllowlist (policy definition) with
      | Some allowlist =>
          if bool_decide (toolName ∈ allowlist) then inr tt
          else inl (tool_not_allowed (name definition) toolName)
      | None => inr tt
      end
  end.

Lemma find_eqb_Some (x : string) (l : list string) :
  x ∈ l → List.find (fun t => String.eqb t x) l = Some x.
Proof.
  induction l as [|y l IH]; simpl.
  - by intros ?%elem_of_nil.
  - destruct (String.eqb_spec y x) as [->|Hne]; [done|].
    intros [?|Hin]%elem_of_cons; [congruence|]. by apply IH.
Qed.

Lemma find_eqb_None (x : string) (l : list string) :
  x ∉ l → List.find (fun t => String.eqb t x) l = None.
Proof.
  induction l as [|y l IH]; simpl; [done|].
  intros Hn. destruct (String.eqb_spec y x) as [->|Hne].
  - exfalso. apply Hn. left.
  - apply IH. intros Hin. apply Hn. by right.
Qed.

End AgentRuntime.

(** ** The run pipeline (execution-context.ts) *)

Module ExecutionContext.

Inductive RunStatus := idle | running | paused | completed | cancelled | failed.

Definition status_name (st : RunStatus) : string :=
  match st with
  | idle => "idle" | running => "running" | paused => "paused"
  | completed => "completed" | cancelled => "cancelled" | failed => "failed"
  end.

Record ExecutionResult := mkResult {
  result_status : RunStatus;
  result_claims : list ClaimGraph.Claim;
  result_consensus : string;
  result_conflicts : list string;
  jobResults : list Scheduler.Job
}.

(** The services a run owns. The phases that reach outside the process
    (MCP connection, tool description, the awaited job bodies) act on
    them. *)
Record Services := mkServices {
  world : World;
  claimGraph : ClaimGraph.State;
  mcpClients : list string
}.

(** Calls that [run] itself makes, recorded in order. *)
Inductive Call := call_summarize | call_getAllJobs | call_cleanup.

Record Ctx := mkCtx {
  services : Services;
  status : RunStatus;
  correlationId : string;
  calls : list Call
}.

(** What one run reads from its environment: the uuids and the date, and
    what the code outside this file does when [enqueue] starts a job before
    it returns. [executor_prefix env def task sv] is what
    [def.executor(runtime, task)] does to the services before its first
    [await] (the runtime holds the services of the run);
    [other_bodies env ref] is the same for the body of a job that
    [executeAgents] did not enqueue; [drain_fuel] is the number of turns
    taken by the [drain] loop of an [enqueue] call. *)
Record Env := mkEnv {
  run_uuid : string;
  job_uuid : nat → string;
  now_iso : string;
  executor_prefix : AgentDefinition → string → Services → Services;
  other_bodies : nat → Services → Services;
  drain_fuel : nat
}.

(** State and exception monad of the pipeline; [inl] is a thrown error. *)
Definition M (A : Type) : Type := Ctx → (string + A) * Ctx.

Definition ret {A} (a : A) : M A := fun c => (inr a, c).
Definition throw {A} (e : string) : M A := fun c => (inl e, c).
Definition bind {A B} (m : M A) (f : A → M B) : M B :=
  fun c => match m c with
           | (inl e, c') => (inl e, c')
           | (inr a, c') => f a c'
           end.
Definition gets {A} (f : Ctx → A) : M A := fun c => (inr (f c), c).
Definition modify (f : Ctx → Ctx) : M unit := fun c => (inr tt, f c).

(** [try body catch (err) handler finally fin] *)
Definition try_catch_finally {A} (body : M A) (handler : string → M A)
    (fin : M unit) : M A :=
  fun c =>
    let (r, c1) := match body c with
                   | (inl err, c') => handler err c'
                   | (inr a, c') => (inr a, c')
                   end in
    match fin c1 with
    | (inl err, c2) => (inl err, c2)
    | (inr _, c2) => (r, c2)
    end.

Notation "'let*' x ':=' m 'in' k" := (bind m (fun x => k))
  (at level 10, x binder, k at level 200).

Definition set_services (sv : Services) (c : Ctx) : Ctx :=
  mkCtx sv (status c) (correlationId c) (calls c).

Definition set_world (w : World) (c : Ctx) : Ctx :=
  set_services (mkServices w (claimGraph (services c)) (mcpClients (services c))) c.

Definition set_status (st : RunStatus) : M unit :=
  modify (fun c => mkCtx (services c) st (correlationId c) (calls c)).

Definition set_correlationId (i : string) : M unit :=
  modify (fun c => mkCtx (services c) (status c) i (calls c)).

Definition log_call (k : Call) : M unit :=
  modify (fun c => mkCtx (services c) (status c) (correlationId c) (calls c ++ [k])).

Definition emit (e : string → AgentEvent) : M unit :=
  modify (fun c =>
    let w := world (services c) in
    set_world (mkWorld (registry w) (policyEnforcer w) (messageRouter w)
                       (scheduler w) (bus w ++ [e (correlationId c)])) c).

(** A phase that acts on the services only. *)
Definition lift (phase : Services → (string + unit) * Services) : M unit :=
  fun c => let (r, sv) := phase (services c) in (r, set_services sv c).

Definition unknown_tool (agent tool : string) : string :=
  ("Agent " ++ dq ++ agent ++ dq ++ " references unknown tool " ++ dq ++ tool
   ++ dq ++ ".")%string.

Definition unknown_mcp (agent mcp : string) : string :=
  ("Agent " ++ dq ++ agent ++ dq ++ " references unknown MCP " ++ dq ++ mcp
   ++ dq ++ ".")%string.

Definition not_allowed (agent tool : string) : string :=
  ("Agent " ++ dq ++ agent ++ dq ++ " tool " ++ dq ++ tool ++ dq
   ++ " is not on the toolAllowlist.")%string.

(** [validateToolAllowlist]: [Some] is the error thrown. *)
Definition validateToolAllowlist (agent : AgentDefinition) : option string :=
  match toolAllowlist (policy agent) with
  | None | Some [] => None
  | Some allowlist =>
      not_allowed (name agent) <$>
        List.find (fun t => negb (bool_decide (t ∈ allowlist))) (tools agent)
  end.

Definition validate_agent (r : Registry.State) (agent : AgentDefinition)
    : option string :=
  match List.find (fun t => negb (Registry.hasTool t r)) (tools agent) with
  | Some t => Some (unknown_tool (name agent) t)
  | None =>
      match List.find (fun m => negb (Registry.hasMCP m r)) (mcpServers agent) with
      | Some m => Some (unknown_mcp (name agent) m)
      | None => validateToolAllowlist agent
      end
  end.

Fixpoint first_error {A} (f : A → option string) (l : list A) : option string :=
  match l with
  | [] => None
  | x :: l' => match f x with Some e => Some e | None => first_error f l' end
  end.

Definition validate : M unit :=
  let* r := gets (fun c => registry (world (services c))) in
  match first_error (validate_agent r) (Registry.listAgents r) with
  | Some err => throw err
  | None => ret tt
  end.

(** [materializeAgents]: the definitions with their resolved tools; each
    unit gets a message handler and its policy in the router. *)
Definition materializeAgents : M (list (AgentDefinition * list string)) :=
  let* r := gets (fun c => registry (world (services c))) in
  let agents := Registry.listAgents r in
  let* _ := modify (fun c =>
    let w := world (services c) in
    let mr := foldl (fun acc def =>
                MessageRouter.setPolicy (name def) (policy def)
                  (MessageRouter.registerHandler (name def) acc))
              (messageRouter w) agents in
    set_world (mkWorld (registry w) (policyEnforcer w) mr (scheduler w) (bus w)) c) in
  ret ((fun def => (def, AgentRuntime.resolve_tools def r)) <$> agents).

Definition register_budgets (agents : list (AgentDefinition * list string)) : M unit :=
  modify (fun c =>
    let w := world (services c) in
    let pe := foldl (fun acc a =>
                (PolicyEnforcer.registerAgent (name a.1) (policy a.1) acc).2)
              (policyEnforcer w) agents in
    set_world (mkWorld (registry w) pe (messageRouter w) (scheduler w) (bus w)) c).

Definition with_world (w : World) (sv : Services) : Services :=
  mkServices w (claimGraph sv) (mcpClients sv).

Definition sv_scheduler (sv : Services) : Scheduler.State := scheduler (world sv).

Definition with_sv_scheduler (s : Scheduler.State) (sv : Services) : Services :=
  with_world (AgentRuntime.with_scheduler s (world sv)) sv.

Definition sv_emit (e : AgentEvent) (sv : Services) : Services :=
  with_world (AgentRuntime.emit e (world sv)) sv.

(** The body [executeAgents] hands to [enqueue] for agent [a], up to its
    first [await]: [checkBudget] may throw, which ends the body; a
    definition without an executor gets the stub result, and its body has
    no [await]. *)
Definition agent_body (env : Env) (corr : string)
    (a : AgentDefinition * list string) (task : string) (sv : Services) : Services :=
  match (PolicyEnforcer.checkBudget (name a.1) (policyEnforcer (world sv))).1 with
  | inl _ => sv
  | inr _ =>
      let sv1 := sv_emit (agent_started (name a.1) corr) sv in
      let sv2 := sv_emit (agent_thinking (name a.1) corr) sv1 in
      if executor a.1 then executor_prefix env a.1 task sv2
      else sv_emit (agent_idle (name a.1) corr) sv2
  end.

(** The bodies the scheduler holds once the job of agent [a] has reference
    [ref]. *)
Definition bodies_with (env : Env) (corr : string) (task : string)
    (bodies : nat → Services → Services) (ref : nat)
    (a : AgentDefinition * list string) (r : nat) : Services → Services :=
  if Nat.eqb r ref then agent_body env corr a task else bodies r.

(** The [agents.map] of [executeAgents] that enqueues one job per unit,
    from index [i]; the handles are the agent names with the references of
    their promises. Each [enqueue] starts the jobs for which a slot is
    free, and their bodies run up to their first [await] before the next
    agent is enqueued. *)
Fixpoint enqueue_all (env : Env) (task : string) (i : nat)
    (agents : list (AgentDefinition * list string)) (corr : string)
    (bodies : nat → Services → Services) (sv : Services)
    : list (string * nat) * Services :=
  match agents with
  | [] => ([], sv)
  | a :: rest =>
      let bodies1 :=
        bodies_with env corr task bodies
                    (length (Scheduler.allJobs (sv_scheduler sv))) a in
      let (ref, sv1) :=
        Scheduler.enqueue_with sv_scheduler with_sv_scheduler bodies1 (drain_fuel env)
          (job_uuid env i) (name a.1) task (now_iso env) (Some corr) sv in
      let (hs, sv2) := enqueue_all env task (S i) rest corr bodies1 sv1 in
      ((name a.1, ref) :: hs, sv2)
  end.

(** The [agents.map] of [executeAgents], in the pipeline. *)
Definition enqueue_handles (env : Env) (agents : list (AgentDefinition * list string))
    (task : string) : M (list (string * nat)) :=
  fun c =>
    let (hs, sv) := enqueue_all env task 0 agents (correlationId c)
                                (other_bodies env) (services c) in
    (inr hs, set_services sv c).

(** The loop of [executeAgents] that reports the rejected handles. *)
Definition report_errors (handles : list (string * nat)) : M unit :=
  modify (fun c =>
    let w := world (services c) in
    let errs := omap (fun h =>
                  match Scheduler.promises (scheduler w) !! h.2 with
                  | Some (Scheduler.Rejected reason) =>
                      Some (agent_error h.1 reason (correlationId c))
                  | _ => None
                  end) handles in
    set_world (mkWorld (registry w) (policyEnforcer w) (messageRouter w)
                       (scheduler w) (bus w ++ errs)) c).

Definition cleanup : M unit :=
  let* _ := log_call call_cleanup in
  modify (fun c =>
    let w := world (services c) in
    set_services
      (mkServices (mkWorld (registry w) (PolicyEnforcer.clear (policyEnforcer w)).2
                           (messageRouter w) (scheduler w) (bus w))
                  (claimGraph (services c)) []) c).

Section Run.

(** The awaited phases that depend on the outside world: connecting the
    MCP servers, describing the tools, and the settling of all the handles
    enqueued by [executeAgents]. *)
Variable connectMCPServers : Services → (string + unit) * Services.
Variable autoDescribeTools : Services → (string + unit) * Services.
Variable awaitHandles : Services → (string + unit) * Services.

Definition executeAgents (env : Env) (agents : list (AgentDefinition * list string))
    (task : string) : M unit :=
  let* _ := register_budgets agents in
  let* handles := enqueue_handles env agents task in
  let* _ := lift awaitHandles in
  report_errors handles.

Definition finalize : M ExecutionResult :=
  let* _ := log_call call_summarize in
  let* summary := gets (fun c => ClaimGraph.summarize (claimGraph (services c))) in
  let* _ := log_call call_getAllJobs in
  let* allJobs := gets (fun c => Scheduler.getAllJobs (scheduler (world (services c)))) in
  let* _ := set_status completed in
  let* _ := emit (run_completed (status_name completed)) in
  ret (mkResult completed (ClaimGraph.sorted_claims summary)
         (String.concat "; " (ClaimGraph.consensus summary))
         (ClaimGraph.conflicts summary) allJobs).

Definition run_body (env : Env) (task : string) : M ExecutionResult :=
  let* _ := set_status running in
  let* _ := set_correlationId (run_uuid env) in
  let* _ := emit (run_started task) in
  let* _ := validate in
  let* _ := lift connectMCPServers in
  let* agents := materializeAgents in
  let* _ := lift autoDescribeTools in
  let* _ := executeAgents env agents task in
  finalize.

Definition run_catch (err : string) : M ExecutionResult :=
  let* _ := set_status failed in
  let* _ := emit (run_completed (status_name failed)) in
  throw err.

Definition run (env : Env) (task : string) : M ExecutionResult :=
  try_catch_finally (run_body env task) run_catch cleanup.








End Run.

Definition phase_ok (sv : Services) : (string + unit) * Services := (inr tt, sv).

(** A registry whose only agent refers to a tool that is not registered. *)
Definition ctx_unknown_tool : Ctx :=
  mkCtx (mkServices
           (mkWorld (Registry.mkState
                       [("A"%string, mkAgent "A" "p" ["missing"%string] no_policy [] false)]
                       [] [])
                    PolicyEnforcer.init MessageRouter.init (Scheduler.init 5) [])
           ClaimGraph.init [])
        idle "" [].

Definition env0 : Env :=
  mkEnv "run" (fun _ => "job"%string) "d" (fun _ _ sv => sv) (fun _ sv => sv) 8.


(** A run in which every phase succeeds, for comparison. *)
Example successful_run_summarizes :
  let c := mkCtx (mkServices
                    (mkWorld (Registry.mkState [] [] []) PolicyEnforcer.init
                             MessageRouter.init (Scheduler.init 5) [])
                    ClaimGraph.init [])
                 idle "" [] in
  let r := run phase_ok phase_ok phase_ok env0 "t" c in
  calls r.2 = [call_summarize; call_getAllJobs; call_cleanup] ∧
  status r.2 = completed.
Proof. vm_compute. done. Qed.


(** *** Validation *)

(** What [validate] requires of one agent definition. *)
Definition well_formed (r : Registry.State) (agent : AgentDefinition) : Prop :=
  (∀ t, t ∈ tools agent → Registry.hasTool t r = true) ∧
  (∀ m, m ∈ mcpServers agent → Registry.hasMCP m r = true) ∧
  match toolAllowlist (policy agent) with
  | None | Some [] => True
  | Some allowlist => ∀ t, t ∈ tools agent → t ∈ allowlist
  end.

Lemma find_None_iff {A} (f : A → bool) (l : list A) :
  List.find f l = None ↔ ∀ x, x ∈ l → f x = false.
Proof.
  split.
  - intros H x Hx%list_elem_of_In. by apply (List.find_none f l H).
  - intros H. induction l as [|y l IH]; simpl; [done|].
    rewrite (H y) by left. apply IH. intros x Hx. apply H. by right.
Qed.

Lemma validateToolAllowlist_None agent :
  validateToolAllowlist agent = None ↔
  match toolAllowlist (policy agent) with
  | None | Some [] => True
  | Some allowlist => ∀ t, t ∈ tools agent → t ∈ allowlist
  end.
Proof.
  unfold validateToolAllowlist.
  destruct (toolAllowlist (policy agent)) as [[|a l]|]; [done| |done].
  rewrite fmap_None, find_None_iff. split.
  - intros H t Ht. specialize (H t Ht). apply negb_false_iff in H.
    by apply bool_decide_eq_true in H.
  - intros H t Ht. apply negb_false_iff, bool_decide_eq_true. by apply H.
Qed.

Lemma validate_agent_None r agent :
  validate_agent r agent = None ↔ well_formed r agent.
Proof.
  unfold validate_agent, well_formed.
  rewrite <- validateToolAllowlist_None.
  destruct (List.find _ (tools agent)) as [t|] eqn:Ht.
  { split; [done|]. intros (H & _ & _).
    destruct (List.find_some _ _ Ht) as [Hin%list_elem_of_In Hf].
    rewrite (H t Hin) in Hf. done. }
  destruct (List.find _ (mcpServers agent)) as [m|] eqn:Hm.
  { split; [done|]. intros (_ & H & _).
    destruct (List.find_some _ _ Hm) as [Hin%list_elem_of_In Hf].
    rewrite (H m Hin) in Hf. done. }
  pose proof (proj1 (find_None_iff _ _) Ht) as Ht'.
  pose proof (proj1 (find_None_iff _ _) Hm) as Hm'. clear Ht Hm. split.
  - intros Hv. split; [|split; [|done]].
    + intros t Hin. specialize (Ht' t Hin). by apply negb_false_iff in Ht'.
    + intros m Hin. specialize (Hm' m Hin). by apply negb_false_iff in Hm'.
  - by intros (_ & _ & Hv).
Qed.

Lemma first_error_None {A} (f : A → option string) (l : list A) :
  first_error f l = None ↔ ∀ x, x ∈ l → f x = None.
Proof.
  induction l as [|y l IH]; simpl.
  - split; [|done]. by intros _ x ?%elem_of_nil.
  - destruct (f y) eqn:Hy.
    + split; [done|]. intros H. specialize (H y). rewrite Hy in H. apply H. left.
    + rewrite IH. split.
      * intros H x [->|Hx]%elem_of_cons; [done|by apply H].
      * intros H x Hx. apply H. by right.
Qed.

(** X19. What [validate] accepts. [validate] returns normally exactly
    when, for every registered agent, each of its tools is a registered
    tool, each of its MCP servers is a registered MCP, and its
    [toolAllowlist] is absent, empty, or holds each of its tools; it
    throws otherwise, and in either case changes nothing. *)
Theorem validate_accepts_iff (c : Ctx) :
  let r := registry (world (services c)) in
  ((validate c).1 = inr tt ↔
   ∀ agent, agent ∈ Registry.listAgents r → well_formed r agent) ∧
  ((∃ err, (validate c).1 = inl err) ↔
   ¬ ∀ agent, agent ∈ Registry.listAgents r → well_formed r agent) ∧
  (validate c).2 = c.
Proof.
  intros r. unfold validate, bind, gets. cbn [fst snd]. fold r.
  assert (H : first_error (validate_agent r) (Registry.listAgents r) = None ↔
              ∀ agent, agent ∈ Registry.listAgents r → well_formed r agent).
  { rewrite first_error_None. split; intros H a Ha; by apply validate_agent_None, H. }
  destruct (first_error _ _) as [err|]; simpl.
  - split; [|split; [|done]].
    + split; [done|]. intros Hw. by apply H in Hw.
    + split; [|by eauto]. intros _ Hw. by apply H in Hw.
  - split; [|split; [|done]].
    + split; [|done]. intros _. by apply H.
    + split; [by intros [e ?]|]. intros Hn. exfalso. by apply Hn, H.
Qed.

(** X20. Validation and [executeTool] disagree on the empty allowlist.
    For an agent whose allowlist passed [validateToolAllowlist],
    [executeTool] runs each tool the runtime was given, unless the
    allowlist is the empty list: validation treats an empty allowlist as
    no restriction, while [executeTool] then refuses every tool. A tool
    the runtime was not given is refused as not found. *)
Theorem executeTool_after_validation (agent : AgentDefinition) (r : Registry.State)
    (toolName : string) :
  validateToolAllowlist agent = None →
  let rt_tools := AgentRuntime.resolve_tools agent r in
  (toolName ∈ rt_tools →
     (toolAllowlist (policy agent) ≠ Some [] →
        AgentRuntime.executeTool agent rt_tools toolName = inr tt) ∧
     (toolAllowlist (policy agent) = Some [] →
        AgentRuntime.executeTool agent rt_tools toolName
        = inl (AgentRuntime.tool_not_allowed (name agent) toolName))) ∧
  (toolName ∉ rt_tools →
     AgentRuntime.executeTool agent rt_tools toolName
     = inl (AgentRuntime.tool_not_found (name agent) toolName)).
Proof.
  intros Hv%validateToolAllowlist_None rt_tools. unfold AgentRuntime.executeTool.
  split.
  - intros Hin. rewrite (AgentRuntime.find_eqb_Some _ _ Hin).
    assert (Ht : toolName ∈ tools agent).
    { unfold rt_tools, AgentRuntime.resolve_tools in Hin.
      by apply list_elem_of_In, filter_In, proj1, list_elem_of_In in Hin. }
    destruct (toolAllowlist (policy agent)) as [[|a l]|]; split; try done.
    intros _. rewrite bool_decide_eq_true_2; [done|]. by apply Hv.
  - intros Hn. by rewrite (AgentRuntime.find_eqb_None _ _ Hn).
Qed.

Definition agent_empty_allowlist : AgentDefinition :=
  mkAgent "A" "p" ["search"%string] (mkPolicy None None None (Some []) None) [] false.

Lemma executeTool_after_validation_witness :
  AgentRuntime.executeTool agent_empty_allowlist
    (AgentRuntime.resolve_tools agent_empty_allowlist
       (Registry.mkState [] [("search"%string, tt)] []))
    "search"
  = inl (AgentRuntime.tool_not_allowed "A" "search").
Proof.
  apply (executeTool_after_validation agent_empty_allowlist
           (Registry.mkState [] [("search"%string, tt)] []) "search").
  - reflexivity.
  - vm_compute. left.
  - reflexivity.
Defined.


(** *** A run that fails validation *)

(** X21. Validation fails fast. When [validate] throws, for any outcome
    of the outside phases, [run] rejects with the validation error and
    status [failed] without having connected, materialized or enqueued
    anything: the scheduler, the message router, the registry and the
    claim graph are as before the run, and the only events emitted are
    [run:started] and [run:completed] with status failed. *)
Theorem invalid_run_starts_nothing
    (connect describe await : Services → (string + unit) * Services)
    (env : Env) (task : string) (c : Ctx) (err : string) :
  (validate c).1 = inl err →
  let r := run connect describe await env task c in
  r.1 = inl err ∧ status r.2 = failed ∧
  scheduler (world (services r.2)) = scheduler (world (services c)) ∧
  messageRouter (world (services r.2)) = messageRouter (world (services c)) ∧
  registry (world (services r.2)) = registry (world (services c)) ∧
  claimGraph (services r.2) = claimGraph (services c) ∧
  bus (world (services r.2))
  = bus (world (services c))
    ++ [run_started task (run_uuid env); run_completed "failed" (run_uuid env)].
Proof.
  unfold run, try_catch_finally, run_body, run_catch, finalize, executeAgents,
    materializeAgents, validate, cleanup, register_budgets, report_errors,
    lift, emit, log_call, set_status, set_correlationId, bind, gets, modify,
    throw, ret.
  simpl.
  destruct (first_error _ _) as [e|] eqn:Hv; simpl; [|done].
  intros [= ->]. by rewrite <- app_assoc.
Qed.

Lemma invalid_run_starts_nothing_witness :
  (run phase_ok phase_ok phase_ok env0 "t" ctx_unknown_tool).1
  = inl (unknown_tool "A" "missing").
Proof.
  apply (invalid_run_starts_nothing phase_ok phase_ok phase_ok env0 "t"
           ctx_unknown_tool (unknown_tool "A" "missing")).
  reflexivity.
Defined.

(** *** The jobs of a run *)

(** A body that only adds jobs to the scheduler's log. *)
Definition log_grows (f : Services → Services) : Prop :=
  ∀ sv, Scheduler.submissions (sv_scheduler sv)
          `prefix_of` Scheduler.submissions (sv_scheduler (f sv)).

Lemma agent_body_log_grows env corr a task :
  (∀ d t, log_grows (executor_prefix env d t)) →
  log_grows (agent_body env corr a task).
Proof.
  intros He sv. unfold agent_body.
  destruct (PolicyEnforcer.checkBudget _ _).1; [done|].
  destruct (executor a.1); [|done].
  apply (He a.1 task
           (sv_emit (agent_thinking (name a.1) corr)
              (sv_emit (agent_started (name a.1) corr) sv))).
Qed.

Lemma bodies_with_log_grows env corr task bodies ref a :
  (∀ d t, log_grows (executor_prefix env d t)) →
  (∀ r, log_grows (bodies r)) →
  ∀ r, log_grows (bodies_with env corr task bodies ref a r).
Proof.
  intros He Hb r. unfold bodies_with. destruct (Nat.eqb r ref); [|apply Hb].
  by apply agent_body_log_grows.
Qed.

Lemma submissions_length sch :
  length (Scheduler.submissions sch) = length (Scheduler.allJobs sch).
Proof. unfold Scheduler.submissions. apply length_fmap. Qed.

(** A body that adds no job to the scheduler's log. *)
Definition log_kept (f : Services → Services) : Prop :=
  ∀ sv, Scheduler.submissions (sv_scheduler (f sv))
        = Scheduler.submissions (sv_scheduler sv).

Lemma bodies_with_log_kept env corr task bodies ref a :
  (∀ d t, log_kept (executor_prefix env d t)) →
  (∀ r, log_kept (bodies r)) →
  ∀ r, log_kept (bodies_with env corr task bodies ref a r).
Proof.
  intros He Hb r. unfold bodies_with. destruct (Nat.eqb r ref); [|apply Hb].
  intros sv. unfold agent_body.
  destruct (PolicyEnforcer.checkBudget _ _).1; [done|].
  destruct (executor a.1); [|done].
  by rewrite (He a.1 task).
Qed.

Lemma enqueue_all_log_kept env task i agents corr bodies sv :
  (∀ d t, log_kept (executor_prefix env d t)) →
  (∀ r, log_kept (bodies r)) →
  Scheduler.submissions (sv_scheduler (enqueue_all env task i agents corr bodies sv).2)
  = Scheduler.submissions (sv_scheduler sv)
    ++ imap (fun k a => (job_uuid env (i + k), name a.1, task, now_iso env)) agents ∧
  (enqueue_all env task i agents corr bodies sv).1
  = imap (fun k a => (name a.1, length (Scheduler.submissions (sv_scheduler sv)) + k))
         agents.
Proof.
  intros He. revert i bodies sv. induction agents as [|a agents IH]; intros i bodies sv Hb.
  - simpl. by rewrite app_nil_r.
  - cbn [enqueue_all].
    set (bodies1 := bodies_with env corr task bodies
                      (length (Scheduler.allJobs (sv_scheduler sv))) a).
    assert (Hb1 : ∀ r, log_kept (bodies1 r)) by by apply bodies_with_log_kept.
    pose proof (Scheduler.enqueue_with_log_one sv_scheduler with_sv_scheduler bodies1
                  (fun s w => eq_refl) (drain_fuel env) (job_uuid env i) (name a.1)
                  task (now_iso env) (Some corr) sv (fun r w => Hb1 r w)) as Hs.
    assert (Href : (Scheduler.enqueue_with sv_scheduler with_sv_scheduler bodies1
                      (drain_fuel env) (job_uuid env i) (name a.1) task (now_iso env)
                      (Some corr) sv).1
                   = length (Scheduler.submissions (sv_scheduler sv))).
    { by rewrite submissions_length. }
    destruct (Scheduler.enqueue_with _ _ _ _ _ _ _ _ _ sv) as [ref sv1].
    cbn [fst snd] in *. subst ref.
    destruct (IH (S i) bodies1 sv1 Hb1) as [IH1 IH2].
    destruct (enqueue_all env task (S i) agents corr bodies1 sv1) as [hs sv2].
    cbn [fst snd] in *. split.
    + rewrite IH1, Hs, <- app_assoc. cbn [imap app]. f_equal. f_equal.
      * by rewrite Nat.add_0_r.
      * apply imap_ext. intros k x _. simpl.
        by replace (S (i + k)) with (i + S k) by lia.
    + rewrite IH2, Hs, length_app. cbn [imap length]. f_equal.
      * by rewrite Nat.add_0_r.
      * apply imap_ext. intros k x _. simpl. f_equal.
        rewrite <- Nat.add_assoc. f_equal.
Qed.

Lemma enqueue_all_handles env task i agents corr bodies sv :
  (∀ d t, log_grows (executor_prefix env d t)) →
  (∀ r, log_grows (bodies r)) →
  Scheduler.submissions (sv_scheduler sv)
    `prefix_of` Scheduler.submissions
                  (sv_scheduler (enqueue_all env task i agents corr bodies sv).2)
  ∧ (enqueue_all env task i agents corr bodies sv).1.*1
    = (fun a => name a.1) <$> agents
  ∧ ∀ k a, agents !! k = Some a →
      ∃ ref, (enqueue_all env task i agents corr bodies sv).1 !! k
               = Some (name a.1, ref) ∧
             length (Scheduler.submissions (sv_scheduler sv)) + k ≤ ref ∧
             Scheduler.submissions
               (sv_scheduler (enqueue_all env task i agents corr bodies sv).2)
               !! ref
             = Some (job_uuid env (i + k), name a.1, task, now_iso env).
Proof.
  intros He Hb.
  revert i bodies sv Hb. induction agents as [|a agents IH]; intros i bodies sv Hb.
  - simpl. split; [done|]. split; [done|]. intros k a Hk. done.
  - cbn [enqueue_all].
    set (bodies1 := bodies_with env corr task bodies
                      (length (Scheduler.allJobs (sv_scheduler sv))) a).
    assert (Hb1 : ∀ r, log_grows (bodies1 r)) by by apply bodies_with_log_grows.
    pose proof (Scheduler.enqueue_with_log sv_scheduler with_sv_scheduler bodies1
                  (fun s w => eq_refl) (drain_fuel env) (job_uuid env i) (name a.1)
                  task (now_iso env) (Some corr) sv Hb1) as Hlog.
    assert (Href : (Scheduler.enqueue_with sv_scheduler with_sv_scheduler bodies1
                      (drain_fuel env) (job_uuid env i) (name a.1) task (now_iso env)
                      (Some corr) sv).1
                   = length (Scheduler.submissions (sv_scheduler sv))).
    { by rewrite submissions_length. }
    destruct (Scheduler.enqueue_with _ _ _ _ _ _ _ _ _ sv) as [ref sv1].
    cbn [fst snd] in *. subst ref.
    destruct (IH (S i) bodies1 sv1 Hb1) as (IH1 & IH2 & IH3).
    destruct (enqueue_all env task (S i) agents corr bodies1 sv1) as [hs sv2].
    cbn [fst snd] in *.
    assert (Hlog2 : (Scheduler.submissions (sv_scheduler sv)
                     ++ [(job_uuid env i, name a.1, task, now_iso env)])
                      `prefix_of` Scheduler.submissions (sv_scheduler sv2))
      by (by etrans).
    assert (Hlen : S (length (Scheduler.submissions (sv_scheduler sv)))
                   ≤ length (Scheduler.submissions (sv_scheduler sv1))).
    { apply prefix_length in Hlog. rewrite length_app in Hlog. simpl in Hlog. lia. }
    split; [|split].
    + etrans; [|exact Hlog2]. by apply prefix_app_r.
    + csimpl. by rewrite IH2.
    + intros [|k] a' Hk.
      * simpl in Hk. injection Hk as <-.
        exists (length (Scheduler.submissions (sv_scheduler sv))).
        split; [done|]. split; [lia|]. rewrite Nat.add_0_r.
        destruct Hlog2 as [tl ->]. rewrite <- app_assoc.
        by apply list_lookup_middle.
      * simpl in Hk. destruct (IH3 k a' Hk) as (ref & Hr & Hle & Hl).
        exists ref. split; [done|]. split.
        { rewrite Nat.add_succ_r, <- Nat.add_succ_l.
          etrans; [|exact Hle]. by apply Nat.add_le_mono_r. }
        rewrite Hl. by replace (S i + k) with (i + S k) by lia.
Qed.


(** X22. [executeAgents] enqueues one job per agent. The handles kept by
    the [agents.map] of [executeAgents] carry the agents' names in agent
    order, and the handle of the [k]-th agent is the one of the job
    enqueued for that agent: under the handle's reference the scheduler's
    log holds a job with the agent's name and the task of the run, added
    after the jobs that were there and after the jobs of the agents
    before. The log is not always these jobs alone in agent order: a job
    started by [enqueue] runs up to its first [await] before the next
    agent is enqueued, and an executor that spawns a unit there puts a job
    between those of two agents. This holds for bodies that only add jobs
    to the log; with bodies that add none, as those of the stub executor,
    the log is the jobs that were there followed by the jobs of the
    agents, in agent order. *)
Theorem enqueue_all_one_job_per_agent (env : Env) (task : string) (i : nat)
    (agents : list (AgentDefinition * list string)) (corr : string)
    (bodies : nat → Services → Services) (sv : Services) :
  (∀ d t, log_grows (executor_prefix env d t)) →
  (∀ r, log_grows (bodies r)) →
  let r := enqueue_all env task i agents corr bodies sv in
  let old := Scheduler.submission <$> Scheduler.getAllJobs (sv_scheduler sv) in
  let log := Scheduler.submission <$> Scheduler.getAllJobs (sv_scheduler r.2) in
  old `prefix_of` log ∧
  r.1.*1 = (fun a => name a.1) <$> agents ∧
  (∀ k a, agents !! k = Some a →
     ∃ ref, r.1 !! k = Some (name a.1, ref) ∧
            length old + k ≤ ref ∧
            log !! ref = Some (job_uuid env (i + k), name a.1, task, now_iso env)) ∧
  ((∀ d t, log_kept (executor_prefix env d t)) → (∀ r, log_kept (bodies r)) →
   log = old ++ imap (fun k a => (job_uuid env (i + k), name a.1, task, now_iso env))
                     agents ∧
   r.1 = imap (fun k a => (name a.1, length old + k)) agents).
Proof.
  intros He Hb. cbv zeta.
  destruct (enqueue_all_handles env task i agents corr bodies sv He Hb)
    as (H1 & H2 & H3).
  split; [exact H1|]. split; [exact H2|]. split; [exact H3|].
  intros He' Hb'.
  destruct (enqueue_all_log_kept env task i agents corr bodies sv He' Hb')
    as [H4 H5].
  split; [exact H4|exact H5].
Qed.

Definition two_agents : list (AgentDefinition * list string) :=
  [(mkAgent "A" "p" [] no_policy [] true, []);
   (mkAgent "B" "p" [] no_policy [] false, [])].

Definition services0 : Services :=
  mkServices (mkWorld Registry.init PolicyEnforcer.init MessageRouter.init
                      (Scheduler.init 5) [])
             ClaimGraph.init [].

(** The executor of [A] enqueues a job for a unit [C] before its first
    [await], as an executor that calls [runtime.spawnAgent] does. *)
Definition env_spawning : Env :=
  mkEnv "run" (fun i => match i with 0 => "a" | _ => "b" end%string) "d"
        (fun _ _ sv =>
           with_sv_scheduler
             (Scheduler.enqueue "c" "C" "sub" "d" (Some "run"%string) (sv_scheduler sv)).2
             sv)
        (fun _ sv => sv) 8.

Lemma enqueue_all_one_job_per_agent_witness :
  ((enqueue_all env_spawning "t" 0 two_agents "run" (other_bodies env_spawning)
      services0).1).*1
  = ["A"; "B"]%string.
Proof.
  apply (enqueue_all_one_job_per_agent env_spawning "t" 0 two_agents "run"
           (other_bodies env_spawning) services0).
  - intros d t sv. unfold env_spawning, executor_prefix, sv_scheduler. simpl.
    pose proof (Scheduler.submissions_exec (scheduler (world sv))
                  (Scheduler.OpEnqueue "c" "C" "sub" "d" (Some "run"%string))) as H.
    simpl in H. rewrite H. by apply prefix_app_r.
  - by intros r sv.
Defined.

(** With that executor the log is [A; C; B]: the job spawned by [A] comes
    before the job of [B], and the handles are those of the first and the
    third job. *)
Example spawned_job_between_agents :
  let r := enqueue_all env_spawning "t" 0 two_agents "run"
                       (other_bodies env_spawning) services0 in
  Scheduler.job_agentName <$> Scheduler.getAllJobs (sv_scheduler r.2)
    = ["A"; "C"; "B"]%string ∧
  r.1 = [("A"%string, 0); ("B"%string, 2)].
Proof. vm_compute. done. Qed.


End ExecutionContext.

(** ** Working memory (agent-memory.ts, shared-memory.ts)

    [AgentMemory] and [SharedMemory] hold the same store; they differ in
    where the author of an entry comes from (the owner of the memory, or
    an argument of [set]) and in the name of the event. Times are integer
    milliseconds; the ISO date of [expiresAt] is the time it denotes. *)

Module Memory.

Record MemoryEntry := mkEntry {
  key : string;
  value : string;
  createdAt : string;
  updatedAt : string;
  author : string;
  namespace : option string;
  ttl : option Z;
  expiresAt : option Z
}.

Inductive Event :=
  | memory_set (agentName key : string) (namespace : option string)
  | memory_delete (agentName key : string).

Record State := mkState {
  store : JsMap.t MemoryEntry;
  emitted : list Event
}.

Definition init : State := mkState JsMap.empty [].

Record MemoryQueryOptions := mkQuery {
  q_namespace : option string;
  q_prefix : option string;
  q_limit : option Z
}.

Definition no_options : MemoryQueryOptions := mkQuery None None None.

(** [entry.metadata.expiresAt && new Date(expiresAt).getTime() <= now] *)
Definition expired (now : Z) (e : MemoryEntry) : bool :=
  match expiresAt e with
  | Some t => (t <=? now)%Z
  | None => false
  end.

(** [get]: [now] is [Date.now()]. An expired entry is deleted. *)
Definition get (k : string) (now : Z) (s : State) : option string * State :=
  match JsMap.get k (store s) with
  | None => (None, s)
  | Some e =>
      if expired now e then (None, mkState (JsMap.delete k (store s)) (emitted s))
      else (Some (value e), s)
  end.

(** [if (opts?.ttl) expiresAt = Date.now() + opts.ttl] *)
Definition expiry (ttl : option Z) (now : Z) : option Z :=
  match ttl with
  | Some d => if (d =? 0)%Z then None else Some (now + d)%Z
  | None => None
  end.

(** [set]: [iso] is [new Date().toISOString()], [now] is [Date.now()]. *)
Definition set (agentName k v : string) (ns : option string) (ttl : option Z)
    (iso : string) (now : Z) (s : State) : State :=
  let existing := JsMap.get k (store s) in
  let entry := mkEntry k v (default iso (createdAt <$> existing)) iso agentName
                       ns ttl (expiry ttl now) in
  mkState (JsMap.set k entry (store s)) (emitted s ++ [memory_set agentName k ns]).

(** [delete] of [AgentMemory]. *)
Definition delete (agentName k : string) (s : State) : bool * State :=
  if JsMap.has k (store s)
  then (true, mkState (JsMap.delete k (store s)) (emitted s ++ [memory_delete agentName k]))
  else (false, s).

Definition truthy (x : option string) : option string :=
  match x with
  | Some "" => None
  | _ => x
  end%string.

(** The two filters of [list] on an entry that has not expired. *)
Definition selected (opts : MemoryQueryOptions) (e : MemoryEntry) : bool :=
  match truthy (q_namespace opts) with
  | Some ns => bool_decide (namespace e = Some ns)
  | None => true
  end
  && match truthy (q_prefix opts) with
     | Some p => String.prefix p (key e)
     | None => true
     end.

(** One turn of the [for] loop of [list]. *)
Definition list_step (opts : MemoryQueryOptions) (now : Z)
    (acc : list MemoryEntry * JsMap.t MemoryEntry) (e : MemoryEntry)
    : list MemoryEntry * JsMap.t MemoryEntry :=
  if expired now e then (acc.1, JsMap.delete (key e) acc.2)
  else if selected opts e then (acc.1 ++ [e], acc.2)
  else acc.

(** [entries.slice(0, limit)]; a negative end counts from the end. *)
Definition slice_to (limit : Z) (entries : list MemoryEntry) : list MemoryEntry :=
  if (limit <? 0)%Z then take (Z.to_nat (Z.of_nat (length entries) + limit)) entries
  else take (Z.to_nat limit) entries.

Definition apply_limit (limit : option Z) (entries : list MemoryEntry)
    : list MemoryEntry :=
  match limit with
  | Some l =>
      if negb (l =? 0)%Z && (l <? Z.of_nat (length entries))%Z
      then slice_to l entries else entries
  | None => entries
  end.

(** [list] *)
Definition list_entries (opts : MemoryQueryOptions) (now : Z) (s : State)
    : list MemoryEntry * State :=
  let r := foldl (list_step opts now) ([], store s) (JsMap.values (store s)) in
  (apply_limit (q_limit opts) r.1, mkState r.2 (emitted s)).

Definition size (now : Z) (s : State) : nat * State :=
  let r := list_entries no_options now s in (length r.1, r.2).

Definition clear (s : State) : State := mkState JsMap.empty (emitted s).

(** Every entry is stored under its own key, once: what [set] builds. *)
Definition well_keyed (m : JsMap.t MemoryEntry) : Prop :=
  NoDup (JsMap.keys m) ∧ ∀ k e, (k, e) ∈ m → key e = k.

Lemma well_keyed_set k e m : key e = k → well_keyed m → well_keyed (JsMap.set k e m).
Proof.
  intros Hk [Hnd Hkey]. split; [by apply JsMap.NoDup_keys_set|].
  intros k' e' [[= -> ->]|Hin]%JsMap.elem_of_set; [done|by apply Hkey].
Qed.

Lemma well_keyed_delete k m : well_keyed m → well_keyed (JsMap.delete k m).
Proof.
  intros [Hnd Hkey]. split; [by apply JsMap.NoDup_keys_delete|].
  intros k' e' [Hin _]%JsMap.elem_of_delete. by apply Hkey.
Qed.

Lemma delete_filter (k : string) (m : JsMap.t MemoryEntry) :
  JsMap.delete k m = List.filter (fun p => negb (String.eqb p.1 k)) m.
Proof.
  induction m as [|[k0 e0] m IH]; simpl; [done|].
  destruct (String.eqb k0 k); simpl; by rewrite IH.
Qed.

Definition live (now : Z) (p : string * MemoryEntry) : bool := negb (expired now p.2).

(** The entries the loop of [list] collects. *)
Lemma list_loop_entries opts now (es : list MemoryEntry) acc :
  (foldl (list_step opts now) acc es).1
  = acc.1 ++ List.filter (fun e => negb (expired now e) && selected opts e) es.
Proof.
  revert acc. induction es as [|e es IH]; intros acc; simpl.
  - by rewrite app_nil_r.
  - rewrite IH. unfold list_step.
    destruct (expired now e); simpl; [done|].
    destruct (selected opts e); simpl; [|done]. by rewrite <- app_assoc.
Qed.

(** The keys the loop of [list] deletes. *)
Definition purged (now : Z) (es : list MemoryEntry) : list string :=
  key <$> List.filter (expired now) es.

Lemma filter_all_true {A} (f : A → bool) (l : list A) :
  (∀ x, f x = true) → List.filter f l = l.
Proof.
  intros H. induction l as [|x l IH]; simpl; [done|]. by rewrite H, IH.
Qed.

Lemma filter_filter_and {A} (f g : A → bool) (l : list A) :
  List.filter f (List.filter g l) = List.filter (fun x => g x && f x) l.
Proof.
  induction l as [|x l IH]; simpl; [done|].
  destruct (g x); simpl; [|done]. destruct (f x); by rewrite IH.
Qed.

Lemma list_loop_store opts now (es : list MemoryEntry) acc :
  (foldl (list_step opts now) acc es).2
  = List.filter (fun p => negb (bool_decide (p.1 ∈ purged now es))) acc.2.
Proof.
  revert acc. induction es as [|e es IH]; intros acc.
  - cbn [foldl]. rewrite filter_all_true; [done|]. intros p.
    apply negb_true_iff, bool_decide_eq_false_2. by intros ?%elem_of_nil.
  - cbn [foldl]. rewrite IH. unfold list_step, purged. cbn [List.filter].
    destruct (expired now e) eqn:Hex; cbn [fst snd].
    + rewrite delete_filter, filter_filter_and.
      apply List.filter_ext. intros p. rewrite fmap_cons.
      destruct (String.eqb_spec p.1 (key e)) as [Heq|Hne]; simpl.
      * symmetry. apply negb_false_iff, bool_decide_eq_true_2. rewrite Heq. left.
      * f_equal. apply bool_decide_ext. split; [by right|].
        intros [?|?]%elem_of_cons; done.
    + by destruct (selected opts e).
Qed.

Lemma well_keyed_unique k e1 e2 (m : JsMap.t MemoryEntry) :
  NoDup (JsMap.keys m) → (k, e1) ∈ m → (k, e2) ∈ m → e1 = e2.
Proof.
  intros Hnd H1%(JsMap.elem_of_get _ _ _ Hnd) H2%(JsMap.elem_of_get _ _ _ Hnd).
  congruence.
Qed.

Lemma values_filter_live opts now (m : JsMap.t MemoryEntry) :
  List.filter (fun e => negb (expired now e) && selected opts e) (JsMap.values m)
  = List.filter (selected opts) (JsMap.values (List.filter (live now) m)).
Proof.
  unfold JsMap.values. induction m as [|[k e] m IH]; csimpl; [done|].
  unfold live at 1. cbn [snd]. destruct (expired now e); simpl; [done|].
  csimpl. rewrite IH. done.
Qed.

Lemma list_spec (opts : MemoryQueryOptions) (now : Z) (s : State) :
  well_keyed (store s) →
  list_entries opts now s
  = (apply_limit (q_limit opts)
       (List.filter (selected opts) (JsMap.values (List.filter (live now) (store s)))),
     mkState (List.filter (live now) (store s)) (emitted s)).
Proof.
  intros [Hnd Hkey]. unfold list_entries.
  rewrite list_loop_entries, list_loop_store. cbn [fst snd app].
  rewrite values_filter_live. f_equal. f_equal.
  apply List.filter_ext_in. intros [k e] Hin%list_elem_of_In. unfold live. cbn [fst snd].
  f_equal. destruct (expired now e) eqn:Hex.
  - apply bool_decide_eq_true_2. unfold purged. apply list_elem_of_fmap.
    exists e. split; [symmetry; by apply Hkey|].
    apply list_elem_of_In, filter_In. split; [|done].
    apply list_elem_of_In. unfold JsMap.values. apply list_elem_of_fmap. by exists (k, e).
  - apply bool_decide_eq_false_2. unfold purged.
    intros (e' & Hk & [Hin' Hex']%list_elem_of_In%filter_In)%list_elem_of_fmap.
    apply list_elem_of_In in Hin'. unfold JsMap.values in Hin'.
    apply list_elem_of_fmap in Hin' as ([k' e''] & -> & Hin'). cbn [snd] in *.
    rewrite (Hkey _ _ Hin') in Hk. subst k'.
    rewrite (well_keyed_unique k e e'' (store s) Hnd Hin Hin') in Hex. congruence.
Qed.

(** *** Traces of memory calls *)

Inductive Op :=
  | OpGet (k : string) (now : Z)
  | OpSet (agentName k v : string) (ns : option string) (ttl : option Z)
          (iso : string) (now : Z)
  | OpDelete (agentName k : string)
  | OpList (opts : MemoryQueryOptions) (now : Z)
  | OpClear.

Definition exec (s : State) (op : Op) : State :=
  match op with
  | OpGet k now => (get k now s).2
  | OpSet a k v ns ttl iso now => set a k v ns ttl iso now s
  | OpDelete a k => (delete a k s).2
  | OpList opts now => (list_entries opts now s).2
  | OpClear => clear s
  end.

Definition run (ops : list Op) (s : State) : State := foldl exec s ops.

Lemma well_keyed_filter (f : string * MemoryEntry → bool) (m : JsMap.t MemoryEntry) :
  well_keyed m → well_keyed (List.filter f m).
Proof.
  intros [Hnd Hkey]. split.
  - unfold JsMap.keys in *. induction m as [|p m IH]; simpl; [constructor|].
    csimpl in Hnd. apply NoDup_cons in Hnd as [Hp Hnd].
    assert (Hsub : ∀ k, k ∈ (List.filter f m).*1 → k ∈ m.*1).
    { intros k (q & -> & [Hq _]%list_elem_of_In%filter_In)%list_elem_of_fmap.
      apply list_elem_of_fmap. exists q. by rewrite list_elem_of_In. }
    assert (IH' : NoDup (List.filter f m).*1).
    { apply IH; [done|]. intros k e Hin. apply Hkey. by right. }
    destruct (f p); [|done]. csimpl. apply NoDup_cons. split; [|done].
    intros Hin. by apply Hp, Hsub.
  - intros k e [Hin _]%list_elem_of_In%filter_In. by apply Hkey, list_elem_of_In.
Qed.

Lemma exec_well_keyed s op : well_keyed (store s) → well_keyed (store (exec s op)).
Proof.
  intros Hwk. destruct op as [k now|a k v ns ttl iso now|a k|opts now|]; cbn [exec].
  - unfold get. destruct (JsMap.get k (store s)) as [e|]; [|done].
    destruct (expired now e); [|done]. by apply well_keyed_delete.
  - by apply well_keyed_set.
  - unfold delete. destruct (JsMap.has k (store s)); [|done]. by apply well_keyed_delete.
  - rewrite list_spec by done. by apply well_keyed_filter.
  - split; [constructor|]. by intros k e ?%elem_of_nil.
Qed.

Lemma run_well_keyed ops s : well_keyed (store s) → well_keyed (store (run ops s)).
Proof.
  revert s. induction ops as [|op ops IH]; intros s Hwk; simpl; [done|].
  by apply IH, exec_well_keyed.
Qed.

Lemma init_well_keyed : well_keyed (store init).
Proof. split; [constructor|]. by intros k e ?%elem_of_nil. Qed.

Lemma get_delete_eq (k : string) (m : JsMap.t MemoryEntry) :
  JsMap.get k (JsMap.delete k m) = None.
Proof.
  induction m as [|[k0 e0] m IH]; simpl; [done|].
  destruct (String.eqb_spec k0 k) as [->|Hne]; [done|]. simpl.
  by destruct (String.eqb_spec k0 k).
Qed.

Lemma get_delete_ne (k k' : string) (m : JsMap.t MemoryEntry) :
  k ≠ k' → JsMap.get k' (JsMap.delete k m) = JsMap.get k' m.
Proof.
  intros Hne. induction m as [|[k0 e0] m IH]; simpl; [done|].
  destruct (String.eqb_spec k0 k) as [->|Hk].
  - rewrite IH. by destruct (String.eqb_spec k k').
  - simpl. by destruct (String.eqb k0 k').
Qed.

(** X23. A value can be read back until its time to live has passed.
    After [set] of key [k] to [v] at time [t0]: with no [ttl], or a [ttl]
    of 0, [get k] returns [v] at every time; with a [ttl] of [d] other
    than 0 it returns [v] exactly at the times before [t0 + d], and from
    [t0 + d] on it returns nothing and removes the entry. Reading another
    key gives what it gave before the [set]. *)
Theorem get_after_set (a k v : string) (ns : option string) (ttl : option Z)
    (iso : string) (t0 t : Z) (s : State) :
  let s' := set a k v ns ttl iso t0 s in
  (ttl = None ∨ ttl = Some 0%Z → get k t s' = (Some v, s')) ∧
  (∀ d, ttl = Some d → d ≠ 0%Z →
     ((t < t0 + d)%Z → get k t s' = (Some v, s')) ∧
     ((t0 + d ≤ t)%Z →
        (get k t s').1 = None ∧ JsMap.get k (store (get k t s').2) = None)) ∧
  (∀ k', k' ≠ k → (get k' t s').1 = (get k' t s).1).
Proof.
  intros s'. split; [|split].
  - intros Httl. unfold get, s', set. cbn [store].
    rewrite JsMap.get_set_eq. unfold expired. cbn [expiresAt value].
    by destruct Httl as [-> | ->].
  - intros d -> Hd. unfold get, s', set. cbn [store].
    rewrite JsMap.get_set_eq. unfold expired, expiry. cbn [expiresAt value].
    destruct (Z.eqb_spec d 0) as [?|_]; [done|]. split; intros Ht.
    + by destruct (Z.leb_spec (t0 + d) t); [lia|].
    + destruct (Z.leb_spec (t0 + d) t); [|lia]. cbn [fst snd store].
      split; [done|]. apply get_delete_eq.
  - intros k' Hne. unfold get, s', set. cbn [store].
    rewrite JsMap.get_set_ne by done.
    destruct (JsMap.get k' (store s)) as [e|]; [|done]. by destruct (expired t e).
Qed.

(** *** Listing *)

Lemma get_filter_notin (f : string * MemoryEntry → bool) k (m : JsMap.t MemoryEntry) :
  k ∉ JsMap.keys m → JsMap.get k (List.filter f m) = None.
Proof.
  unfold JsMap.keys. induction m as [|[k0 e0] m IH]; csimpl; [done|].
  intros [Hne Hn]%not_elem_of_cons. destruct (f (k0, e0)); simpl.
  - destruct (String.eqb_spec k0 k); [congruence|by apply IH].
  - by apply IH.
Qed.

Lemma get_filter_live now k (m : JsMap.t MemoryEntry) :
  NoDup (JsMap.keys m) →
  JsMap.get k (List.filter (live now) m)
  = match JsMap.get k m with
    | Some e => if expired now e then None else Some e
    | None => None
    end.
Proof.
  unfold JsMap.keys. induction m as [|[k0 e0] m IH]; csimpl; [done|].
  intros [Hk Hnd]%NoDup_cons. unfold live at 1. cbn [snd].
  destruct (String.eqb_spec k0 k) as [->|Hne].
  - destruct (expired now e0); simpl.
    + by apply get_filter_notin.
    + by rewrite String.eqb_refl.
  - destruct (expired now e0); simpl.
    + by apply IH.
    + destruct (String.eqb_spec k0 k); [done|]. by apply IH.
Qed.

Lemma elem_of_apply_limit limit (l : list MemoryEntry) e :
  e ∈ apply_limit limit l → e ∈ l.
Proof.
  unfold apply_limit, slice_to. destruct limit as [n|]; [|done].
  destruct (negb _ && _); [|done].
  destruct (n <? 0)%Z; intros H; by apply (subseteq_take _ _ _ H).
Qed.

Lemma length_apply_limit (n : Z) (l : list MemoryEntry) :
  (0 < n)%Z → (Z.of_nat (length (apply_limit (Some n) l)) ≤ n)%Z.
Proof.
  intros Hn. unfold apply_limit, slice_to.
  destruct (Z.eqb_spec n 0) as [?|_]; [lia|]. cbn [negb andb].
  destruct (Z.ltb_spec n (Z.of_nat (length l))); [|lia].
  destruct (Z.ltb_spec n 0); [lia|]. rewrite length_take. lia.
Qed.

(** X24. [list] returns the entries that can still be read. In a state
    reached from the empty memory, at time [now]: every entry returned
    passes the namespace and prefix filters and [get] on its key returns
    its value; without a limit, every stored entry that has not expired
    and passes the filters is returned; a limit above 0 bounds the number
    of entries returned; and afterwards the store holds exactly the
    entries that had not expired. *)
Theorem list_returns_live_entries (ops : list Op) (opts : MemoryQueryOptions) (now : Z) :
  let s := run ops init in
  let r := list_entries opts now s in
  (∀ e, e ∈ r.1 →
        selected opts e = true ∧ (get (key e) now s).1 = Some (value e)) ∧
  (q_limit opts = None → ∀ k e,
        JsMap.get k (store s) = Some e → expired now e = false →
        selected opts e = true → e ∈ r.1) ∧
  (∀ n, q_limit opts = Some n → (0 < n)%Z → (Z.of_nat (length r.1) ≤ n)%Z) ∧
  (∀ k, JsMap.get k (store r.2)
        = match JsMap.get k (store s) with
          | Some e => if expired now e then None else Some e
          | None => None
          end).
Proof.
  intros s r.
  assert (Hwk : well_keyed (store s)) by apply run_well_keyed, init_well_keyed.
  unfold r. rewrite (list_spec opts now s Hwk). cbn [fst snd store].
  destruct Hwk as [Hnd Hkey].
  assert (Hin : ∀ e, e ∈ List.filter (selected opts)
                           (JsMap.values (List.filter (live now) (store s))) ↔
                     selected opts e = true ∧ expired now e = false ∧
                     (key e, e) ∈ store s).
  { intros e. rewrite list_elem_of_In, filter_In, <- list_elem_of_In.
    unfold JsMap.values. rewrite list_elem_of_fmap. split.
    - intros [([k e'] & -> & [Hin Hl]%list_elem_of_In%filter_In) Hsel].
      apply list_elem_of_In in Hin. cbn [snd]. split; [done|].
      unfold live in Hl. cbn [snd] in Hl. apply negb_true_iff in Hl.
      split; [done|]. by rewrite (Hkey _ _ Hin).
    - intros (Hsel & Hex & Hin). split; [|done]. exists (key e, e).
      split; [done|]. apply list_elem_of_In, filter_In.
      split; [by apply list_elem_of_In|]. unfold live. cbn [snd]. by rewrite Hex. }
  split; [|split; [|split]].
  - intros e (Hsel & Hex & He)%elem_of_apply_limit%Hin. split; [done|].
    unfold get. rewrite (JsMap.elem_of_get _ _ _ Hnd He). by rewrite Hex.
  - intros -> k e Hget Hex Hsel. cbn [apply_limit]. apply Hin.
    split; [done|]. split; [done|].
    apply JsMap.get_elem_of in Hget. by rewrite (Hkey _ _ Hget).
  - intros n -> Hn. by apply length_apply_limit.
  - intros k. by apply get_filter_live.
Qed.

(** *** Expired entries *)

(** X25. Expiry is lazy. In a state reached from the empty memory, an
    entry whose time to live has passed cannot be read, but it stays in
    the store until a [get] of its key or a [list] removes it: until then
    [delete] on its key returns [true], afterwards it returns [false]. *)
Theorem expiry_is_lazy (ops : list Op) (a k : string) (e : MemoryEntry)
    (opts : MemoryQueryOptions) (now : Z) :
  let s := run ops init in
  JsMap.get k (store s) = Some e → expired now e = true →
  (get k now s).1 = None ∧
  (delete a k s).1 = true ∧
  (delete a k (get k now s).2).1 = false ∧
  (delete a k (list_entries opts now s).2).1 = false.
Proof.
  intros s Hget Hex.
  assert (Hwk : well_keyed (store s)) by apply run_well_keyed, init_well_keyed.
  split; [|split; [|split]].
  - unfold get. by rewrite Hget, Hex.
  - unfold delete, JsMap.has. by rewrite Hget.
  - unfold get. rewrite Hget, Hex. unfold delete, JsMap.has. cbn [snd store].
    by rewrite get_delete_eq.
  - rewrite (list_spec opts now s Hwk). unfold delete, JsMap.has. cbn [snd store].
    rewrite get_filter_live by apply Hwk. by rewrite Hget, Hex.
Qed.

Definition short_lived : list Op :=
  [OpSet "A" "k" "v" None (Some 10%Z) "d0" 100; OpSet "A" "j" "w" None None "d1" 105].

Lemma expiry_is_lazy_witness :
  (get "k" 110 (run short_lived init)).1 = None ∧
  (delete "A" "k" (run short_lived init)).1 = true ∧
  (delete "A" "k" (get "k" 110 (run short_lived init)).2).1 = false ∧
  (delete "A" "k" (list_entries no_options 110 (run short_lived init)).2).1 = false.
Proof.
  apply (expiry_is_lazy short_lived "A" "k"
           (mkEntry "k" "v" "d0" "d0" "A" None (Some 10%Z) (Some 110%Z))).
  - reflexivity.
  - reflexivity.
Defined.


End Memory.

(** ** Conversation history (conversation-history.ts)

    The length of a string is its number of characters; token budgets are
    integers. *)

Module ConversationHistory.

Inductive ChatRole := system | user | assistant.

Record ChatMessage := mkMessage {
  role : ChatRole;
  content : string
}.

Record ConversationSummary := mkSummary {
  summary : string;
  messageCount : nat;
  tokenEstimate : nat;
  createdAt : string
}.

Inductive Event := memory_summarized (agentName : string) (messageCount : nat).

Record State := mkState {
  messages : list ChatMessage;
  summaries : list ConversationSummary;
  emitted : list Event
}.

Definition init : State := mkState [] [] [].

Definition append (m : ChatMessage) (s : State) : State :=
  mkState (messages s ++ [m]) (summaries s) (emitted s).

Definition getMessages (s : State) : list ChatMessage := messages s.

Definition getLatestSummary (s : State) : option ConversationSummary :=
  last (summaries s).

(** [Math.ceil(text.length / 4)] *)
Definition estimateTokens (text : string) : nat := (String.length text + 3) / 4.

Definition estimateTotalTokens (s : State) : nat :=
  foldl (fun sum msg => sum + estimateTokens (content msg)) 0 (messages s).

Definition newline : string := String (Ascii.ascii_of_nat 10) EmptyString.

Definition summary_message (sm : ConversationSummary) : ChatMessage :=
  mkMessage system ("[Conversation Summary]" ++ newline ++ summary sm)%string.

(** The [for] loop of [getContextWindow], from the newest message down:
    [newest_first] are the messages not yet visited. *)
Fixpoint recent_loop (newest_first : list ChatMessage) (remainingTokens : Z)
    (recentMessages : list ChatMessage) : list ChatMessage :=
  match newest_first with
  | [] => recentMessages
  | msg :: older =>
      let tokens := Z.of_nat (estimateTokens (content msg)) in
      if (remainingTokens <? tokens)%Z then recentMessages
      else recent_loop older (remainingTokens - tokens)%Z (msg :: recentMessages)
  end.

Definition getContextWindow (maxTokens : Z) (s : State) : list ChatMessage :=
  let (result, remainingTokens) :=
    match getLatestSummary s with
    | Some sm =>
        let summaryTokens := Z.of_nat (estimateTokens (summary sm)) in
        if (summaryTokens <=? maxTokens)%Z
        then ([summary_message sm], (maxTokens - summaryTokens)%Z)
        else ([], maxTokens)
    | None => ([], maxTokens)
    end in
  result ++ recent_loop (rev (messages s)) remainingTokens [].

(** [summarize]: [text] is the summary text of a history that is not
    empty, as the LLM or the fallback gives it; [iso] is the date. *)
Definition summarize (agentName text iso : string) (s : State)
    : ConversationSummary * State :=
  match messages s with
  | [] =>
      let empty := mkSummary "No messages to summarize." 0 0 iso in
      (empty, mkState (messages s) (summaries s ++ [empty]) (emitted s))
  | _ =>
      let sm := mkSummary text (length (messages s)) (estimateTotalTokens s) iso in
      (sm, mkState (messages s) (summaries s ++ [sm])
                   (emitted s ++ [memory_summarized agentName (length (messages s))]))
  end.

Definition clear (s : State) : State := mkState [] [] (emitted s).

(** The estimate of a list of messages, on their contents. *)
Definition window_tokens (w : list ChatMessage) : nat :=
  sum_list_with (fun m => estimateTokens (content m)) w.

Lemma length_append (s1 s2 : string) :
  String.length (s1 ++ s2) = String.length s1 + String.length s2.
Proof. induction s1 as [|c s1 IH]; simpl; [done|]. by rewrite IH. Qed.

Lemma summary_message_tokens sm :
  estimateTokens (content (summary_message sm)) ≤ estimateTokens (summary sm) + 6.
Proof.
  unfold summary_message, estimateTokens. cbn [content].
  rewrite !length_append. cbn [String.length newline].
  set (n := String.length (summary sm)).
  replace (22 + (1 + n) + 3) with (n + 2 + 6 * 4) by lia.
  rewrite Nat.div_add by lia.
  assert ((n + 2) / 4 ≤ (n + 3) / 4) by (apply Nat.Div0.div_le_mono; lia). lia.
Qed.

(** What the loop takes: the longest run of newest messages that fits. *)
Lemma recent_loop_spec (newest_first : list ChatMessage) :
  ∀ (remaining : Z) (acc : list ChatMessage),
  ∃ taken rest,
    newest_first = taken ++ rest ∧
    recent_loop newest_first remaining acc = rev taken ++ acc ∧
    (taken ≠ [] → (Z.of_nat (window_tokens taken) ≤ remaining)%Z) ∧
    match rest with
    | [] => True
    | m :: _ => (remaining - Z.of_nat (window_tokens taken)
                 < Z.of_nat (estimateTokens (content m)))%Z
    end.
Proof.
  induction newest_first as [|msg older IH]; intros remaining acc.
  - exists [], []. by repeat split.
  - cbn [recent_loop].
    destruct (Z.ltb_spec remaining (Z.of_nat (estimateTokens (content msg)))) as [Hlt|Hge].
    + exists [], (msg :: older). split; [done|]. split; [done|]. split; [done|].
      unfold window_tokens. simpl. lia.
    + destruct (IH (remaining - Z.of_nat (estimateTokens (content msg)))%Z (msg :: acc))
        as (taken & rest & -> & Hres & Hfit & Hmax).
      exists (msg :: taken), rest. split; [done|]. split.
      { rewrite Hres. cbn [rev]. by rewrite <- app_assoc. }
      split.
      { intros _. unfold window_tokens in *. cbn [sum_list_with].
        destruct taken as [|m0 taken0]; [simpl; lia|].
        specialize (Hfit ltac:(done)). lia. }
      destruct rest as [|m rest]; [done|].
      unfold window_tokens in *. cbn [sum_list_with]. lia.
Qed.

Lemma window_tokens_app w1 w2 :
  window_tokens (w1 ++ w2) = window_tokens w1 + window_tokens w2.
Proof. unfold window_tokens. induction w1; simpl; lia. Qed.

Lemma window_tokens_rev w : window_tokens (rev w) = window_tokens w.
Proof.
  induction w as [|m w IH]; [done|]. cbn [rev].
  rewrite window_tokens_app, IH. unfold window_tokens. simpl. lia.
Qed.

(** X26. The context window is the newest messages that fit. The window
    is the latest summary, when there is one and it fits, followed by a
    run of the most recent messages in their order; the loop stops at the
    first message, from the newest, that does not fit in what is left,
    also when an older, shorter one would fit. The tokens counted, for
    the summary text and the messages taken, do not exceed a budget that
    is not negative. *)
Theorem context_window_shape (maxTokens : Z) (s : State) :
  ∃ head recent older used,
    getContextWindow maxTokens s = head ++ recent ∧
    messages s = older ++ recent ∧
    match getLatestSummary s with
    | Some sm =>
        if (Z.of_nat (estimateTokens (summary sm)) <=? maxTokens)%Z
        then head = [summary_message sm] ∧ used = estimateTokens (summary sm)
        else head = [] ∧ used = 0
    | None => head = [] ∧ used = 0
    end ∧
    ((0 ≤ maxTokens)%Z → (Z.of_nat (used + window_tokens recent) ≤ maxTokens)%Z) ∧
    match last older with
    | Some m => (maxTokens - Z.of_nat (used + window_tokens recent)
                 < Z.of_nat (estimateTokens (content m)))%Z
    | None => True
    end.
Proof.
  unfold getContextWindow.
  set (p := match getLatestSummary s with
            | Some sm =>
                if (Z.of_nat (estimateTokens (summary sm)) <=? maxTokens)%Z
                then ([summary_message sm],
                      (maxTokens - Z.of_nat (estimateTokens (summary sm)))%Z)
                else ([], maxTokens)
            | None => ([], maxTokens)
            end).
  assert (Hp : ∃ used, (p.2 = maxTokens - Z.of_nat used)%Z ∧
             ((0 ≤ maxTokens)%Z → (0 ≤ p.2)%Z) ∧
             match getLatestSummary s with
             | Some sm =>
                 if (Z.of_nat (estimateTokens (summary sm)) <=? maxTokens)%Z
                 then p.1 = [summary_message sm] ∧ used = estimateTokens (summary sm)
                 else p.1 = [] ∧ used = 0
             | None => p.1 = [] ∧ used = 0
             end).
  { unfold p. destruct (getLatestSummary s) as [sm|].
    - destruct (Z.leb_spec (Z.of_nat (estimateTokens (summary sm))) maxTokens).
      + exists (estimateTokens (summary sm)). cbn [fst snd]. split; [done|].
        split; [lia|done].
      + exists 0. cbn [fst snd]. split; [lia|]. by split.
    - exists 0. cbn [fst snd]. split; [lia|]. by split. }
  destruct Hp as (used & Hrem & Hpos & Hhead).
  destruct p as [head remaining]. cbn [fst snd] in *.
  destruct (recent_loop_spec (rev (messages s)) remaining [])
    as (taken & rest & Hsplit & Hres & Hfit & Hmax).
  exists head, (rev taken), (rev rest), used.
  rewrite Hres, app_nil_r. split; [done|]. split.
  { rewrite <- rev_app_distr, <- Hsplit. by rewrite rev_involutive. }
  split; [exact Hhead|]. rewrite window_tokens_rev. split.
  - intros H0. destruct taken as [|m0 taken0].
    + unfold window_tokens. simpl. specialize (Hpos H0). lia.
    + specialize (Hfit ltac:(done)). lia.
  - destruct rest as [|m rest]; [done|].
    cbn [rev]. rewrite last_snoc. lia.
Qed.

(** X27. The window can exceed its budget, by at most 6 tokens. The
    summary is counted on its text but sent with a header of 23
    characters: for a budget that is not negative, the estimate of the
    window on the contents it returns is at most [maxTokens + 6], and at
    most [maxTokens] when the history has no summary. A negative budget
    gives an empty window. *)
Theorem context_window_budget (maxTokens : Z) (s : State) :
  ((0 ≤ maxTokens)%Z →
   (Z.of_nat (window_tokens (getContextWindow maxTokens s)) ≤ maxTokens + 6)%Z ∧
   (getLatestSummary s = None →
    (Z.of_nat (window_tokens (getContextWindow maxTokens s)) ≤ maxTokens)%Z)) ∧
  ((maxTokens < 0)%Z → getContextWindow maxTokens s = []).
Proof.
  unfold getContextWindow. split.
  - intros H0. destruct (getLatestSummary s) as [sm|].
    + destruct (Z.leb_spec (Z.of_nat (estimateTokens (summary sm))) maxTokens).
      * destruct (recent_loop_spec (rev (messages s))
                    (maxTokens - Z.of_nat (estimateTokens (summary sm))) [])
          as (taken & rest & _ & -> & Hfit & _).
        pose proof (summary_message_tokens sm) as Hh.
        rewrite app_nil_r, window_tokens_app, window_tokens_rev.
        split; [|done]. unfold window_tokens at 1. cbn [sum_list_with].
        destruct taken as [|m0 taken0].
        -- unfold window_tokens; cbn [sum_list_with]; lia.
        -- specialize (Hfit ltac:(done)). lia.
      * destruct (recent_loop_spec (rev (messages s)) maxTokens [])
          as (taken & rest & _ & -> & Hfit & _).
        rewrite app_nil_r. cbn [app]. rewrite window_tokens_rev.
        split; [|done]. destruct taken as [|m0 taken0].
        -- unfold window_tokens; cbn [sum_list_with]; lia.
        -- specialize (Hfit ltac:(done)). lia.
    + destruct (recent_loop_spec (rev (messages s)) maxTokens [])
        as (taken & rest & _ & -> & Hfit & _).
      rewrite app_nil_r. cbn [app]. rewrite window_tokens_rev.
      assert ((Z.of_nat (window_tokens taken) ≤ maxTokens)%Z).
      { destruct taken as [|m0 taken0].
        - unfold window_tokens; cbn [sum_list_with]; lia.
        - by specialize (Hfit ltac:(done)). }
      split; [lia|done].
  - intros Hneg.
    assert (Hloop : ∀ l r, (r < 0)%Z → recent_loop l r [] = []).
    { intros [|m l] r Hr; [done|]. cbn [recent_loop].
      destruct (Z.ltb_spec r (Z.of_nat (estimateTokens (content m)))); [done|lia]. }
    destruct (getLatestSummary s) as [sm|].
    + destruct (Z.leb_spec (Z.of_nat (estimateTokens (summary sm))) maxTokens); [lia|].
      cbn [app]. by apply Hloop.
    + cbn [app]. by apply Hloop.
Qed.

(** A summary of one token in a budget of one token: the window holds
    the summary message, whose content is estimated at 7 tokens. *)
Example window_over_budget :
  let s := (summarize "A" "abcd" "d" (append (mkMessage user "hello") init)).2 in
  getContextWindow 1 s = [summary_message (mkSummary "abcd" 1 2 "d")] ∧
  window_tokens (getContextWindow 1 s) = 7.
Proof. vm_compute. done. Qed.

End ConversationHistory.
